(** * chatServer: a select()-driven broadcast server

    A shallow embedding of [chatServer.c] / [chatServer.h].

    - C [int] values are [Z]; the [unsigned int] counter [nr_conns] wraps
      modulo 2^32, which is written out.
    - A [char] is a [Byte.byte]; buffers are [list byte].
    - An [fd_set] is a finite set of descriptors ([gset Z]); [FD_SET],
      [FD_CLR] and [FD_ISSET] are union, difference and membership.
      This is what the bit fields are for descriptors from 0 to
      [FD_SETSIZE - 1]; beyond that the macros are not defined, and what is
      proved about the loops of [main] carries the bound ([within_capacity],
      [accept_fits]).
    - The doubly-linked list of connections hanging off [conn_head] is a
      [list conn_t], head first.  A connection's message queue is the chain
      of nodes reached from [write_msg_head]; a node is either still
      allocated ([Live]) or has been passed to [free] while the chain still
      leads through it ([Freed]).  [write_msg_tail] is the last node.
    - What the operating system answers ([malloc], [read], [write],
      [accept]) is an [environment] of oracles indexed by the number of the
      call; what the program does to it ([write], [close]) is appended to a
      trace.  Reading or freeing a [Freed] node, and indexing a buffer out
      of range, is undefined behaviour: the computation has no result. *)

From Stdlib Require Import ZArith Lia Strings.Byte Strings.Ascii Strings.String.
From stdpp Require Import base option list gmap sets.

Local Open Scope Z_scope.
#[local] Set Warnings "-clear-no-such-hyp".

(** ** Characters *)

Module Ctype.

(** [(unsigned char) c] as an integer. *)
Definition to_uchar (c : byte) : Z := Z.of_N (Byte.to_N c).

(** [(char) n] for an integer [n]: the low eight bits. *)
Definition of_int (n : Z) : byte :=
  default x00 (Byte.of_N (Z.to_N (n mod 256))).

Definition islower (n : Z) : bool := (97 <=? n) && (n <=? 122).
Definition isupper (n : Z) : bool := (65 <=? n) && (n <=? 90).
Definition isalpha (n : Z) : bool := islower n || isupper n.

(** [toupper] of <ctype.h> in the "C" locale, the locale the program runs
    in since it never calls [setlocale]. *)
Definition toupper (n : Z) : Z := if islower n then n - 32 else n.

End Ctype.

(** [(char)toupper((unsigned char)c)] *)
Definition upper_char (c : byte) : byte :=
  Ctype.of_int (Ctype.toupper (Ctype.to_uchar c)).

(** The loop of [capitalizeMessage]: [n] iterations remain, [i] is the loop
    index.  [message[i]] outside the buffer has no defined result. *)
Fixpoint capitalize_loop (n i : nat) (message : list byte) : option (list byte) :=
  match n with
  | O => Some message
  | S n' =>
      match message !! i with
      | None => None
      | Some c => capitalize_loop n' (S i) (<[i := upper_char c]> message)
      end
  end.

Definition capitalizeMessage (message : list byte) (length : Z) : option (list byte) :=
  capitalize_loop (Z.to_nat length) 0 message.

(** The transform seen from outside: every byte to upper case. *)
Definition transform (m : list byte) : list byte := upper_char <$> m.

(** ** Data model ([chatServer.h]) *)

Definition BUFFER_SIZE : Z := 4096.

(** [msg_t]: a heap buffer [message] and its [size]. *)
Record msg_t := { message : list byte; size : Z }.

(** A node of a connection's message chain. *)
Inductive node :=
| Live (m : msg_t)
| Freed.

(** [conn_t]: the descriptor and the chain that starts at
    [write_msg_head]. *)
Record conn_t := { fd : Z; write_msg_head : list node }.

Definition write_msg_tail (conn : conn_t) : option node :=
  last (write_msg_head conn).

Record conn_pool_t := {
  maxfd : Z;
  nready : Z;
  read_set : gset Z;
  ready_read_set : gset Z;
  write_set : gset Z;
  ready_write_set : gset Z;
  conn_head : list conn_t;
  nr_conns : Z
}.

Definition with_maxfd (v : Z) (pool : conn_pool_t) : conn_pool_t :=
  {| maxfd := v; nready := nready pool;
     read_set := read_set pool; ready_read_set := ready_read_set pool;
     write_set := write_set pool; ready_write_set := ready_write_set pool;
     conn_head := conn_head pool; nr_conns := nr_conns pool |}.

Definition with_nready (v : Z) (pool : conn_pool_t) : conn_pool_t :=
  {| maxfd := maxfd pool; nready := v;
     read_set := read_set pool; ready_read_set := ready_read_set pool;
     write_set := write_set pool; ready_write_set := ready_write_set pool;
     conn_head := conn_head pool; nr_conns := nr_conns pool |}.

Definition with_read_set (v : gset Z) (pool : conn_pool_t) : conn_pool_t :=
  {| maxfd := maxfd pool; nready := nready pool;
     read_set := v; ready_read_set := ready_read_set pool;
     write_set := write_set pool; ready_write_set := ready_write_set pool;
     conn_head := conn_head pool; nr_conns := nr_conns pool |}.

Definition with_write_set (v : gset Z) (pool : conn_pool_t) : conn_pool_t :=
  {| maxfd := maxfd pool; nready := nready pool;
     read_set := read_set pool; ready_read_set := ready_read_set pool;
     write_set := v; ready_write_set := ready_write_set pool;
     conn_head := conn_head pool; nr_conns := nr_conns pool |}.

Definition with_conn_head (v : list conn_t) (pool : conn_pool_t) : conn_pool_t :=
  {| maxfd := maxfd pool; nready := nready pool;
     read_set := read_set pool; ready_read_set := ready_read_set pool;
     write_set := write_set pool; ready_write_set := ready_write_set pool;
     conn_head := v; nr_conns := nr_conns pool |}.

Definition with_nr_conns (v : Z) (pool : conn_pool_t) : conn_pool_t :=
  {| maxfd := maxfd pool; nready := nready pool;
     read_set := read_set pool; ready_read_set := ready_read_set pool;
     write_set := write_set pool; ready_write_set := ready_write_set pool;
     conn_head := conn_head pool; nr_conns := v |}.

(** [unsigned int] arithmetic. *)
Definition uint (n : Z) : Z := n mod 2 ^ 32.

(** The descriptors of the live connections, head first. *)
Definition fds (pool : conn_pool_t) : list Z := fd <$> conn_head pool.

(** ** The operating system *)

Inductive read_result :=
| ReadError                      (* read returns -1 *)
| ReadBytes (data : list byte).  (* read returns the number of bytes of [data] *)

(** The answers of the operating system, by call number. *)
Record environment := {
  malloc_ok : nat → bool;        (* does the n-th [malloc] return a block? *)
  read_res : nat → read_result;  (* what the n-th [read] finds *)
  write_res : nat → Z;           (* the value the n-th [write] returns *)
  accept_res : nat → Z           (* the value the n-th [accept] returns *)
}.

Inductive event :=
| EvWrite (sd : Z) (buf : list byte) (count : Z)
| EvClose (sd : Z).

(** How many calls of each kind were made, and what was done so far. *)
Record os_state := {
  mallocs : nat;
  reads : nat;
  writes : nat;
  accepts : nat;
  trace : list event
}.

(** A computation: from the state of the operating system to a result and a
    new state, or to nothing when the behaviour is undefined. *)
Definition M (A : Type) : Type := os_state → option (A * os_state).

Definition ret {A} (a : A) : M A := λ s, Some (a, s).

Definition bind {A B} (k : A → M B) (m : M A) : M B :=
  λ s, match m s with
       | Some (a, s') => k a s'
       | None => None
       end.

Definition undefined {A} : M A := λ _, None.

Definition lift {A} (o : option A) : M A :=
  match o with
  | Some a => ret a
  | None => undefined
  end.

(** stdpp's monadic notation: [x ← m; k] and [m;; k]. *)
#[global] Instance M_ret : MRet M := @ret.
#[global] Instance M_bind : MBind M := @bind.

Section Program.

Context (env : environment).

(** *** System calls *)

Definition malloc : M bool := λ s,
  Some (malloc_ok env (mallocs s),
        {| mallocs := S (mallocs s); reads := reads s; writes := writes s;
           accepts := accepts s; trace := trace s |}).

(** [read(sd, buffer, count)]: at most [count] bytes are delivered. *)
Definition read (sd : Z) (count : Z) : M read_result := λ s,
  Some (match read_res env (reads s) with
        | ReadError => ReadError
        | ReadBytes data => ReadBytes (take (Z.to_nat count) data)
        end,
        {| mallocs := mallocs s; reads := S (reads s); writes := writes s;
           accepts := accepts s; trace := trace s |}).

Definition write (sd : Z) (buf : list byte) (count : Z) : M Z := λ s,
  Some (write_res env (writes s),
        {| mallocs := mallocs s; reads := reads s; writes := S (writes s);
           accepts := accepts s; trace := trace s ++ [EvWrite sd buf count] |}).

Definition accept (welcome_socket : Z) : M Z := λ s,
  Some (accept_res env (accepts s),
        {| mallocs := mallocs s; reads := reads s; writes := writes s;
           accepts := S (accepts s); trace := trace s |}).

Definition close (sd : Z) : M unit := λ s,
  Some ((),
        {| mallocs := mallocs s; reads := reads s; writes := writes s;
           accepts := accepts s; trace := trace s ++ [EvClose sd] |}).

End Program.

Section Operations.

Context (env : environment).

(** *** Messages *)

(** [createMessage]: two allocations, then [memcpy] of [len] bytes.  The
    result is [None] for the C function's [NULL]. *)
Definition createMessage (buffer : list byte) (len : Z) : M (option msg_t) :=
  ok ← malloc env;
  if negb ok then mret None
  else
    ok' ← malloc env;
    if negb ok' then mret None
    else if decide (Z.to_nat len ≤ length buffer)%nat
         then mret (Some {| message := take (Z.to_nat len) buffer; size := len |})
         else undefined.

(** The body of [freeMessagesInQueue]'s loop: every node on the chain is
    read and freed. *)
Fixpoint free_chain (msg : list node) : option unit :=
  match msg with
  | [] => Some ()
  | Live _ :: next_msg => free_chain next_msg
  | Freed :: _ => None
  end.

Definition freeMessagesInQueue (conn : conn_t) : option conn_t :=
  _ ← free_chain (write_msg_head conn);
  Some {| fd := fd conn; write_msg_head := [] |}.

(** *** The pool *)

Definition initPool : conn_pool_t :=
  {| maxfd := -1; nready := 0;
     read_set := ∅; ready_read_set := ∅;
     write_set := ∅; ready_write_set := ∅;
     conn_head := []; nr_conns := 0 |}.

Definition addConn (sd : Z) (pool : conn_pool_t) : M (Z * conn_pool_t) :=
  ok ← malloc env;
  if negb ok then
    close sd;;
    mret (-1, pool)
  else
    let new_conn := {| fd := sd; write_msg_head := [] |} in
    mret (0, with_nr_conns (uint (nr_conns pool + 1))
               (with_read_set ({[sd]} ∪ read_set pool)
                  (with_conn_head (new_conn :: conn_head pool) pool))).

(** The search loop of [removeConn]: the connections before the first one
    whose descriptor is [sd], that connection, and those after it. *)
Fixpoint find_conn (sd : Z) (temp : list conn_t)
  : option (list conn_t * conn_t * list conn_t) :=
  match temp with
  | [] => None
  | conn :: next =>
      if decide (fd conn = sd) then Some ([], conn, next)
      else '(before, found, after) ← find_conn sd next;
           Some (conn :: before, found, after)
  end.

Definition removeConn (sd : Z) (pool : conn_pool_t) : M (Z * conn_pool_t) :=
  match find_conn sd (conn_head pool) with
  | None => mret (-1, pool)
  | Some (before, temp, after) =>
      lift (freeMessagesInQueue temp);;
      close sd;;
      mret (0, with_nr_conns (uint (nr_conns pool - 1))
                 (with_write_set (write_set pool ∖ {[sd]})
                    (with_read_set (read_set pool ∖ {[sd]})
                       (with_conn_head (before ++ after) pool))))
  end.

Definition updateMaxFd (pool : conn_pool_t) (welcome_socket : Z) : conn_pool_t :=
  with_maxfd
    (fold_left (λ max_fd conn, if fd conn >? max_fd then fd conn else max_fd)
       (conn_head pool) welcome_socket)
    pool.

(** Linking [newMsg] behind [write_msg_tail]. *)
Definition append_msg (newMsg : msg_t) (conn : conn_t) : option conn_t :=
  match write_msg_tail conn with
  | None => Some {| fd := fd conn; write_msg_head := [Live newMsg] |}
  | Some (Live _) =>
      Some {| fd := fd conn;
              write_msg_head := write_msg_head conn ++ [Live newMsg] |}
  | Some Freed => None
  end.

(** The loop of [addMsg] over the connections from [conn] on; [wset] is
    [pool->write_set]. *)
Fixpoint addMsg_loop (sd : Z) (buffer : list byte) (len : Z)
    (conn : list conn_t) (wset : gset Z) : M (list conn_t * gset Z) :=
  match conn with
  | [] => mret ([], wset)
  | c :: next =>
      if decide (fd c ≠ sd) then
        newMsg ← createMessage buffer len;
        match newMsg with
        | None =>
            '(next', wset') ← addMsg_loop sd buffer len next wset;
            mret (c :: next', wset')
        | Some m =>
            c' ← lift (append_msg m c);
            '(next', wset') ← addMsg_loop sd buffer len next ({[fd c]} ∪ wset);
            mret (c' :: next', wset')
        end
      else
        '(next', wset') ← addMsg_loop sd buffer len next wset;
        mret (c :: next', wset')
  end.

Definition addMsg (sd : Z) (buffer : list byte) (len : Z) (pool : conn_pool_t)
  : M (Z * conn_pool_t) :=
  '(conns, wset) ← addMsg_loop sd buffer len (conn_head pool) (write_set pool);
  mret (0, with_write_set wset (with_conn_head conns pool)).

(** The [while (msg)] loop of [writeToClient].  It returns the chain as it
    hangs off the untouched [write_msg_head] afterwards, and [is_error]. *)
Fixpoint write_loop (sd : Z) (msg : list node) : M (list node * Z) :=
  match msg with
  | [] => mret ([], -1)
  | Freed :: _ => undefined
  | Live m :: next_msg =>
      written ← write env sd (message m) (size m);
      if written <=? 0 then mret (msg, 1)
      else '(chain, is_error) ← write_loop sd next_msg;
           mret (Freed :: chain, is_error)
  end.

Definition writeToClient (sd : Z) (pool : conn_pool_t) : M (Z * conn_pool_t) :=
  match find_conn sd (conn_head pool) with
  | None => mret (-1, pool)
  | Some (before, conn, after) =>
      '(chain, is_error) ← write_loop sd (write_msg_head conn);
      let conn' :=
        if decide (is_error ≠ 1)
        then {| fd := fd conn; write_msg_head := [] |}
        else {| fd := fd conn; write_msg_head := chain |} in
      mret (0, with_write_set (write_set pool ∖ {[sd]})
                 (with_conn_head (before ++ conn' :: after) pool))
  end.

(** *** The dispatcher *)

Definition acceptNewConnection (welcome_socket : Z) (pool : conn_pool_t)
  : M (Z * conn_pool_t) :=
  new_socket ← accept env welcome_socket;
  if new_socket <? 0 then mret (-1, pool)
  else
    '(r, pool') ← addConn new_socket pool;
    if r <? 0 then
      close new_socket;;
      mret (-1, pool')
    else mret (0, updateMaxFd pool' welcome_socket).

Definition processDataFromConnection (sd : Z) (pool : conn_pool_t)
    (welcome_socket : Z) : M conn_pool_t :=
  let buffer := replicate (Z.to_nat BUFFER_SIZE) x00 in
  r ← read env sd (BUFFER_SIZE - 1);
  match r with
  | ReadError => mret pool
  | ReadBytes data =>
      let bytes_read := Z.of_nat (length data) in
      if bytes_read >? 0 then
        let buffer := data ++ drop (length data) buffer in
        buffer ← lift (capitalizeMessage buffer bytes_read);
        '(_, pool') ← addMsg sd buffer bytes_read pool;
        mret pool'
      else
        '(_, pool') ← removeConn sd pool;
        mret (updateMaxFd pool' welcome_socket)
  end.

(** The second half of the body of the [for] loop in [main]. *)
Definition service_write (sd : Z) (pool : conn_pool_t) : M conn_pool_t :=
  if decide (sd ∈ ready_write_set pool) then
    '(_, pool') ← writeToClient sd pool;
    mret (with_nready (nready pool' - 1) pool')
  else mret pool.

(** The body of the [for] loop in [main], for one descriptor [sd]. *)
Definition service (sd welcome_socket : Z) (pool : conn_pool_t) : M conn_pool_t :=
  if decide (sd ∈ ready_read_set pool) then
    if decide (sd = welcome_socket) then
      '(r, pool') ← acceptNewConnection welcome_socket pool;
      if decide (r ≠ 0) then mret pool'
      else service_write sd (with_nready (nready pool' - 1) pool')
    else
      pool' ← processDataFromConnection sd pool welcome_socket;
      service_write sd (with_nready (nready pool' - 1) pool')
  else service_write sd pool.

(** The pool [main] enters its loop with. *)
Definition main_pool (welcome_socket : Z) : conn_pool_t :=
  with_maxfd welcome_socket
    (with_read_set ({[welcome_socket]} ∪ read_set initPool) initPool).

(** The clean-up loop of [main]: [current] walks the connections as they
    were linked when the loop began. *)
Fixpoint cleanup_loop (current : list conn_t) (pool : conn_pool_t) : M conn_pool_t :=
  match current with
  | [] => mret pool
  | c :: next =>
      '(_, pool') ← removeConn (fd c) pool;
      cleanup_loop next pool'
  end.

Definition shutdown (welcome_socket : Z) (pool : conn_pool_t) : M conn_pool_t :=
  pool' ← cleanup_loop (conn_head pool) pool;
  close welcome_socket;;
  mret pool'.

End Operations.

(** Lines 48 to 53 of [main]: the candidate sets are copied and [select]
    keeps of them the descriptors that are ready, [rready] for reading and
    [wready] for writing, and returns their number. *)
Definition select_ready (rready wready : gset Z) (pool : conn_pool_t) : conn_pool_t :=
  let rs := read_set pool ∩ rready in
  let ws := write_set pool ∩ wready in
  {| maxfd := maxfd pool;
     nready := Z.of_nat (base.size rs + base.size ws);
     read_set := read_set pool; ready_read_set := rs;
     write_set := write_set pool; ready_write_set := ws;
     conn_head := conn_head pool; nr_conns := nr_conns pool |}.

(** ** Start-up: the command line *)

Module Libc.

Definition code (c : ascii) : Z := Z.of_nat (nat_of_ascii c).

(** [isspace] in the "C" locale: space, and \t \n \v \f \r. *)
Definition isspace (c : ascii) : bool :=
  (code c =? 32) || ((9 <=? code c) && (code c <=? 13)).

Definition isdigit (c : ascii) : bool := (48 <=? code c) && (code c <=? 57).

Fixpoint skip_space (s : string) : string :=
  match s with
  | String c s' => if isspace c then skip_space s' else s
  | EmptyString => s
  end.

(** The number written by the longest run of decimal digits at the front
    of [s], continuing from [acc]. *)
Fixpoint digits (acc : Z) (s : string) : Z :=
  match s with
  | String c s' => if isdigit c then digits (acc * 10 + (code c - 48)) s' else acc
  | EmptyString => acc
  end.

(** [unsigned long] and [long] are 64 bits wide (LP64). *)
Definition ULONG_MAX : Z := 2 ^ 64 - 1.

(** [strtoul(nptr, NULL, 10)]: white space, an optional sign, digits;
    what follows the digits is not looked at.  No digits give 0, a number
    that does not fit gives [ULONG_MAX], a minus sign negates within
    [unsigned long]. *)
Definition strtoul (nptr : string) : Z :=
  let s := skip_space nptr in
  let '(minus, s) :=
    match s with
    | String c s' =>
        if Ascii.eqb c "-" then (true, s')
        else if Ascii.eqb c "+" then (false, s')
        else (false, s)
    | EmptyString => (false, s)
    end in
  let v := digits 0 s in
  if v >? ULONG_MAX then ULONG_MAX
  else if minus then (- v) mod 2 ^ 64
  else v.

(** The cast [(long)] of an [unsigned long]. *)
Definition to_long (v : Z) : Z := if v <? 2 ^ 63 then v else v - 2 ^ 64.

End Libc.

Definition EXIT_FAILURE : Z := 1.

(** The line [main] prints: the text and a newline. *)
Definition usage : string :=
  "Usage: server <port>" ++ String (ascii_of_nat 10) EmptyString.

Inductive startup_result :=
| Exit (stdout : string) (status : Z)   (* printed, then [exit(status)] *)
| Proceed (port : Z).                   (* validation passed, with this [port] *)

(** The first lines of [main]; [argc] is the length of [argv]. *)
Definition startup (argv : list string) : startup_result :=
  let argc := Z.of_nat (length argv) in
  if decide (argc ≠ 2) then Exit usage EXIT_FAILURE
  else
    match argv !! 1%nat with
    | None => Exit usage EXIT_FAILURE
    | Some arg =>
        let temp_port := Libc.to_long (Libc.strtoul arg) in
        if (temp_port <? 1) || (temp_port >? 65535) then Exit usage EXIT_FAILURE
        else Proceed (temp_port mod 2 ^ 16)
    end.

(** Whether [main] gets past the validation. *)
Definition proceeds (argv : list string) : bool :=
  match startup argv with
  | Proceed _ => true
  | Exit _ _ => false
  end.

(** The specification's reading of the argument: a decimal numeral, one
    digit at least and nothing but digits, whose number is a TCP port. *)
Fixpoint all_digits (s : string) : bool :=
  match s with
  | String c s' => Libc.isdigit c && all_digits s'
  | EmptyString => true
  end.

Definition is_numeral (s : string) : bool :=
  match s with
  | EmptyString => false
  | _ => all_digits s
  end.

Fixpoint numeral_value (acc : Z) (s : string) : Z :=
  match s with
  | String c s' => numeral_value (acc * 10 + (Libc.code c - 48)) s'
  | EmptyString => acc
  end.

Definition denotes_port (s : string) : Prop :=
  is_numeral s = true ∧ 1 ≤ numeral_value 0 s ≤ 65535.

(** ** Properties the pool is meant to have *)

(** Every node of the chain is allocated. *)
Definition all_live (chain : list node) : Prop := Forall (λ n, n ≠ Freed) chain.

(** [write_msg_tail] does not point at freed memory. *)
Definition tail_live (conn : conn_t) : Prop := write_msg_tail conn ≠ Some Freed.

(** A descriptor is in the write set exactly when its queue has messages. *)
Definition write_interest_inv (pool : conn_pool_t) : Prop :=
  ∀ conn, conn ∈ conn_head pool →
    (fd conn ∈ write_set pool ↔ write_msg_head conn ≠ []).

(** The largest descriptor among the listening socket and the connections. *)
Definition upper_bound (welcome_socket : Z) (pool : conn_pool_t) : Z :=
  foldr Z.max welcome_socket (fds pool).

(** One more message at the end of the queue of every connection but the
    sender's. *)
Definition deliver (sd : Z) (m : msg_t) (conn : conn_t) : conn_t :=
  if decide (fd conn ≠ sd)
  then {| fd := fd conn; write_msg_head := write_msg_head conn ++ [Live m] |}
  else conn.

(** The connections a broadcast from [sd] goes to. *)
Definition recipients (sd : Z) (conns : list conn_t) : list conn_t :=
  filter (λ conn, fd conn ≠ sd) conns.

(** The invariant, for one connection. *)
Definition interest_ok (wset : gset Z) (conn : conn_t) : Prop :=
  fd conn ∈ wset ↔ write_msg_head conn ≠ [].

(** ** Bookkeeping of the operating system's state *)

Definition os_init : os_state :=
  {| mallocs := 0; reads := 0; writes := 0; accepts := 0; trace := [] |}.

(** [os] after [k] more calls of [malloc]. *)
Definition add_mallocs (k : nat) (os : os_state) : os_state :=
  {| mallocs := mallocs os + k; reads := reads os; writes := writes os;
     accepts := accepts os; trace := trace os |}.

Definition write_event (sd : Z) (m : msg_t) : event :=
  EvWrite sd (message m) (size m).

(** [os] after [write] was called on [sd] for each of [msgs], in this order. *)
Definition add_writes (sd : Z) (msgs : list msg_t) (os : os_state) : os_state :=
  {| mallocs := mallocs os; reads := reads os;
     writes := writes os + length msgs; accepts := accepts os;
     trace := trace os ++ (write_event sd <$> msgs) |}.

(** Descriptor [sd] was not closed between [os] and [os']. *)
Definition left_open (sd : Z) (os os' : os_state) : Prop :=
  EvClose sd ∉ drop (length (trace os)) (trace os').

(** The message [createMessage buffer len] builds. *)
Definition copy_of (buffer : list byte) (len : Z) : msg_t :=
  {| message := take (Z.to_nat len) buffer; size := len |}.

(** ** A run of the server, for the examples *)

Module Scenario.

Definition hello : list byte := [x68; x65; x6c; x6c; x6f].
Definition world : list byte := [x77; x6f; x72; x6c; x64].
Definition HELLO : msg_t := {| message := [x48; x45; x4c; x4c; x4f]; size := 5 |}.
Definition WORLD : msg_t := {| message := [x57; x4f; x52; x4c; x44]; size := 5 |}.

(** Clients connect on descriptors 4, 5, ...; the first two reads bring
    "hello" and "world", later ones find the peer gone; the first write goes
    through and the following ones fail. *)
Definition env : environment :=
  {| malloc_ok := λ _, true;
     read_res := λ n, match n with
                      | O => ReadBytes hello
                      | S O => ReadBytes world
                      | _ => ReadBytes []
                      end;
     write_res := λ n, match n with O => 5 | _ => -1 end;
     accept_res := λ n, 4 + Z.of_nat n |}.

(** The same, but every write fails. *)
Definition env_no_write : environment :=
  {| malloc_ok := malloc_ok env; read_res := read_res env;
     write_res := λ _, -1; accept_res := accept_res env |}.

(** The same as [env], but no memory is to be had. *)
Definition env_no_memory : environment :=
  {| malloc_ok := λ _, false; read_res := read_res env;
     write_res := write_res env; accept_res := accept_res env |}.

(** The same as [env], but the third allocation fails. *)
Definition env_third_malloc : environment :=
  {| malloc_ok := λ n, negb (n =? 2)%nat; read_res := read_res env;
     write_res := write_res env; accept_res := accept_res env |}.

Definition welcome_socket : Z := 3.

(** Two clients have connected. *)
Definition connected (e : environment) : M conn_pool_t :=
  '(_, pool) ← acceptNewConnection e welcome_socket (main_pool welcome_socket);
  '(_, pool) ← acceptNewConnection e welcome_socket pool;
  mret pool.

(** Then client 5 has sent "hello". *)
Definition one_sent (e : environment) : M conn_pool_t :=
  pool ← connected e;
  processDataFromConnection e 5 pool welcome_socket.

(** Then client 5 has sent "world" as well. *)
Definition two_sent (e : environment) : M conn_pool_t :=
  pool ← one_sent e;
  processDataFromConnection e 5 pool welcome_socket.

Definition pool_of (conns : list conn_t) (wset : gset Z) : conn_pool_t :=
  {| maxfd := 5; nready := 0;
     read_set := {[3; 4; 5]}; ready_read_set := ∅;
     write_set := wset; ready_write_set := ∅;
     conn_head := conns; nr_conns := 2 |}.

Definition pool_connected : conn_pool_t :=
  pool_of [ {| fd := 5; write_msg_head := [] |};
            {| fd := 4; write_msg_head := [] |} ] ∅.

Definition pool_one_sent : conn_pool_t :=
  pool_of [ {| fd := 5; write_msg_head := [] |};
            {| fd := 4; write_msg_head := [Live HELLO] |} ] {[4]}.

Definition pool_two_sent : conn_pool_t :=
  pool_of [ {| fd := 5; write_msg_head := [] |};
            {| fd := 4; write_msg_head := [Live HELLO; Live WORLD] |} ] {[4]}.

(** Four clients have connected. *)
Definition four_connected (e : environment) : M conn_pool_t :=
  pool ← connected e;
  '(_, pool) ← acceptNewConnection e welcome_socket pool;
  '(_, pool) ← acceptNewConnection e welcome_socket pool;
  mret pool.

Definition pool_four : conn_pool_t :=
  {| maxfd := 7; nready := 0;
     read_set := {[3; 4; 5; 6; 7]}; ready_read_set := ∅;
     write_set := ∅; ready_write_set := ∅;
     conn_head := [ {| fd := 7; write_msg_head := [] |};
                    {| fd := 6; write_msg_head := [] |};
                    {| fd := 5; write_msg_head := [] |};
                    {| fd := 4; write_msg_head := [] |} ];
     nr_conns := 4 |}.

Definition os_after (m r w a : nat) (t : list event) : os_state :=
  {| mallocs := m; reads := r; writes := w; accepts := a; trace := t |}.

End Scenario.

(** ** The rest of the program *)

(** *** [initializeServer] *)

Module Boot.

(** What [socket], [ioctl], [bind] and [listen] return; each is called once
    at most. *)
Record answers := {
  socket_res : Z;
  ioctl_res : Z;
  bind_res : Z;
  listen_res : Z
}.

(** The calls [initializeServer] makes: [socket(AF_INET, SOCK_STREAM, 0)],
    [ioctl(fd, FIONBIO, &on)], [bind] of [fd] to [port] on any interface,
    [listen(fd, backlog)] and [close(fd)]. *)
Inductive call :=
| Socket
| Ioctl (fd : Z)
| Bind (fd port : Z)
| Listen (fd backlog : Z)
| Close (fd : Z).

(** The value returned and the calls made, in order. *)
Definition initializeServer (a : answers) (port : Z) : Z * list call :=
  let welcome_socket := socket_res a in
  if welcome_socket <? 0 then (-1, [Socket])
  else if ioctl_res a <? 0 then
    (-1, [Socket; Ioctl welcome_socket; Close welcome_socket])
  else if bind_res a <? 0 then
    (-1, [Socket; Ioctl welcome_socket; Bind welcome_socket port;
          Close welcome_socket])
  else if listen_res a <? 0 then
    (-1, [Socket; Ioctl welcome_socket; Bind welcome_socket port;
          Listen welcome_socket 5; Close welcome_socket])
  else
    (welcome_socket, [Socket; Ioctl welcome_socket; Bind welcome_socket port;
                      Listen welcome_socket 5]).

(** The four calls in the order [initializeServer] makes them, and what each
    returns. *)
Definition attempts (a : answers) (port : Z) : list call :=
  [Socket; Ioctl (socket_res a); Bind (socket_res a) port;
   Listen (socket_res a) 5].

Definition results (a : answers) : list Z :=
  [socket_res a; ioctl_res a; bind_res a; listen_res a].

End Boot.

(** *** The loops of [main] *)

(** What [select] answers: an error, or the descriptors that are ready. *)
Inductive select_result :=
| SelectError
| SelectReady (rready wready : gset Z).

(** The pool after the candidate sets were copied and [select] returned -1:
    the copies are taken to be as they were. *)
Definition select_failed (pool : conn_pool_t) : conn_pool_t :=
  {| maxfd := maxfd pool; nready := -1;
     read_set := read_set pool; ready_read_set := read_set pool;
     write_set := write_set pool; ready_write_set := write_set pool;
     conn_head := conn_head pool; nr_conns := nr_conns pool |}.

Section Loop.

Context (env : environment).

(** The [for] loop of [main], from descriptor [sd] on.  The inner result is
    [None] when [fuel] turns of the loop were not enough. *)
Fixpoint scan (fuel : nat) (sd welcome_socket : Z) (pool : conn_pool_t)
  : M (option conn_pool_t) :=
  if (sd <=? maxfd pool) && (nready pool >? 0) then
    match fuel with
    | O => mret None
    | S fuel' =>
        pool' ← service env sd welcome_socket pool;
        scan fuel' (sd + 1) welcome_socket pool'
    end
  else mret (Some pool).

(** One turn of the [do ... while] loop, [select] answering [sel]. *)
Definition iteration (fuel : nat) (sel : select_result) (welcome_socket : Z)
    (pool : conn_pool_t) : M (option conn_pool_t) :=
  match sel with
  | SelectError => mret (Some (select_failed pool))
  | SelectReady rready wready =>
      scan fuel 0 welcome_socket (select_ready rready wready pool)
  end.

(** The [do ... while (!end_server)] loop, for the turns in which [select]
    answers [first] and then [rest]; the interrupt arrives during the last
    of them. *)
Fixpoint main_loop (fuel : nat) (first : select_result) (rest : list select_result)
    (welcome_socket : Z) (pool : conn_pool_t) : M (option conn_pool_t) :=
  r ← iteration fuel first welcome_socket pool;
  match r, rest with
  | None, _ => mret None
  | Some pool', [] => mret (Some pool')
  | Some pool', next :: rest' => main_loop fuel next rest' welcome_socket pool'
  end.

End Loop.

(** *** What the pool keeps between two turns *)

(** What the pool keeps whatever the operating system answers. *)
Record sound (welcome_socket : Z) (pool : conn_pool_t) : Prop := {
  tails_valid : Forall tail_live (conn_head pool);
  read_live : read_set pool ⊆ {[welcome_socket]} ∪ list_to_set (fds pool);
  write_live : write_set pool ⊆ list_to_set (fds pool);
  bound_right : maxfd pool = upper_bound welcome_socket pool;
  count_right : nr_conns pool = uint (Z.of_nat (length (conn_head pool)))
}.

(** What it keeps besides, as long as [accept] hands out descriptors that are
    not in use and no [write] fails. *)
Record consistent (welcome_socket : Z) (pool : conn_pool_t) : Prop := {
  is_sound : sound welcome_socket pool;
  distinct_fds : NoDup (fds pool);
  welcome_apart : welcome_socket ∉ fds pool;
  read_full : {[welcome_socket]} ∪ list_to_set (fds pool) ⊆ read_set pool;
  write_interest : write_interest_inv pool;
  chains_intact : Forall (λ conn, all_live (write_msg_head conn)) (conn_head pool)
}.

(** No descriptor the pool knows of is above [U]. *)
Definition below (U : Z) (pool : conn_pool_t) : Prop :=
  maxfd pool ≤ U ∧ ∀ x, x ∈ fds pool → x ≤ U.

(** Only [malloc] was called between [os] and [os']. *)
Definition only_mallocs (os os' : os_state) : Prop :=
  (mallocs os ≤ mallocs os')%nat
  ∧ reads os' = reads os ∧ writes os' = writes os
  ∧ accepts os' = accepts os ∧ trace os' = trace os.

(** What a broadcast of [m] from [sd] may do to one connection: nothing, or,
    if it is not the sender's, put [m] at the end of its queue. *)
Definition served (sd : Z) (m : msg_t) (conn conn' : conn_t) : Prop :=
  conn' = conn
  ∨ (fd conn ≠ sd
     ∧ conn' = {| fd := fd conn; write_msg_head := write_msg_head conn ++ [Live m] |}).

(** The answer [accept] gives next is an error, or a descriptor that is
    neither a connection's nor the listening socket's. *)
Definition accept_unused (env : environment) (welcome_socket : Z)
    (pool : conn_pool_t) (os : os_state) : Prop :=
  accept_res env (accepts os) < 0
  ∨ ((accept_res env (accepts os) ∉ fds pool)
     ∧ accept_res env (accepts os) ≠ welcome_socket).

(** No [write] fails from [os] on. *)
Definition writes_succeed (env : environment) (os : os_state) : Prop :=
  ∀ i, (writes os ≤ i)%nat → 0 < write_res env i.

(** *** The capacity of an [fd_set] *)

(** An [fd_set] has one bit for each descriptor from 0 to [FD_SETSIZE - 1]
    (<sys/select.h>; 1024 with glibc), and [FD_SET], [FD_CLR] and [FD_ISSET]
    are defined for these descriptors only.  The sets of the pool are
    modelled as finite sets of descriptors, which is what the bit fields are
    as long as every descriptor is in this range; what is proved about the
    loops of [main] is proved for descriptors in this range. *)
Definition FD_SETSIZE : Z := 1024.

Definition fits (x : Z) : Prop := 0 ≤ x < FD_SETSIZE.

(** The listening socket and every connection have a bit in an [fd_set]. *)
Definition within_capacity (welcome_socket : Z) (pool : conn_pool_t) : Prop :=
  fits welcome_socket ∧ ∀ x, x ∈ fds pool → fits x.

(** [accept] returns no descriptor beyond the capacity of an [fd_set]. *)
Definition accept_fits (env : environment) : Prop :=
  ∀ i, accept_res env i < FD_SETSIZE.

(** In a turn in which [select] reports the listening socket readable, what
    [accept] returns next is an error or a descriptor that is not in use
    when the turn begins. *)
Definition accept_fresh_turn (env : environment) (sel : select_result)
    (welcome_socket : Z) (pool : conn_pool_t) (os : os_state) : Prop :=
  match sel with
  | SelectError => True
  | SelectReady rready _ =>
      welcome_socket ∈ rready → accept_unused env welcome_socket pool os
  end.

(** The same in every turn of a run of the [do ... while] loop. *)
Fixpoint accept_fresh (env : environment) (fuel : nat) (first : select_result)
    (rest : list select_result) (welcome_socket : Z) (pool : conn_pool_t)
    (os : os_state) : Prop :=
  accept_fresh_turn env first welcome_socket pool os
  ∧ match rest with
    | [] => True
    | next :: rest' =>
        ∀ pool' os',
          iteration env fuel first welcome_socket pool os = Some (Some pool', os') →
          accept_fresh env fuel next rest' welcome_socket pool' os'
    end.

(** The descriptors closed in [t], in the order of the calls. *)
Definition closes (t : list event) : list Z :=
  omap (λ e, match e with EvClose sd => Some sd | EvWrite _ _ _ => None end) t.

(** The descriptors that the first [n] calls of [accept] returned. *)
Definition accepted (env : environment) (n : nat) : list Z :=
  filter (λ x, 0 ≤ x) (accept_res env <$> seq 0 n).

(** Every descriptor that [accept] returned is a connection's or was closed,
    one or the other and once. *)
Definition accounted (env : environment) (os : os_state) (pool : conn_pool_t)
  : Prop :=
  fds pool ++ closes (trace os) ≡ₚ accepted env (accepts os).

(** ** A run in which nothing fails, for the examples *)

Module Calm.

(** Every allocation and every write succeeds; clients connect on
    descriptors 4, 5, ... up to 1003, after which [accept] fails; the reads
    are those of [Scenario.env]. *)
Definition env : environment :=
  {| malloc_ok := λ _, true;
     read_res := read_res Scenario.env;
     write_res := λ _, 5;
     accept_res := λ n, if (n <? 1000)%nat then 4 + Z.of_nat n else -1 |}.

(** What [select] answers in the turns after the first, in which a client
    was waiting: another client is waiting, client 5 has sent something,
    client 4 can be written to. *)
Definition turns : list select_result :=
  [ SelectReady {[3]} ∅; SelectReady {[5]} ∅; SelectReady ∅ {[4]} ].

End Calm.

(** ** A run in which a descriptor comes back *)

Module Reuse.

(** Every client gets descriptor 4 and closes without sending anything; no
    allocation and no write fails. *)
Definition env : environment :=
  {| malloc_ok := λ _, true;
     read_res := λ _, ReadBytes [];
     write_res := λ _, 1;
     accept_res := λ _, 4 |}.

(** After the first turn, in which a client was waiting: the client has
    closed, and then the next client is waiting. *)
Definition turns : list select_result :=
  [ SelectReady {[4]} ∅; SelectReady {[3]} ∅ ].

End Reuse.

(** ** Lemmas *)

Ltac run :=
  repeat (progress (unfold lift, undefined, mbind, M_bind, bind, mret, M_ret, ret;
                    cbn beta iota)).

(** *** The examples are states of a run *)

Lemma scenario_runs :
  Scenario.connected Scenario.env os_init
  = Some (Scenario.pool_connected, Scenario.os_after 2 0 0 2 [])
  ∧ Scenario.one_sent Scenario.env os_init
    = Some (Scenario.pool_one_sent, Scenario.os_after 4 1 0 2 [])
  ∧ Scenario.two_sent Scenario.env os_init
    = Some (Scenario.pool_two_sent, Scenario.os_after 6 2 0 2 [])
  ∧ Scenario.four_connected Scenario.env os_init
    = Some (Scenario.pool_four, Scenario.os_after 4 0 0 4 []).
Proof. repeat split; vm_compute; reflexivity. Qed.

(** *** The transform *)

Lemma upper_char_idemp c : upper_char (upper_char c) = upper_char c.
Proof. destruct c; reflexivity. Qed.

Lemma capitalize_loop_spec n : ∀ i (message : list byte),
  (i + n ≤ length message)%nat →
  capitalize_loop n i message
  = Some (take i message ++ (upper_char <$> take n (drop i message))
            ++ drop (i + n) message).
Proof.
  induction n as [|n IH]; intros i message Hlen; simpl.
  - rewrite Nat.add_0_r. simpl. by rewrite take_drop.
  - destruct (message !! i) as [c|] eqn:Hc.
    2:{ apply lookup_ge_None in Hc. lia. }
    rewrite IH by (rewrite length_insert; lia).
    f_equal.
    assert (Hi : (i < length message)%nat) by lia.
    rewrite (take_S_r _ i (upper_char c)) by (by apply list_lookup_insert_eq).
    rewrite take_insert_ge by lia.
    rewrite !drop_insert_lt by lia.
    rewrite (drop_S message c i Hc). simpl.
    rewrite <- app_assoc. simpl.
    by rewrite Nat.add_succ_r.
Qed.

Lemma upper_char_nonalpha c :
  Ctype.isalpha (Ctype.to_uchar c) = false → upper_char c = c.
Proof. destruct c; vm_compute; congruence. Qed.

Lemma upper_char_code c :
  Ctype.to_uchar (upper_char c)
  = if Ctype.islower (Ctype.to_uchar c) then Ctype.to_uchar c - 32 else Ctype.to_uchar c.
Proof. destruct c; reflexivity. Qed.

Lemma capitalizeMessage_eq (message : list byte) (len : Z) :
  (Z.to_nat len ≤ length message)%nat →
  capitalizeMessage message len
  = Some (transform (take (Z.to_nat len) message) ++ drop (Z.to_nat len) message).
Proof.
  intros Hlen. unfold capitalizeMessage, transform.
  rewrite capitalize_loop_spec by lia. by rewrite take_0, drop_0.
Qed.

(** *** Finding a connection *)

Lemma find_conn_None sd conns :
  sd ∉ fd <$> conns → find_conn sd conns = None.
Proof.
  induction conns as [|c conns IH]; simpl; [done|].
  intros Hnot. apply not_elem_of_cons in Hnot as [Hne Hnot].
  destruct (decide (fd c = sd)); [congruence|].
  by rewrite IH.
Qed.

Lemma find_conn_Some sd conns before c after :
  find_conn sd conns = Some (before, c, after) →
  conns = before ++ c :: after ∧ fd c = sd ∧ sd ∉ fd <$> before.
Proof.
  revert before. induction conns as [|x conns IH]; simpl; intros before H; [done|].
  destruct (decide (fd x = sd)) as [Heq|Hne].
  - inversion H; subst. split; [done|]. split; [done|]. simpl. apply not_elem_of_nil.
  - destruct (find_conn sd conns) as [[[b f] a]|]; simpl in H; [|done].
    inversion H; subst. destruct (IH b eq_refl) as (-> & Hfd & Hnot).
    split; [done|]. split; [done|]. simpl. apply not_elem_of_cons. split; [congruence|done].
Qed.

Lemma find_conn_elem sd conns :
  sd ∈ fd <$> conns → ∃ before c after, find_conn sd conns = Some (before, c, after).
Proof.
  induction conns as [|x conns IH]; simpl; intros H.
  - by apply elem_of_nil in H.
  - destruct (decide (fd x = sd)); [eauto|].
    apply elem_of_cons in H as [H|H]; [congruence|].
    destruct (IH H) as (b & c & a & ->). simpl. eauto.
Qed.

Lemma find_conn_NoDup sd conns before temp after :
  NoDup (fd <$> conns) →
  find_conn sd conns = Some (before, temp, after) →
  sd ∉ fd <$> (before ++ after).
Proof.
  intros Hnd Hfind. apply find_conn_Some in Hfind as (-> & Hfd & Hbefore).
  rewrite fmap_app in *. simpl in Hnd.
  apply NoDup_app in Hnd as (_ & Hdisj & Hnd). apply NoDup_cons in Hnd as [Hafter _].
  rewrite Hfd in Hafter. apply not_elem_of_app. done.
Qed.

(** *** Broadcast *)

Lemma add_mallocs_add a b os :
  add_mallocs a (add_mallocs b os) = add_mallocs (b + a) os.
Proof. unfold add_mallocs. simpl. f_equal. lia. Qed.

Lemma createMessage_ok env buffer len os :
  malloc_ok env (mallocs os) = true →
  malloc_ok env (S (mallocs os)) = true →
  (Z.to_nat len ≤ length buffer)%nat →
  createMessage env buffer len os = Some (Some (copy_of buffer len), add_mallocs 2 os).
Proof.
  intros H1 H2 Hlen. unfold createMessage, malloc. run. rewrite H1. simpl.
  rewrite H2. simpl. rewrite decide_True by done. unfold add_mallocs.
  do 3 f_equal. lia.
Qed.

Lemma createMessage_fail env buffer len os :
  malloc_ok env (mallocs os) = false
  ∨ (malloc_ok env (mallocs os) = true ∧ malloc_ok env (S (mallocs os)) = false) →
  ∃ k, (k = 1 ∨ k = 2)%nat
       ∧ createMessage env buffer len os = Some (None, add_mallocs k os)
       ∧ malloc_ok env (mallocs os + k - 1) = false.
Proof.
  intros [H1|[H1 H2]]; unfold createMessage, malloc; run; rewrite H1; simpl.
  - exists 1%nat. split; [by left|]. split.
    + unfold add_mallocs. do 3 f_equal. lia.
    + by replace (mallocs os + 1 - 1)%nat with (mallocs os) by lia.
  - rewrite H2. simpl. exists 2%nat. split; [by right|]. split.
    + unfold add_mallocs. do 3 f_equal. lia.
    + by replace (mallocs os + 2 - 1)%nat with (S (mallocs os)) by lia.
Qed.

Lemma append_msg_live m conn :
  tail_live conn →
  append_msg m conn
  = Some {| fd := fd conn; write_msg_head := write_msg_head conn ++ [Live m] |}.
Proof.
  unfold tail_live, append_msg, write_msg_tail.
  destruct (write_msg_head conn) as [|n q] eqn:Hq using rev_ind; [done|].
  rewrite last_snoc. destruct n; [done|congruence].
Qed.

Lemma deliver_sender sd m conn : fd conn = sd → deliver sd m conn = conn.
Proof. intros H. unfold deliver. by rewrite decide_False by (intros ?; congruence). Qed.

Lemma deliver_other sd m conn :
  fd conn ≠ sd →
  deliver sd m conn
  = {| fd := fd conn; write_msg_head := write_msg_head conn ++ [Live m] |}.
Proof. intros H. unfold deliver. by rewrite decide_True. Qed.

Lemma addMsg_loop_all_ok env sd buffer len conns : ∀ wset os,
  (∀ i, (i < 2 * length (recipients sd conns))%nat →
        malloc_ok env (mallocs os + i) = true) →
  Forall tail_live conns →
  (Z.to_nat len ≤ length buffer)%nat →
  addMsg_loop env sd buffer len conns wset os
  = Some ((deliver sd (copy_of buffer len) <$> conns,
           list_to_set (fd <$> recipients sd conns) ∪ wset),
          add_mallocs (2 * length (recipients sd conns)) os).
Proof.
  induction conns as [|c conns IH]; intros wset os Hok Htl Hlen.
  - simpl. run. unfold add_mallocs. simpl. destruct os; simpl.
    do 2 f_equal; [f_equal; set_solver | f_equal; lia].
  - apply Forall_cons in Htl as [Hc Htl]. simpl.
    unfold recipients in *. destruct (decide (fd c ≠ sd)) as [Hne|Heq].
    + rewrite filter_cons_True in * by done. simpl in Hok.
      assert (H0 : malloc_ok env (mallocs os) = true).
      { rewrite <- (Nat.add_0_r (mallocs os)). apply Hok. lia. }
      assert (H1 : malloc_ok env (S (mallocs os)) = true).
      { rewrite <- Nat.add_1_r. apply Hok. lia. }
      run. rewrite createMessage_ok by done.
      rewrite append_msg_live by done.
      run. rewrite IH; [| |done|done].
      2:{ intros i Hi. simpl. rewrite <- Nat.add_assoc. apply Hok. lia. }
      rewrite add_mallocs_add, deliver_other by done. simpl.
      do 2 f_equal; [f_equal; set_solver | f_equal; lia].
    + rewrite filter_cons_False in * by done.
      run. rewrite IH by done.
      rewrite deliver_sender by (by destruct (decide (fd c = sd)); [|exfalso; auto]).
      done.
Qed.

Lemma recipients_app sd l1 l2 :
  recipients sd (l1 ++ l2) = recipients sd l1 ++ recipients sd l2.
Proof. apply filter_app. Qed.

Lemma addMsg_loop_skip env sd buffer len c post j : ∀ pre wset os,
  fd c ≠ sd →
  Forall tail_live (pre ++ post) →
  (Z.to_nat len ≤ length buffer)%nat →
  (j = mallocs os + 2 * length (recipients sd pre)
   ∨ j = mallocs os + 2 * length (recipients sd pre) + 1)%nat →
  malloc_ok env j = false →
  (∀ i, (mallocs os ≤ i)%nat → i ≠ j → malloc_ok env i = true) →
  ∃ os',
    addMsg_loop env sd buffer len (pre ++ c :: post) wset os
    = Some (((deliver sd (copy_of buffer len) <$> pre)
               ++ c :: (deliver sd (copy_of buffer len) <$> post),
             list_to_set (fd <$> recipients sd (pre ++ post)) ∪ wset), os')
    ∧ trace os' = trace os.
Proof.
  intros pre. induction pre as [|x pre IH]; intros wset os Hc Htl Hlen Hj Hfail Hok.
  - simpl in *. rewrite decide_True by done. run.
    destruct (createMessage_fail env buffer len os) as (k & Hk & -> & Hkf).
    { destruct Hj as [->| ->].
      - left. by rewrite Nat.add_0_r in Hfail.
      - right. rewrite Nat.add_0_r, Nat.add_1_r in Hfail. split; [|done].
        apply Hok; lia. }
    assert (Hkj : (mallocs os + k - 1)%nat = j).
    { destruct (decide ((mallocs os + k - 1)%nat = j)) as [|Hne]; [done|].
      rewrite Hok in Hkf; [done|lia|done]. }
    rewrite addMsg_loop_all_ok; [| |done|done].
    2:{ intros i _. apply Hok; simpl; lia. }
    eexists. split; [reflexivity|done].
  - apply Forall_cons in Htl as [Hx Htl]. simpl.
    unfold recipients in Hj. destruct (decide (fd x ≠ sd)) as [Hne|Heq].
    + rewrite filter_cons_True in Hj by done. simpl in Hj.
      run. rewrite createMessage_ok; [| apply Hok; lia | apply Hok; lia | done].
      rewrite append_msg_live by done. run.
      destruct (IH ({[fd x]} ∪ wset) (add_mallocs 2 os)) as (os' & -> & Htr);
        [done|done|done| |done| |].
      { unfold recipients. simpl. lia. }
      { intros i Hi. apply Hok. simpl in Hi. lia. }
      eexists. split; [|exact Htr].
      rewrite deliver_other by done. unfold recipients.
      rewrite filter_cons_True by done. simpl.
      do 2 f_equal. f_equal. set_solver.
    + rewrite filter_cons_False in Hj by done.
      run. destruct (IH wset os) as (os' & -> & Htr); [done..|].
      eexists. split; [|exact Htr].
      rewrite deliver_sender by (by destruct (decide (fd x = sd)); [|exfalso; auto]).
      unfold recipients. by rewrite filter_cons_False by done.
Qed.

Lemma addMsg_all_ok env sd buffer len pool os :
  (∀ i, (i < 2 * length (recipients sd (conn_head pool)))%nat →
        malloc_ok env (mallocs os + i) = true) →
  Forall tail_live (conn_head pool) →
  (Z.to_nat len ≤ length buffer)%nat →
  addMsg env sd buffer len pool os
  = Some ((0, with_write_set
                (list_to_set (fd <$> recipients sd (conn_head pool)) ∪ write_set pool)
                (with_conn_head (deliver sd (copy_of buffer len) <$> conn_head pool) pool)),
          add_mallocs (2 * length (recipients sd (conn_head pool))) os).
Proof.
  intros Hok Htl Hlen. unfold addMsg. run. by rewrite addMsg_loop_all_ok.
Qed.

(** *** Draining a queue *)

Lemma add_writes_nil sd os : add_writes sd [] os = os.
Proof.
  unfold add_writes. destruct os; simpl. f_equal; [lia | apply app_nil_r].
Qed.

Lemma add_writes_cons sd m msgs os :
  add_writes sd msgs (add_writes sd [m] os) = add_writes sd (m :: msgs) os.
Proof.
  unfold add_writes. simpl. f_equal; [lia|]. by rewrite <- app_assoc.
Qed.

Lemma write_one env sd m os :
  write env sd (message m) (size m) os
  = Some (write_res env (writes os), add_writes sd [m] os).
Proof. unfold write, add_writes. simpl. do 3 f_equal. lia. Qed.

Lemma write_loop_all_written env sd msgs : ∀ os,
  (∀ i, (i < length msgs)%nat → 0 < write_res env (writes os + i)) →
  write_loop env sd (Live <$> msgs) os
  = Some ((replicate (length msgs) Freed, -1), add_writes sd msgs os).
Proof.
  induction msgs as [|m msgs IH]; intros os Hok; simpl.
  - run. by rewrite add_writes_nil.
  - run. rewrite write_one.
    assert (H0 : 0 < write_res env (writes os)).
    { rewrite <- (Nat.add_0_r (writes os)). apply Hok. simpl. lia. }
    destruct (write_res env (writes os) <=? 0) eqn:Hle; [lia|].
    rewrite IH.
    2:{ intros i Hi. simpl. rewrite <- Nat.add_assoc. apply Hok. simpl. lia. }
    by rewrite add_writes_cons.
Qed.

Lemma write_loop_fails_at env sd msgs : ∀ k os,
  (k < length msgs)%nat →
  (∀ i, (i < k)%nat → 0 < write_res env (writes os + i)) →
  write_res env (writes os + k) ≤ 0 →
  write_loop env sd (Live <$> msgs) os
  = Some ((replicate k Freed ++ (Live <$> drop k msgs), 1),
          add_writes sd (take (S k) msgs) os).
Proof.
  induction msgs as [|m msgs IH]; intros k os Hk Hok Hfail; simpl in Hk; [lia|].
  simpl (write_loop _ _ _). run. rewrite write_one.
  destruct k as [|k].
  - rewrite Nat.add_0_r in Hfail.
    destruct (write_res env (writes os) <=? 0) eqn:Hle; [|lia].
    reflexivity.
  - assert (H0 : 0 < write_res env (writes os)).
    { rewrite <- (Nat.add_0_r (writes os)). apply Hok. lia. }
    destruct (write_res env (writes os) <=? 0) eqn:Hle; [lia|].
    rewrite (IH k); [|lia| |].
    + by rewrite add_writes_cons.
    + intros i Hi. simpl. rewrite <- Nat.add_assoc. apply Hok. lia.
    + simpl. rewrite <- Nat.add_assoc. exact Hfail.
Qed.

Lemma all_live_msgs chain : all_live chain → ∃ msgs, chain = Live <$> msgs.
Proof.
  induction 1 as [|n chain Hn _ [msgs ->]]; [by exists []|].
  destruct n as [m|]; [|done]. by exists (m :: msgs).
Qed.

Lemma all_live_fmap msgs : all_live (Live <$> msgs).
Proof. unfold all_live. apply Forall_fmap, Forall_true. done. Qed.

Lemma free_chain_live chain : all_live chain → free_chain chain = Some ().
Proof. induction 1 as [|[m|] chain Hn _ IH]; simpl; done. Qed.

(** Some write fails first at position [k], or none does. *)
Lemma first_failure env n (len : nat) :
  (∀ i, (i < len)%nat → 0 < write_res env (n + i))
  ∨ ∃ k, (k < len)%nat ∧ (∀ i, (i < k)%nat → 0 < write_res env (n + i))
         ∧ write_res env (n + k) ≤ 0.
Proof.
  induction len as [|len [IH|(k & Hk & Hok & Hfail)]].
  - left. intros i Hi. lia.
  - destruct (decide (0 < write_res env (n + len))) as [Hpos|Hneg].
    + left. intros i Hi. destruct (decide (i = len)) as [->|]; [done|]. apply IH. lia.
    + right. exists len. split; [lia|]. split; [done|lia].
  - right. exists k. split; [lia|done].
Qed.

Lemma write_loop_total env sd chain os :
  all_live chain →
  ∃ chain' is_error os', write_loop env sd chain os = Some ((chain', is_error), os')
    ∧ mallocs os' = mallocs os ∧ reads os' = reads os ∧ accepts os' = accepts os.
Proof.
  intros [msgs ->]%all_live_msgs.
  destruct (first_failure env (writes os) (length msgs)) as [Hok|(k & Hk & Hok & Hfail)].
  - rewrite write_loop_all_written by done. eauto 10.
  - rewrite (write_loop_fails_at _ _ _ k) by done. eauto 10.
Qed.

Lemma writeToClient_absent env sd pool os :
  sd ∉ fds pool → writeToClient env sd pool os = Some ((-1, pool), os).
Proof. intros Hnot. unfold writeToClient. by rewrite (find_conn_None _ _ Hnot). Qed.

Lemma writeToClient_drains env sd pool os before conn after msgs :
  find_conn sd (conn_head pool) = Some (before, conn, after) →
  write_msg_head conn = Live <$> msgs →
  (∀ i, (i < length msgs)%nat → 0 < write_res env (writes os + i)) →
  writeToClient env sd pool os
  = Some ((0, with_write_set (write_set pool ∖ {[sd]})
                (with_conn_head
                   (before ++ {| fd := fd conn; write_msg_head := [] |} :: after) pool)),
          add_writes sd msgs os).
Proof.
  intros Hfind Hq Hok. unfold writeToClient. rewrite Hfind, Hq. run.
  rewrite write_loop_all_written by done. by rewrite decide_True by lia.
Qed.

Lemma writeToClient_fails env sd pool os before conn after msgs k :
  find_conn sd (conn_head pool) = Some (before, conn, after) →
  write_msg_head conn = Live <$> msgs →
  (k < length msgs)%nat →
  (∀ i, (i < k)%nat → 0 < write_res env (writes os + i)) →
  write_res env (writes os + k) ≤ 0 →
  writeToClient env sd pool os
  = Some ((0, with_write_set (write_set pool ∖ {[sd]})
                (with_conn_head
                   (before ++ {| fd := fd conn;
                                 write_msg_head :=
                                   replicate k Freed ++ (Live <$> drop k msgs) |}
                           :: after) pool)),
          add_writes sd (take (S k) msgs) os).
Proof.
  intros Hfind Hq Hk Hok Hfail. unfold writeToClient. rewrite Hfind, Hq. run.
  rewrite (write_loop_fails_at _ _ _ k) by done. by rewrite decide_False by lia.
Qed.

(** Whatever the writes return, a drain leaves the list of descriptors and
    the read set alone. *)
Lemma writeToClient_keeps_conns env sd pool os :
  (∀ conn, conn ∈ conn_head pool → fd conn = sd → all_live (write_msg_head conn)) →
  ∃ r pool' os',
    writeToClient env sd pool os = Some ((r, pool'), os')
    ∧ fds pool' = fds pool
    ∧ read_set pool' = read_set pool
    ∧ maxfd pool' = maxfd pool.
Proof.
  intros Hlive. unfold writeToClient.
  destruct (find_conn sd (conn_head pool)) as [[[before conn] after]|] eqn:Hfind.
  2:{ run. eauto 10. }
  apply find_conn_Some in Hfind as (Hconns & Hfd & _).
  destruct (write_loop_total env sd (write_msg_head conn) os)
    as (chain & is_error & os' & Hloop & _).
  { apply Hlive; [|done]. rewrite Hconns. set_solver. }
  run. rewrite Hloop. eexists _, _, _. split; [reflexivity|].
  unfold fds. simpl. rewrite Hconns, !fmap_app. simpl.
  by destruct (decide (is_error ≠ 1)).
Qed.

(** *** Removal and the upper bound *)

Lemma removeConn_present sd pool os before temp after :
  find_conn sd (conn_head pool) = Some (before, temp, after) →
  all_live (write_msg_head temp) →
  removeConn sd pool os
  = Some ((0, with_nr_conns (uint (nr_conns pool - 1))
                (with_write_set (write_set pool ∖ {[sd]})
                   (with_read_set (read_set pool ∖ {[sd]})
                      (with_conn_head (before ++ after) pool)))),
          {| mallocs := mallocs os; reads := reads os; writes := writes os;
             accepts := accepts os; trace := trace os ++ [EvClose sd] |}).
Proof.
  intros Hfind Hlive. unfold removeConn, freeMessagesInQueue, close.
  rewrite Hfind, free_chain_live by done. run. done.
Qed.

Lemma updateMaxFd_fold (conns : list conn_t) : ∀ w,
  fold_left (λ max_fd conn, if fd conn >? max_fd then fd conn else max_fd) conns w
  = foldr Z.max w (fd <$> conns).
Proof.
  assert (Hmax : ∀ (l : list Z) w x,
             foldr Z.max (Z.max w x) l = Z.max x (foldr Z.max w l)).
  { induction l as [|y l IH]; intros w x; simpl; [lia|]. rewrite IH. lia. }
  induction conns as [|c conns IH]; intros w; simpl; [done|].
  rewrite IH, <- Hmax. f_equal. destruct (fd c >? w) eqn:H; lia.
Qed.

Lemma updateMaxFd_upper_bound pool welcome_socket :
  maxfd (updateMaxFd pool welcome_socket)
  = upper_bound welcome_socket (updateMaxFd pool welcome_socket).
Proof. unfold updateMaxFd, upper_bound, fds. simpl. apply updateMaxFd_fold. Qed.

Lemma cleanup_loop_spec (conns : list conn_t) : ∀ pool os,
  conn_head pool = conns →
  Forall (λ conn, all_live (write_msg_head conn)) conns →
  ∃ pool' os',
    cleanup_loop conns pool os = Some (pool', os')
    ∧ conn_head pool' = []
    ∧ maxfd pool' = maxfd pool
    ∧ trace os' = trace os ++ (EvClose <$> (fd <$> conns)).
Proof.
  induction conns as [|c conns IH]; intros pool os Hhead Hlive; simpl.
  - run. eexists _, _. split; [done|]. by rewrite app_nil_r.
  - apply Forall_cons in Hlive as [Hc Hlive]. run.
    rewrite (removeConn_present _ _ _ [] c conns);
      [|by rewrite Hhead; simpl; rewrite decide_True|done].
    edestruct IH as (pool' & os' & -> & Hnil & Hmax & Htr); [|done|].
    { done. }
    eexists _, _. split; [done|]. split; [done|]. split; [done|].
    rewrite Htr. simpl. by rewrite <- app_assoc.
Qed.

Lemma read_closed env sd count os :
  read_res env (reads os) = ReadBytes [] →
  read env sd count os
  = Some (ReadBytes [],
          {| mallocs := mallocs os; reads := S (reads os); writes := writes os;
             accepts := accepts os; trace := trace os |}).
Proof. intros H. unfold read. rewrite H. by rewrite take_nil. Qed.

Lemma processData_peer_closed env sd pool welcome_socket os :
  read_res env (reads os) = ReadBytes [] →
  (∀ conn, conn ∈ conn_head pool → fd conn = sd → all_live (write_msg_head conn)) →
  ∃ r pool' os',
    removeConn sd pool
      {| mallocs := mallocs os; reads := S (reads os); writes := writes os;
         accepts := accepts os; trace := trace os |} = Some ((r, pool'), os')
    ∧ processDataFromConnection env sd pool welcome_socket os
      = Some (updateMaxFd pool' welcome_socket, os').
Proof.
  intros Hread Hlive. unfold processDataFromConnection. run.
  rewrite read_closed by done. simpl.
  destruct (find_conn sd (conn_head pool)) as [[[before temp] after]|] eqn:Hfind.
  - pose proof (find_conn_Some _ _ _ _ _ Hfind) as (Hconns & Hfd & _).
    rewrite (removeConn_present _ _ _ _ _ _ Hfind).
    2:{ apply Hlive; [|done]. rewrite Hconns. set_solver. }
    eauto.
  - unfold removeConn. rewrite Hfind. run. eauto.
Qed.

(** *** The command line *)

Lemma isdigit_not_space c : Libc.isdigit c = true → Libc.isspace c = false.
Proof. destruct c as [[] [] [] [] [] [] [] []]; vm_compute; congruence. Qed.

Lemma isdigit_not_sign c :
  Libc.isdigit c = true → Ascii.eqb c "-" = false ∧ Ascii.eqb c "+" = false.
Proof. destruct c as [[] [] [] [] [] [] [] []]; vm_compute; split; congruence. Qed.

Lemma isdigit_code c : Libc.isdigit c = true → 0 ≤ Libc.code c - 48 ≤ 9.
Proof. unfold Libc.isdigit. lia. Qed.

Lemma digits_numeral s : ∀ acc,
  all_digits s = true → Libc.digits acc s = numeral_value acc s.
Proof.
  induction s as [|c s IH]; intros acc H; simpl in *; [done|].
  apply andb_true_iff in H as [Hc Hs]. rewrite Hc. by apply IH.
Qed.

Lemma numeral_value_ge s : ∀ acc,
  all_digits s = true → 0 ≤ acc → acc ≤ numeral_value acc s.
Proof.
  induction s as [|c s IH]; intros acc H Hacc; simpl in *; [lia|].
  apply andb_true_iff in H as [Hc Hs]. apply isdigit_code in Hc.
  etrans; [|apply IH; [done|lia]]. lia.
Qed.

Lemma strtoul_numeral s :
  is_numeral s = true →
  Libc.strtoul s
  = if numeral_value 0 s >? Libc.ULONG_MAX then Libc.ULONG_MAX else numeral_value 0 s.
Proof.
  intros H. destruct s as [|c s]; [done|]. simpl in H.
  pose proof H as Hall. apply andb_true_iff in H as [Hc Hs].
  unfold Libc.strtoul. simpl Libc.skip_space. rewrite isdigit_not_space by done.
  destruct (isdigit_not_sign c Hc) as [-> ->].
  by rewrite digits_numeral.
Qed.

Lemma to_long_strtoul_numeral s :
  is_numeral s = true →
  (1 ≤ Libc.to_long (Libc.strtoul s) ≤ 65535 ↔ 1 ≤ numeral_value 0 s ≤ 65535)
  ∧ (1 ≤ numeral_value 0 s ≤ 65535 → Libc.to_long (Libc.strtoul s) = numeral_value 0 s).
Proof.
  intros H. rewrite strtoul_numeral by done.
  assert (0 ≤ numeral_value 0 s).
  { destruct s; [done|]. apply numeral_value_ge; [done|lia]. }
  unfold Libc.to_long, Libc.ULONG_MAX.
  destruct (numeral_value 0 s >? 2 ^ 64 - 1) eqn:Hbig.
  - simpl. lia.
  - destruct (numeral_value 0 s <? 2 ^ 63) eqn:Hsmall; lia.
Qed.

Lemma startup_cases argv :
  (∃ prog arg, argv = [prog; arg]
     ∧ 1 ≤ Libc.to_long (Libc.strtoul arg) ≤ 65535
     ∧ startup argv = Proceed (Libc.to_long (Libc.strtoul arg)))
  ∨ ((¬ ∃ prog arg, argv = [prog; arg] ∧ 1 ≤ Libc.to_long (Libc.strtoul arg) ≤ 65535)
     ∧ startup argv = Exit usage EXIT_FAILURE).
Proof.
  unfold startup.
  destruct argv as [|prog [|arg [|more argv]]]; simpl length;
    try (right; split; [by intros (? & ? & ? & _)|]; rewrite decide_True by lia; done).
  - rewrite decide_False by lia. simpl.
    destruct ((Libc.to_long (Libc.strtoul arg) <? 1)
              || (Libc.to_long (Libc.strtoul arg) >? 65535)) eqn:Hrange.
    + right. split; [|done]. intros (? & ? & [= <- <-] & ?). lia.
    + left. exists prog, arg. split; [done|]. split; [lia|].
      f_equal. apply Z.mod_small. lia.
Qed.

(** *** The write-interest invariant *)

Lemma write_interest_inv_Forall pool :
  write_interest_inv pool ↔ Forall (interest_ok (write_set pool)) (conn_head pool).
Proof. unfold write_interest_inv. by rewrite Forall_forall. Qed.

Lemma addConn_write_interest env sd pool os r pool' os' :
  write_interest_inv pool →
  sd ∉ write_set pool →
  addConn env sd pool os = Some ((r, pool'), os') →
  write_interest_inv pool'.
Proof.
  rewrite !write_interest_inv_Forall. intros Hinv Hfresh.
  unfold addConn, malloc, close. run.
  destruct (malloc_ok env (mallocs os)); simpl; intros [= <- <- <-]; [|done].
  simpl. apply Forall_cons. split; [|done]. unfold interest_ok. simpl. done.
Qed.

Lemma removeConn_write_interest sd pool os r pool' os' :
  write_interest_inv pool →
  NoDup (fds pool) →
  removeConn sd pool os = Some ((r, pool'), os') →
  write_interest_inv pool'.
Proof.
  rewrite !write_interest_inv_Forall. intros Hinv Hnd. unfold removeConn.
  destruct (find_conn sd (conn_head pool)) as [[[before temp] after]|] eqn:Hfind.
  2:{ run. by intros [= <- <- <-]. }
  pose proof (find_conn_NoDup _ _ _ _ _ Hnd Hfind) as Hgone.
  apply find_conn_Some in Hfind as (Hconns & Hfd & _).
  unfold close. run. destruct (freeMessagesInQueue temp); [|done].
  run. intros [= <- <- <-]. simpl.
  rewrite Hconns in Hinv. apply Forall_forall. intros conn Hc.
  assert (Hne : fd conn ≠ sd).
  { intros Heq. apply Hgone. rewrite <- Heq. by apply list_elem_of_fmap_2. }
  assert (Hok : interest_ok (write_set pool) conn).
  { rewrite Forall_forall in Hinv. apply Hinv. set_solver. }
  unfold interest_ok in *. rewrite <- Hok. set_solver.
Qed.

Lemma append_msg_nonempty m conn conn' :
  append_msg m conn = Some conn' →
  fd conn' = fd conn ∧ write_msg_head conn' ≠ [].
Proof.
  unfold append_msg. destruct (write_msg_tail conn) as [[]|]; intros [= <-]; simpl;
    (split; [done|]); [|done]. by intros []%app_eq_nil.
Qed.

Lemma addMsg_loop_write_interest env sd buffer len conns :
  ∀ before wset os conns' wset' os',
  NoDup (fd <$> (before ++ conns)) →
  Forall (interest_ok wset) (before ++ conns) →
  addMsg_loop env sd buffer len conns wset os = Some ((conns', wset'), os') →
  Forall (interest_ok wset') (before ++ conns').
Proof.
  induction conns as [|c conns IH];
    intros before wset os conns' wset' os' Hnd Hinv; simpl.
  { run. by intros [= <- <- <-]. }
  assert (Hskip : ∀ os1,
    (addMsg_loop env sd buffer len conns wset
       ≫= λ '(next', wset'0), mret (c :: next', wset'0)) os1
    = Some ((conns', wset'), os') → Forall (interest_ok wset') (before ++ conns')).
  { intros os1. run.
    destruct (addMsg_loop env sd buffer len conns wset os1)
      as [[[next' w] os2]|] eqn:Hloop; [|done].
    intros [= <- <- <-]. rewrite (cons_middle c), app_assoc.
    eapply (IH (before ++ [c])); [| |exact Hloop];
      by rewrite <- app_assoc. }
  destruct (decide (fd c ≠ sd)) as [Hne|Heq]; [|apply Hskip].
  run. destruct (createMessage env buffer len os) as [[[m|] os1]|]; [| |done].
  2:{ apply Hskip. }
  destruct (append_msg m c) as [c'|] eqn:Happ; [|done]. run.
  apply append_msg_nonempty in Happ as [Hfd Hq].
  destruct (addMsg_loop env sd buffer len conns ({[fd c]} ∪ wset) os1)
    as [[[next' w] os2]|] eqn:Hloop; [|done].
  intros [= <- <- <-]. rewrite (cons_middle c'), app_assoc.
  eapply (IH (before ++ [c'])); [| |exact Hloop].
  - rewrite <- app_assoc. simpl. rewrite !fmap_app in *. simpl in *. by rewrite Hfd.
  - rewrite <- app_assoc. simpl.
    rewrite fmap_app in Hnd. simpl in Hnd.
    apply NoDup_app in Hnd as (_ & Hdisj & Hnd). apply NoDup_cons in Hnd as [Hafter _].
    apply Forall_app in Hinv as [Hb Hinv]. apply Forall_cons in Hinv as [_ Hrest].
    apply Forall_app. split; [|apply Forall_cons; split].
    + apply Forall_forall. intros x Hx.
      pose proof (proj1 (Forall_forall _ _) Hb x Hx) as Hok.
      assert (fd x ≠ fd c).
      { intros Heq. apply (Hdisj (fd x)); [by apply list_elem_of_fmap_2|].
        rewrite Heq. set_solver. }
      unfold interest_ok in *. rewrite <- Hok. set_solver.
    + unfold interest_ok. rewrite Hfd. split; [done|set_solver].
    + apply Forall_forall. intros x Hx.
      pose proof (proj1 (Forall_forall _ _) Hrest x Hx) as Hok.
      assert (fd x ≠ fd c).
      { intros Heq. apply Hafter. rewrite <- Heq. by apply list_elem_of_fmap_2. }
      unfold interest_ok in *. rewrite <- Hok. set_solver.
Qed.

Lemma addMsg_write_interest env sd buffer len pool os r pool' os' :
  write_interest_inv pool →
  NoDup (fds pool) →
  addMsg env sd buffer len pool os = Some ((r, pool'), os') →
  write_interest_inv pool'.
Proof.
  rewrite !write_interest_inv_Forall. intros Hinv Hnd. unfold addMsg. run.
  destruct (addMsg_loop env sd buffer len (conn_head pool) (write_set pool) os)
    as [[[conns' w] os1]|] eqn:Hloop; [|done].
  intros [= <- <- <-]. simpl.
  by apply (addMsg_loop_write_interest _ _ _ _ _ [] _ _ _ _ _ Hnd Hinv Hloop).
Qed.

Lemma writeToClient_drained_write_interest env sd pool os before conn after msgs :
  write_interest_inv pool →
  NoDup (fds pool) →
  find_conn sd (conn_head pool) = Some (before, conn, after) →
  write_msg_head conn = Live <$> msgs →
  (∀ i, (i < length msgs)%nat → 0 < write_res env (writes os + i)) →
  ∃ pool' os',
    writeToClient env sd pool os = Some ((0, pool'), os')
    ∧ write_interest_inv pool'.
Proof.
  intros Hinv Hnd Hfind Hq Hok.
  rewrite (writeToClient_drains _ _ _ _ _ _ _ _ Hfind Hq Hok).
  eexists _, _. split; [done|].
  pose proof (find_conn_NoDup _ _ _ _ _ Hnd Hfind) as Hgone.
  apply find_conn_Some in Hfind as (Hconns & Hfd & _).
  unfold write_interest_inv in Hinv. rewrite Hconns in Hinv.
  intros c Hc. simpl in *.
  apply elem_of_app in Hc as [Hc|[->|Hc]%elem_of_cons].
  - assert (fd c ≠ sd).
    { intros Heq. apply Hgone. rewrite <- Heq. apply list_elem_of_fmap_2. set_solver. }
    rewrite <- (Hinv c) by set_solver. set_solver.
  - simpl. set_solver.
  - assert (fd c ≠ sd).
    { intros Heq. apply Hgone. rewrite <- Heq. apply list_elem_of_fmap_2. set_solver. }
    rewrite <- (Hinv c) by set_solver. set_solver.
Qed.

(** *** The tail pointer stays valid *)

Lemma append_msg_tail_live m conn conn' :
  append_msg m conn = Some conn' → tail_live conn'.
Proof.
  unfold append_msg, tail_live, write_msg_tail.
  destruct (last (write_msg_head conn)) as [[]|]; intros [= <-]; simpl; [|done].
  by rewrite last_snoc.
Qed.

(** After a failed drain the chain is: freed nodes for the messages that
    were written, then the message whose write failed and those behind it. *)
Lemma write_loop_error_shape env sd chain : ∀ os chain' os',
  write_loop env sd chain os = Some ((chain', 1), os') →
  ∃ sent m rest,
    chain = (Live <$> sent) ++ Live m :: rest
    ∧ chain' = replicate (length sent) Freed ++ Live m :: rest.
Proof.
  induction chain as [|[m|] chain IH]; intros os chain' os'; simpl; [by run| |done].
  run. unfold write. simpl.
  destruct (write_res env (writes os) <=? 0).
  - intros [= <-  <-]. by exists [], m, chain.
  - match goal with |- context [write_loop env sd chain ?s] =>
      destruct (write_loop env sd chain s) as [[[c e] o]|] eqn:Hloop; [|done] end.
    intros [= <- -> <-].
    destruct (IH _ _ _ Hloop) as (sent & m' & rest & -> & ->).
    by exists (m :: sent), m', rest.
Qed.

Lemma addConn_tail_live env sd pool os r pool' os' :
  Forall tail_live (conn_head pool) →
  addConn env sd pool os = Some ((r, pool'), os') →
  Forall tail_live (conn_head pool').
Proof.
  intros Htl. unfold addConn, malloc, close. run.
  destruct (malloc_ok env (mallocs os)); simpl; intros [= <- <- <-]; [|done].
  simpl. by apply Forall_cons.
Qed.

Lemma removeConn_tail_live sd pool os r pool' os' :
  Forall tail_live (conn_head pool) →
  removeConn sd pool os = Some ((r, pool'), os') →
  Forall tail_live (conn_head pool').
Proof.
  intros Htl. unfold removeConn.
  destruct (find_conn sd (conn_head pool)) as [[[before temp] after]|] eqn:Hfind.
  2:{ run. by intros [= <- <- <-]. }
  apply find_conn_Some in Hfind as (Hconns & _ & _). rewrite Hconns in Htl.
  unfold close. run. destruct (freeMessagesInQueue temp); [|done].
  run. intros [= <- <- <-]. simpl.
  apply Forall_app in Htl as [? [_ ?]%Forall_cons]. by apply Forall_app.
Qed.

Lemma addMsg_loop_tail_live env sd buffer len conns : ∀ wset os conns' wset' os',
  Forall tail_live conns →
  addMsg_loop env sd buffer len conns wset os = Some ((conns', wset'), os') →
  Forall tail_live conns'.
Proof.
  induction conns as [|c conns IH]; intros wset os conns' wset' os' Htl; simpl.
  { run. by intros [= <- <- <-]. }
  apply Forall_cons in Htl as [Hc Htl].
  assert (Hskip : ∀ os1,
    (addMsg_loop env sd buffer len conns wset
       ≫= λ '(next', wset'0), mret (c :: next', wset'0)) os1
    = Some ((conns', wset'), os') → Forall tail_live conns').
  { intros os1. run.
    destruct (addMsg_loop env sd buffer len conns wset os1)
      as [[[next' w] os2]|] eqn:Hloop; [|done].
    intros [= <- <- <-]. apply Forall_cons. split; [done|]. by eapply IH. }
  destruct (decide (fd c ≠ sd)); [|apply Hskip].
  run. destruct (createMessage env buffer len os) as [[[m|] os1]|]; [| |done].
  2:{ apply Hskip. }
  destruct (append_msg m c) as [c'|] eqn:Happ; [|done]. run.
  destruct (addMsg_loop env sd buffer len conns ({[fd c]} ∪ wset) os1)
    as [[[next' w] os2]|] eqn:Hloop; [|done].
  intros [= <- <- <-]. apply Forall_cons. split.
  - by eapply append_msg_tail_live.
  - by eapply IH.
Qed.

Lemma addMsg_tail_live env sd buffer len pool os r pool' os' :
  Forall tail_live (conn_head pool) →
  addMsg env sd buffer len pool os = Some ((r, pool'), os') →
  Forall tail_live (conn_head pool').
Proof.
  intros Htl. unfold addMsg. run.
  destruct (addMsg_loop env sd buffer len (conn_head pool) (write_set pool) os)
    as [[[conns' w] os1]|] eqn:Hloop; [|done].
  intros [= <- <- <-]. simpl. by eapply addMsg_loop_tail_live.
Qed.

Lemma writeToClient_tail_live env sd pool os r pool' os' :
  Forall tail_live (conn_head pool) →
  writeToClient env sd pool os = Some ((r, pool'), os') →
  Forall tail_live (conn_head pool').
Proof.
  intros Htl. unfold writeToClient.
  destruct (find_conn sd (conn_head pool)) as [[[before conn] after]|] eqn:Hfind.
  2:{ run. by intros [= <- <- <-]. }
  apply find_conn_Some in Hfind as (Hconns & _ & _). rewrite Hconns in Htl.
  apply Forall_app in Htl as [Hb [Hc Ha]%Forall_cons].
  run. destruct (write_loop env sd (write_msg_head conn) os)
    as [[[chain is_error] os1]|] eqn:Hloop; [|done].
  intros [= <- <- <-]. simpl. apply Forall_app. split; [done|].
  apply Forall_cons. split; [|done].
  destruct (decide (is_error ≠ 1)) as [|Herr]; [done|].
  assert (is_error = 1) as -> by lia.
  apply write_loop_error_shape in Hloop as (sent & m & rest & Hq & ->).
  unfold tail_live, write_msg_tail in *. simpl.
  rewrite Hq in Hc. by rewrite last_app_cons in *.
Qed.

Lemma acceptNewConnection_tail_live env welcome_socket pool os r pool' os' :
  Forall tail_live (conn_head pool) →
  acceptNewConnection env welcome_socket pool os = Some ((r, pool'), os') →
  Forall tail_live (conn_head pool').
Proof.
  intros Htl. unfold acceptNewConnection. run.
  destruct (accept env welcome_socket os) as [[new_socket os1]|]; [|done].
  destruct (new_socket <? 0); [by intros [= <- <- <-]|].
  destruct (addConn env new_socket pool os1) as [[[r1 pool1] os2]|] eqn:Hadd; [|done].
  apply addConn_tail_live in Hadd; [|done].
  destruct (r1 <? 0).
  - unfold close. run. by intros [= <- <- <-].
  - by intros [= <- <- <-].
Qed.

Lemma processDataFromConnection_tail_live env sd pool welcome_socket os pool' os' :
  Forall tail_live (conn_head pool) →
  processDataFromConnection env sd pool welcome_socket os = Some (pool', os') →
  Forall tail_live (conn_head pool').
Proof.
  intros Htl. unfold processDataFromConnection. run.
  destruct (read env sd (BUFFER_SIZE - 1) os) as [[[|data] os1]|]; [| |done].
  { by intros [= <- <-]. }
  destruct (Z.of_nat (length data) >? 0).
  - destruct (capitalizeMessage _ _) as [buffer|]; [|done]. run.
    destruct (addMsg env sd buffer _ pool os1) as [[[r pool1] os2]|] eqn:Hadd; [|done].
    intros [= <- <-]. by eapply addMsg_tail_live.
  - destruct (removeConn sd pool os1) as [[[r pool1] os2]|] eqn:Hrm; [|done].
    intros [= <- <-]. simpl. by eapply removeConn_tail_live.
Qed.

Lemma service_write_tail_live env sd pool os pool' os' :
  Forall tail_live (conn_head pool) →
  service_write env sd pool os = Some (pool', os') →
  Forall tail_live (conn_head pool').
Proof.
  intros Htl. unfold service_write.
  destruct (decide (sd ∈ ready_write_set pool)); [|by intros [= <- <-]].
  run. destruct (writeToClient env sd pool os) as [[[r pool1] os1]|] eqn:Hw; [|done].
  intros [= <- <-]. simpl. by eapply writeToClient_tail_live.
Qed.

(** Whatever the operating system answers, one turn of the dispatcher's loop
    keeps every [write_msg_tail] valid. *)
Lemma service_tail_live env sd welcome_socket pool os pool' os' :
  Forall tail_live (conn_head pool) →
  service env sd welcome_socket pool os = Some (pool', os') →
  Forall tail_live (conn_head pool').
Proof.
  intros Htl. unfold service.
  destruct (decide (sd ∈ ready_read_set pool)); [|by apply service_write_tail_live].
  destruct (decide (sd = welcome_socket)).
  - run. destruct (acceptNewConnection env welcome_socket pool os)
      as [[[r pool1] os1]|] eqn:Hacc; [|done].
    apply acceptNewConnection_tail_live in Hacc; [|done].
    destruct (decide (r ≠ 0)); [by intros [= <- <-]|].
    by apply service_write_tail_live.
  - run. destruct (processDataFromConnection env sd pool welcome_socket os)
      as [[pool1 os1]|] eqn:Hproc; [|done].
    apply processDataFromConnection_tail_live in Hproc; [|done].
    by apply service_write_tail_live.
Qed.

(** ** The claims *)

(** C1 (broadcast fan-out).  [read] on [sd] returned the bytes [m], at least
    one, and the two allocations of every [createMessage] succeed.  Then
    [processDataFromConnection] leaves the connections in their order, each
    connection other than the sender with exactly one more message at the end
    of its queue, holding [transform m] and of size [length m], and the
    sender with its queue as it was ([deliver]); the descriptors of the
    recipients, and no others, are added to the write set. *)
Theorem broadcast_fan_out env sd pool welcome_socket os os1 (m : list byte) :
  read env sd (BUFFER_SIZE - 1) os = Some (ReadBytes m, os1) →
  m ≠ [] →
  (∀ i, (i < 2 * length (recipients sd (conn_head pool)))%nat →
        malloc_ok env (mallocs os + i) = true) →
  Forall tail_live (conn_head pool) →
  ∃ pool' os',
    processDataFromConnection env sd pool welcome_socket os = Some (pool', os')
    ∧ conn_head pool'
      = deliver sd {| message := transform m; size := Z.of_nat (length m) |}
          <$> conn_head pool
    ∧ write_set pool'
      = list_to_set (fd <$> recipients sd (conn_head pool)) ∪ write_set pool.
Proof.
  intros Hread Hm Hok Htl. unfold processDataFromConnection. run.
  rewrite Hread.
  assert (Hlen : (0 < length m ≤ 4095)%nat).
  { unfold read in Hread. injection Hread as Hr _.
    destruct (read_res env (reads os)) as [|data]; [done|].
    injection Hr as <-. split; [|rewrite length_take; unfold BUFFER_SIZE; lia].
    destruct (take _ data); [done|simpl; lia]. }
  assert (Hos1 : mallocs os1 = mallocs os).
  { unfold read in Hread. by injection Hread as _ <-. }
  destruct (Z.of_nat (length m) >? 0) eqn:Hpos; [|lia].
  rewrite capitalizeMessage_eq.
  2:{ rewrite length_app, length_drop, length_replicate. unfold BUFFER_SIZE. lia. }
  rewrite Nat2Z.id, take_app_length, drop_app_length.
  run. rewrite addMsg_all_ok; [| |done|].
  2:{ intros i Hi. rewrite Hos1. by apply Hok. }
  2:{ rewrite Nat2Z.id, length_app. unfold transform. rewrite length_fmap. lia. }
  eexists _, _. split; [reflexivity|]. simpl. split; [|done].
  unfold copy_of. rewrite Nat2Z.id.
  replace (length m) with (length (transform m)) at 1
    by (unfold transform; apply length_fmap).
  by rewrite take_app_length.
Qed.

(** Client 5 sends "hello" while client 4 is connected: 4 is queued "HELLO". *)
Lemma broadcast_fan_out_witness :
  ∃ pool' os',
    processDataFromConnection Scenario.env 5 Scenario.pool_connected 3
      (Scenario.os_after 2 0 0 2 []) = Some (pool', os')
    ∧ conn_head pool' = conn_head Scenario.pool_one_sent
    ∧ write_set pool' = {[4]}.
Proof.
  destruct (broadcast_fan_out Scenario.env 5 Scenario.pool_connected 3
              (Scenario.os_after 2 0 0 2 []) (Scenario.os_after 2 1 0 2 [])
              Scenario.hello)
    as (pool' & os' & Hrun & Hconns & Hws).
  - reflexivity.
  - discriminate.
  - intros i _. reflexivity.
  - repeat constructor; discriminate.
  - exists pool', os'. split; [exact Hrun|]. split.
    + rewrite Hconns. reflexivity.
    + rewrite Hws. vm_compute. reflexivity.
Defined.

(** C2 (write interest if and only if queue non-empty).  The invariant does
    not survive a drain whose write fails.  Two clients have connected and
    client 5 has sent "hello", so that "HELLO" is queued for client 4 and the
    invariant holds.  The write to 4 returns -1: [writeToClient] leaves the
    queue of 4 as it is, clears 4 from the write set all the same, and the
    invariant is gone. *)
Theorem drain_failure_breaks_write_interest :
  ∃ pool os,
    Scenario.one_sent Scenario.env_no_write os_init = Some (pool, os)
    ∧ write_interest_inv pool
    ∧ ∃ pool' os',
        writeToClient Scenario.env_no_write 4 pool os = Some ((0, pool'), os')
        ∧ conn_head pool' = conn_head pool
        ∧ write_set pool' = ∅
        ∧ ¬ write_interest_inv pool'.
Proof.
  exists Scenario.pool_one_sent, (Scenario.os_after 4 1 0 2 []).
  split; [vm_compute; reflexivity|]. split.
  { intros conn Hconn. simpl in Hconn.
    apply elem_of_cons in Hconn as [->|Hconn]; [simpl; set_solver|].
    apply elem_of_cons in Hconn as [->|Hconn]; [simpl; set_solver|].
    by apply elem_of_nil in Hconn. }
  eexists _, _. split; [vm_compute; reflexivity|]. split; [reflexivity|].
  split; [reflexivity|]. intros Hinv.
  specialize (Hinv {| fd := 4; write_msg_head := [Live Scenario.HELLO] |}).
  simpl in Hinv. destruct Hinv as [_ Hinv]; [set_solver|].
  apply (not_elem_of_empty (C:=gset Z) 4). apply Hinv. discriminate.
Qed.

(** C3 (draining).  A drain that fails after a first message was written
    does not leave the remaining queue in the connection.  "HELLO" and
    "WORLD" are queued for client 4; the first write goes through, the second
    returns -1.  The two writes are issued in queue order and nothing is
    written after the failure; but [write_msg_head] still leads to the node of
    "HELLO", which was freed, and only behind it to "WORLD".  Removing the
    connection afterwards walks the chain from that freed node. *)
Theorem drain_failure_leaves_freed_head :
  ∃ pool os,
    Scenario.two_sent Scenario.env os_init = Some (pool, os)
    ∧ conn_head pool
      = [ {| fd := 5; write_msg_head := [] |};
          {| fd := 4; write_msg_head := [Live Scenario.HELLO; Live Scenario.WORLD] |} ]
    ∧ ∃ pool' os',
        writeToClient Scenario.env 4 pool os = Some ((0, pool'), os')
        ∧ trace os' = [write_event 4 Scenario.HELLO; write_event 4 Scenario.WORLD]
        ∧ conn_head pool'
          = [ {| fd := 5; write_msg_head := [] |};
              {| fd := 4; write_msg_head := [Freed; Live Scenario.WORLD] |} ]
        ∧ removeConn 4 pool' os' = None.
Proof.
  exists Scenario.pool_two_sent, (Scenario.os_after 6 2 0 2 []).
  split; [vm_compute; reflexivity|]. split; [reflexivity|].
  eexists _, _. split; [vm_compute; reflexivity|].
  split; [reflexivity|]. split; reflexivity.
Qed.

(** C4 (a failed write is not terminal).  Clients 4 and 5 are connected and
    "HELLO", sent by 5, is queued for 4.  [select] reports 4 writable and
    the [write] returns -1.  [writeToClient] returns 0, where its
    description in [chatServer.h] promises -1 when an error occurred during
    writing, and [main] does not look at what it returns: after the body of
    the loop has run for descriptor 4, the [write] is all that was done,
    nothing was closed, client 4 is still a connection of the pool and in
    the read set, and "HELLO" is still in its queue. *)
Theorem write_failure_leaves_connection :
  ∃ pool os,
    Scenario.one_sent Scenario.env_no_write os_init = Some (pool, os)
    ∧ (∃ pool1 os1,
         writeToClient Scenario.env_no_write 4 pool os = Some ((0, pool1), os1))
    ∧ ∃ pool' os',
        service Scenario.env_no_write 4 3 (select_ready ∅ {[4]} pool) os
        = Some (pool', os')
        ∧ trace os' = trace os ++ [write_event 4 Scenario.HELLO]
        ∧ 4 ∈ fds pool'
        ∧ 4 ∈ read_set pool'
        ∧ conn_head pool' = conn_head pool
        ∧ conn_head pool'
          = [ {| fd := 5; write_msg_head := [] |};
              {| fd := 4; write_msg_head := [Live Scenario.HELLO] |} ].
Proof.
  exists Scenario.pool_one_sent, (Scenario.os_after 4 1 0 2 []).
  split; [vm_compute; reflexivity|].
  split; [eexists _, _; vm_compute; reflexivity|].
  assert (Hrun : ∃ pool' os',
             service Scenario.env_no_write 4 3
               (select_ready ∅ {[4]} Scenario.pool_one_sent)
               (Scenario.os_after 4 1 0 2 []) = Some (pool', os')
             ∧ trace os' = [write_event 4 Scenario.HELLO]
             ∧ read_set pool' = read_set Scenario.pool_one_sent
             ∧ conn_head pool' = conn_head Scenario.pool_one_sent).
  { eexists _, _. split; [vm_compute; reflexivity|].
    split; [reflexivity|]. split; [vm_compute; reflexivity|reflexivity]. }
  destruct Hrun as (pool' & os' & Hrun & Htr & Hrs & Hconns).
  exists pool', os'. split; [exact Hrun|]. split; [exact Htr|].
  unfold fds. rewrite Hrs, Hconns. simpl.
  split; [set_solver|]. split; [set_solver|]. done.
Qed.

(** Peer close.  In a pool whose descriptors are distinct, for a
    connection [sd] whose chain holds no freed node: when [sd] is reported
    readable and [read] returns zero, the body of the dispatcher's loop
    removes the connection, so that [sd] is in neither interest set, the other
    connections are exactly those that were there, and [sd] was closed.  A
    drain, whatever its writes return, leaves the descriptors of the pool
    and the read set as they were. *)
Theorem peer_close_removes_write_failure_keeps env sd welcome_socket pool os :
  NoDup (fds pool) →
  sd ∈ fds pool →
  sd ≠ welcome_socket →
  (∀ conn, conn ∈ conn_head pool → fd conn = sd → all_live (write_msg_head conn)) →
  sd ∈ ready_read_set pool →
  read_res env (reads os) = ReadBytes [] →
  (∃ pool' os',
     service env sd welcome_socket pool os = Some (pool', os')
     ∧ (sd ∉ fds pool')
     ∧ (sd ∉ read_set pool')
     ∧ (sd ∉ write_set pool')
     ∧ (∀ conn, conn ∈ conn_head pool' ↔ conn ∈ conn_head pool ∧ fd conn ≠ sd)
     ∧ EvClose sd ∈ trace os')
  ∧ (∀ os0, ∃ r pool' os',
       writeToClient env sd pool os0 = Some ((r, pool'), os')
       ∧ fds pool' = fds pool
       ∧ read_set pool' = read_set pool).
Proof.
  intros Hnd Hin Hne Hlive Hready Hread. split.
  - destruct (find_conn_elem _ _ Hin) as (before & temp & after & Hfind).
    pose proof (find_conn_Some _ _ _ _ _ Hfind) as (Hconns & Hfd & Hbefore).
    pose proof (find_conn_NoDup _ _ _ _ _ Hnd Hfind) as Hgone.
    unfold service. rewrite decide_True, decide_False by done.
    unfold processDataFromConnection. run. rewrite read_closed by done. simpl.
    rewrite (removeConn_present _ _ _ _ _ _ Hfind).
    2:{ apply Hlive; [|done]. rewrite Hconns. set_solver. }
    run. unfold service_write. simpl.
    assert (Hmem : ∀ conn, conn ∈ before ++ after
                           ↔ conn ∈ conn_head pool ∧ fd conn ≠ sd).
    { intros conn. rewrite Hconns. split.
      - intros Hc. split; [set_solver|]. intros Heq. apply Hgone.
        rewrite <- Heq. by apply list_elem_of_fmap_2.
      - intros [Hc Hcne]. set_solver. }
    destruct (decide (sd ∈ ready_write_set pool)).
    + run. rewrite writeToClient_absent by done. run.
      eexists _, _. split; [done|]. simpl. unfold fds. simpl.
      split; [done|]. split; [set_solver|]. split; [set_solver|].
      split; [exact Hmem|]. set_solver.
    + run. eexists _, _. split; [done|]. simpl. unfold fds. simpl.
      split; [done|]. split; [set_solver|]. split; [set_solver|].
      split; [exact Hmem|]. set_solver.
  - intros os0. destruct (writeToClient_keeps_conns env sd pool os0 Hlive)
      as (r & pool' & os' & H & Hfds & Hrs & _). eauto 10.
Qed.

(** Client 5 closes while two messages are queued for client 4. *)
Lemma peer_close_witness :
  ∃ pool' os',
    service Scenario.env 5 3
      (select_ready {[5]} ∅ Scenario.pool_two_sent) (Scenario.os_after 6 2 0 2 [])
    = Some (pool', os')
    ∧ (5 ∉ fds pool').
Proof.
  destruct (peer_close_removes_write_failure_keeps Scenario.env 5 3
              (select_ready {[5]} ∅ Scenario.pool_two_sent)
              (Scenario.os_after 6 2 0 2 []))
    as [(pool' & os' & Hrun & Hgone & _) _].
  - unfold fds. simpl. apply (bool_decide_unpack _). vm_compute. exact I.
  - unfold fds. simpl. apply (bool_decide_unpack _). vm_compute. exact I.
  - lia.
  - intros conn Hconn Hfd. simpl in Hconn.
    apply elem_of_cons in Hconn as [->|Hconn]; [constructor|].
    apply elem_of_cons in Hconn as [->|Hconn]; [discriminate Hfd|].
    by apply elem_of_nil in Hconn.
  - apply (bool_decide_unpack _). vm_compute. exact I.
  - reflexivity.
  - exists pool', os'. split; [exact Hrun|exact Hgone].
Defined.

(** C5, as stated, fails for the removals of the shutdown: the clean-up loop
    of [main] removes the two clients 5 and 4 and leaves [maxfd] at 5, while
    the largest descriptor left is the listening socket's, 3. *)
Lemma shutdown_leaves_maxfd :
  ∃ pool' os',
    shutdown 3 Scenario.pool_two_sent (Scenario.os_after 6 2 0 2 []) = Some (pool', os')
    ∧ fds pool' = []
    ∧ maxfd pool' = 5
    ∧ upper_bound 3 pool' = 3.
Proof.
  eexists _, _. split; [vm_compute; reflexivity|]. repeat split.
Qed.

(** C5 (amended).  [acceptNewConnection], when it adds a connection, and
    [processDataFromConnection], when the peer has closed, leave [maxfd] equal
    to the largest descriptor among the listening socket and the live
    connections; an add that fails leaves the pool as it was.  The clean-up
    loop at shutdown removes every connection and leaves [maxfd] at the
    value it had. *)
Theorem maxfd_recomputed env sd welcome_socket pool os :
  (∀ conn, conn ∈ conn_head pool → all_live (write_msg_head conn)) →
  read_res env (reads os) = ReadBytes [] →
  (∃ r pool' os',
     acceptNewConnection env welcome_socket pool os = Some ((r, pool'), os')
     ∧ (r = 0 → fds pool' = accept_res env (accepts os) :: fds pool
                ∧ maxfd pool' = upper_bound welcome_socket pool')
     ∧ (r ≠ 0 → pool' = pool))
  ∧ (∃ pool' os',
       processDataFromConnection env sd pool welcome_socket os = Some (pool', os')
       ∧ maxfd pool' = upper_bound welcome_socket pool')
  ∧ (∃ pool' os',
       shutdown welcome_socket pool os = Some (pool', os')
       ∧ conn_head pool' = []
       ∧ maxfd pool' = maxfd pool).
Proof.
  intros Hlive Hread. split; [|split].
  - unfold acceptNewConnection, accept, addConn, malloc, close. run.
    destruct (accept_res env (accepts os) <? 0) eqn:Hacc.
    { eexists _, _, _. split; [done|]. split; [done|done]. }
    simpl. destruct (malloc_ok env (mallocs os)); simpl.
    + eexists _, _, _. split; [done|]. split; [|done]. intros _.
      split; [done|]. apply updateMaxFd_upper_bound.
    + eexists _, _, _. split; [done|]. split; [done|done].
  - destruct (processData_peer_closed env sd pool welcome_socket os)
      as (r & pool' & os' & _ & ->); [done|by intros; apply Hlive|].
    eexists _, _. split; [done|]. apply updateMaxFd_upper_bound.
  - unfold shutdown. run.
    destruct (cleanup_loop_spec (conn_head pool) pool os)
      as (pool' & os' & -> & Hnil & Hmax & _); [done| |].
    { apply Forall_forall. intros conn Hc. by apply Hlive. }
    unfold close. eexists _, _. split; [done|]. done.
Qed.

(** Client 5 closes; the bound is recomputed. *)
Lemma maxfd_recomputed_witness :
  ∃ pool' os',
    processDataFromConnection Scenario.env 5 Scenario.pool_two_sent 3
      (Scenario.os_after 6 2 0 2 []) = Some (pool', os')
    ∧ maxfd pool' = upper_bound 3 pool'.
Proof.
  destruct (maxfd_recomputed Scenario.env 5 3 Scenario.pool_two_sent
              (Scenario.os_after 6 2 0 2 []))
    as (_ & Hremove & _).
  - intros conn Hconn. simpl in Hconn.
    apply elem_of_cons in Hconn as [->|Hconn]; [constructor|].
    apply elem_of_cons in Hconn as [->|Hconn]; [repeat constructor; discriminate|].
    by apply elem_of_nil in Hconn.
  - reflexivity.
  - exact Hremove.
Defined.

(** C6, as stated, fails: when the allocation fails the descriptor is not left
    open for the caller, [addConn] closes it. *)
Lemma addConn_closes_descriptor :
  ∃ os',
    addConn Scenario.env_no_memory 4 (main_pool 3) os_init
    = Some ((-1, main_pool 3), os')
    ∧ ¬ left_open 4 os_init os'.
Proof.
  eexists. split; [reflexivity|]. unfold left_open. simpl. intros H. apply H. set_solver.
Qed.

(** C6 (amended).  If the allocation of the connection object fails,
    [addConn] returns -1, the pool is the one it was given, and the one thing
    done to the operating system is that [addConn] itself closes [sd]. *)
Theorem addConn_alloc_failure env sd pool os :
  malloc_ok env (mallocs os) = false →
  ∃ os',
    addConn env sd pool os = Some ((-1, pool), os')
    ∧ trace os' = trace os ++ [EvClose sd].
Proof.
  intros Hfail. unfold addConn, malloc, close. run. rewrite Hfail. simpl. eauto.
Qed.

(** No memory for the first client. *)
Lemma addConn_alloc_failure_witness :
  ∃ os',
    addConn Scenario.env_no_memory 4 (main_pool 3) os_init
    = Some ((-1, main_pool 3), os')
    ∧ trace os' = [EvClose 4].
Proof.
  apply (addConn_alloc_failure Scenario.env_no_memory 4 (main_pool 3) os_init).
  reflexivity.
Defined.

(** C7 (idempotent removal).  For a descriptor that no connection of the pool
    has, [removeConn] returns -1 and gives back the very same pool:
    connection list, both interest sets, connection count and upper bound;
    nothing is closed either. *)
Theorem removeConn_absent sd pool os :
  sd ∉ fds pool →
  removeConn sd pool os = Some ((-1, pool), os).
Proof.
  intros Hnot. unfold removeConn. by rewrite (find_conn_None _ _ Hnot).
Qed.

(** Descriptor 7 was never added. *)
Lemma removeConn_absent_witness :
  removeConn 7 (main_pool 3) os_init = Some ((-1, main_pool 3), os_init).
Proof. apply removeConn_absent. vm_compute. apply not_elem_of_nil. Defined.

(** C8 (best-effort broadcast).  The connections are [pre], then [c], then
    [post], and [c] is not the sender.  One allocation fails, the [j]-th, and
    it is one of the two that [createMessage] makes for [c]; every other
    allocation of the broadcast succeeds.  Then [addMsg] returns 0; [c] is in
    the list unchanged and its descriptor is in the write set only if it was;
    every other connection that is not the sender, before and after [c], has
    the message at the end of its queue and its descriptor in the write set. *)
Theorem addMsg_skips_failed_recipient env sd buffer len pool os pre c post j :
  conn_head pool = pre ++ c :: post →
  fd c ≠ sd →
  NoDup (fds pool) →
  Forall tail_live (conn_head pool) →
  (Z.to_nat len ≤ length buffer)%nat →
  (j = mallocs os + 2 * length (recipients sd pre)
   ∨ j = mallocs os + 2 * length (recipients sd pre) + 1)%nat →
  malloc_ok env j = false →
  (∀ i, (mallocs os ≤ i)%nat → i ≠ j → malloc_ok env i = true) →
  ∃ pool' os',
    addMsg env sd buffer len pool os = Some ((0, pool'), os')
    ∧ conn_head pool'
      = (deliver sd (copy_of buffer len) <$> pre)
          ++ c :: (deliver sd (copy_of buffer len) <$> post)
    ∧ write_set pool'
      = list_to_set (fd <$> recipients sd (pre ++ post)) ∪ write_set pool
    ∧ (fd c ∈ write_set pool' ↔ fd c ∈ write_set pool).
Proof.
  intros Hconns Hc Hnd Htl Hlen Hj Hfail Hok.
  unfold fds in Hnd. rewrite Hconns in Hnd, Htl.
  assert (Htl' : Forall tail_live (pre ++ post)).
  { apply Forall_app in Htl as [? [_ ?]%Forall_cons]. by apply Forall_app. }
  destruct (addMsg_loop_skip env sd buffer len c post j pre (write_set pool) os)
    as (os' & Hloop & _); [done..|].
  unfold addMsg. run. rewrite Hconns, Hloop. run.
  eexists _, _. split; [done|]. split; [done|]. split; [done|]. simpl.
  assert (Hfresh : fd c ∉ fd <$> (pre ++ post)).
  { rewrite fmap_app in *. simpl in Hnd.
    apply NoDup_app in Hnd as (_ & Hdisj & [Hafter _]%NoDup_cons).
    apply not_elem_of_app. split; [|done]. intros Hin. apply (Hdisj _ Hin). set_solver. }
  assert (Hsub : fd c ∉ fd <$> recipients sd (pre ++ post)).
  { intros Hin. apply Hfresh. apply list_elem_of_fmap in Hin as (x & -> & Hx).
    apply list_elem_of_fmap_2. unfold recipients in Hx.
    by apply list_elem_of_filter in Hx as [_ ?]. }
  rewrite elem_of_union, elem_of_list_to_set. tauto.
Qed.

(** Client 4 broadcasts to 7, 6 and 5; the allocation for 6 fails. *)
Lemma addMsg_skips_failed_recipient_witness :
  ∃ pool' os',
    addMsg Scenario.env_third_malloc 4 (message Scenario.HELLO) 5 Scenario.pool_four os_init
    = Some ((0, pool'), os')
    ∧ conn_head pool'
      = [ {| fd := 7; write_msg_head := [Live Scenario.HELLO] |};
          {| fd := 6; write_msg_head := [] |};
          {| fd := 5; write_msg_head := [Live Scenario.HELLO] |};
          {| fd := 4; write_msg_head := [] |} ].
Proof.
  destruct (addMsg_skips_failed_recipient Scenario.env_third_malloc 4
              (message Scenario.HELLO) 5 Scenario.pool_four os_init
              [ {| fd := 7; write_msg_head := [] |} ]
              {| fd := 6; write_msg_head := [] |}
              [ {| fd := 5; write_msg_head := [] |}; {| fd := 4; write_msg_head := [] |} ]
              2%nat)
    as (pool' & os' & Hrun & Hconns & _).
  - reflexivity.
  - simpl. lia.
  - unfold fds. simpl. apply (bool_decide_unpack _). vm_compute. exact I.
  - repeat constructor; discriminate.
  - simpl. lia.
  - left. reflexivity.
  - reflexivity.
  - intros i _ Hi. simpl. apply negb_true_iff, Nat.eqb_neq. exact Hi.
  - exists pool', os'. split; [exact Hrun|]. rewrite Hconns. reflexivity.
Defined.

(** C9, as stated, fails: the validation lets through arguments that are not
    port numbers.  Text after the digits is ignored, and a negative number
    that wraps around within [unsigned long] is read as the port 80. *)
Lemma startup_accepts_non_numerals :
  (proceeds ["server"; "80abc"]%string = true ∧ ¬ denotes_port "80abc")
  ∧ (proceeds ["server"; "-18446744073709551536"]%string = true
     ∧ ¬ denotes_port "-18446744073709551536").
Proof.
  split; (split; [reflexivity|]); intros [H _]; discriminate H.
Qed.

(** C9 (amended).  [main] gets past the validation exactly when [argv] holds
    the program name and one argument, and the number that [strtoul] reads
    from the argument, taken as a [long], is between 1 and 65535.  Every
    other command line prints the usage message and exits with
    [EXIT_FAILURE].  For an argument that is a decimal numeral this is
    exactly when the numeral is a port number, and the port is its value. *)
Theorem startup_validation (argv : list string) :
  (proceeds argv = true
   ↔ ∃ prog arg, argv = [prog; arg] ∧ 1 ≤ Libc.to_long (Libc.strtoul arg) ≤ 65535)
  ∧ (proceeds argv = false → startup argv = Exit usage EXIT_FAILURE)
  ∧ (∀ prog arg, argv = [prog; arg] → is_numeral arg = true →
       (proceeds argv = true ↔ denotes_port arg)
       ∧ (denotes_port arg → startup argv = Proceed (numeral_value 0 arg))).
Proof.
  unfold proceeds.
  destruct (startup_cases argv) as [(prog & arg & -> & Hrange & Hs)|[Hnot Hs]];
    rewrite Hs.
  - split; [|split]; [split; eauto|done|].
    intros ? ? [= <- <-] Hnum.
    destruct (to_long_strtoul_numeral arg Hnum) as [Hiff Heq].
    unfold denotes_port. split; [split; [intros _; split; [done|by apply Hiff]|done]|].
    intros [_ Hp]. by rewrite Heq.
  - split; [|split]; [split; [done|by intros ?]|done|].
    intros prog arg -> Hnum.
    destruct (to_long_strtoul_numeral arg Hnum) as [Hiff Heq].
    unfold denotes_port. split; [split; [done|]|].
    + intros [_ Hp]. exfalso. apply Hnot. exists prog, arg. split; [done|]. by apply Hiff.
    + intros [_ Hp]. exfalso. apply Hnot. exists prog, arg. split; [done|]. by apply Hiff.
Qed.

(** C10 (the transform).  For a buffer of at least [len] bytes,
    [capitalizeMessage] turns each of the first [len] bytes into
    [upper_char] of that byte and keeps the rest and the length of the
    buffer; [upper_char] moves a lower-case letter 32 down, to its upper-case
    letter, and leaves every other byte, so every non-alphabetic byte, as it
    is; a second application changes nothing. *)
Theorem capitalizeMessage_upper_idempotent (message : list byte) (len : Z) :
  (Z.to_nat len ≤ length message)%nat →
  ∃ out,
    capitalizeMessage message len = Some out
    ∧ out = (upper_char <$> take (Z.to_nat len) message) ++ drop (Z.to_nat len) message
    ∧ length out = length message
    ∧ (∀ c, Ctype.to_uchar (upper_char c)
            = if Ctype.islower (Ctype.to_uchar c)
              then Ctype.to_uchar c - 32 else Ctype.to_uchar c)
    ∧ (∀ c, Ctype.isalpha (Ctype.to_uchar c) = false → upper_char c = c)
    ∧ capitalizeMessage out len = Some out.
Proof.
  intros Hlen. eexists. split; [by apply capitalizeMessage_eq|].
  unfold transform. split; [done|]. split.
  { rewrite length_app, length_fmap, length_take, length_drop. lia. }
  split; [apply upper_char_code|]. split; [apply upper_char_nonalpha|].
  rewrite capitalizeMessage_eq.
  2:{ rewrite length_app, length_fmap, length_take, length_drop. lia. }
  f_equal. unfold transform.
  assert (Hn : length (upper_char <$> take (Z.to_nat len) message) = Z.to_nat len).
  { rewrite length_fmap, length_take. lia. }
  rewrite take_app_length' by done. rewrite drop_app_length' by done.
  f_equal. rewrite <- list_fmap_compose. apply list_fmap_ext.
  intros _ c _. simpl. apply upper_char_idemp.
Qed.

(** The first three bytes of "hi!z". *)
Lemma capitalizeMessage_witness :
  ∃ out, capitalizeMessage [x68; x69; x21; x7a] 3 = Some out ∧ out = [x48; x49; x21; x7a].
Proof.
  destruct (capitalizeMessage_upper_idempotent [x68; x69; x21; x7a] 3) as (out & H & Hout & _).
  { simpl. lia. }
  exists out. split; [exact H|]. rewrite Hout. reflexivity.
Defined.

(** ** Beyond the claims: the loops of [main] and what the pool keeps *)

(** *** A broadcast, whatever [malloc] answers *)

Lemma only_mallocs_refl os : only_mallocs os os.
Proof. by repeat split. Qed.

Lemma only_mallocs_trans os1 os2 os3 :
  only_mallocs os1 os2 → only_mallocs os2 os3 → only_mallocs os1 os3.
Proof.
  intros (? & ? & ? & ? & ?) (? & ? & ? & ? & ?).
  repeat split; [lia|congruence..].
Qed.

Lemma createMessage_cases env buffer len os :
  (Z.to_nat len ≤ length buffer)%nat →
  ∃ r os',
    createMessage env buffer len os = Some (r, os')
    ∧ (r = None ∨ r = Some (copy_of buffer len))
    ∧ only_mallocs os os'.
Proof.
  intros Hlen. unfold createMessage, malloc. run.
  destruct (malloc_ok env (mallocs os)); simpl.
  - destruct (malloc_ok env (S (mallocs os))); simpl.
    + rewrite decide_True by done. eexists _, _. split; [done|]. split; [by right|].
      repeat split; simpl; lia.
    + eexists _, _. split; [done|]. split; [by left|]. repeat split; simpl; lia.
  - eexists _, _. split; [done|]. split; [by left|]. repeat split; simpl; lia.
Qed.

Lemma addMsg_loop_general env sd buffer len conns : ∀ wset os,
  Forall tail_live conns →
  (Z.to_nat len ≤ length buffer)%nat →
  ∃ conns' wset' os',
    addMsg_loop env sd buffer len conns wset os = Some ((conns', wset'), os')
    ∧ Forall2 (served sd (copy_of buffer len)) conns conns'
    ∧ (∀ x, x ∈ wset' ↔
            x ∈ wset ∨ ∃ i conn conn',
              conns !! i = Some conn ∧ conns' !! i = Some conn'
              ∧ conn' ≠ conn ∧ fd conn = x)
    ∧ only_mallocs os os'.
Proof.
  induction conns as [|c conns IH]; intros wset os Htl Hlen.
  { simpl. run. eexists _, _, _. split; [done|]. split; [constructor|].
    split; [|apply only_mallocs_refl].
    intros x. split; [by left|]. intros [?|(i & ? & ? & Hi & _)]; [done|].
    by rewrite lookup_nil in Hi. }
  apply Forall_cons in Htl as [Hc Htl]. simpl.
  assert (Hskip : ∀ os1, only_mallocs os os1 →
    ∃ conns' wset' os',
      (addMsg_loop env sd buffer len conns wset
         ≫= λ '(next', wset'0), mret (c :: next', wset'0)) os1
      = Some ((conns', wset'), os')
      ∧ Forall2 (served sd (copy_of buffer len)) (c :: conns) conns'
      ∧ (∀ x, x ∈ wset' ↔
              x ∈ wset ∨ ∃ i conn conn',
                (c :: conns) !! i = Some conn ∧ conns' !! i = Some conn'
                ∧ conn' ≠ conn ∧ fd conn = x)
      ∧ only_mallocs os os').
  { intros os1 Hos1.
    destruct (IH wset os1 Htl Hlen) as (next' & w & os2 & Hloop & Hall & Hw & Hos2).
    run. rewrite Hloop. eexists _, _, _. split; [done|].
    split; [constructor; [by left|done]|].
    split; [|by eapply only_mallocs_trans].
    intros x. rewrite Hw. split.
    - intros [?|(i & conn & conn' & ? & ? & ? & ?)]; [by left|].
      right. by exists (S i), conn, conn'.
    - intros [?|(i & conn & conn' & Hi & Hi' & Hne & Hfd)]; [by left|].
      destruct i as [|i]; simpl in *; [congruence|].
      right. by exists i, conn, conn'. }
  destruct (decide (fd c ≠ sd)) as [Hne|Heq]; [|apply Hskip, only_mallocs_refl].
  destruct (createMessage_cases env buffer len os Hlen) as (r & os1 & Hcm & [->| ->] & Hos1).
  { run. rewrite Hcm. by apply Hskip. }
  run. rewrite Hcm, append_msg_live by done. run.
  destruct (IH ({[fd c]} ∪ wset) os1 Htl Hlen) as (next' & w & os2 & Hloop & Hall & Hw & Hos2).
  rewrite Hloop. eexists _, _, _. split; [done|].
  split; [constructor; [by right|done]|].
  split; [|by eapply only_mallocs_trans].
  intros x. rewrite Hw. split.
  - intros [[Hx|?]%elem_of_union|(i & conn & conn' & ? & ? & ? & ?)].
    + apply elem_of_singleton in Hx as ->. right.
      exists 0%nat, c, {| fd := fd c; write_msg_head := write_msg_head c ++ [Live (copy_of buffer len)] |}.
      repeat split. intros Heq. apply (f_equal write_msg_head) in Heq. simpl in Heq.
      apply (f_equal length) in Heq. rewrite length_app in Heq. simpl in Heq. lia.
    + by left.
    + right. by exists (S i), conn, conn'.
  - intros [?|(i & conn & conn' & Hi & Hi' & Hne' & Hfd)]; [left; set_solver|].
    destruct i as [|i]; simpl in *.
    + left. injection Hi as <-. set_solver.
    + right. by exists i, conn, conn'.
Qed.

(** *** What every operation keeps *)

Lemma uint_succ n : uint (uint n + 1) = uint (n + 1).
Proof. unfold uint. by rewrite Zplus_mod_idemp_l. Qed.

Lemma uint_pred n : uint (uint n - 1) = uint (n - 1).
Proof. unfold uint. by rewrite Zminus_mod_idemp_l. Qed.

Lemma upper_bound_with_maxfd w v pool :
  upper_bound w (with_maxfd v pool) = upper_bound w pool.
Proof. done. Qed.

Lemma addMsg_loop_fds env sd buffer len conns : ∀ wset os conns' wset' os',
  addMsg_loop env sd buffer len conns wset os = Some ((conns', wset'), os') →
  fd <$> conns' = fd <$> conns
  ∧ wset' ⊆ wset ∪ list_to_set (fd <$> conns).
Proof.
  induction conns as [|c conns IH]; intros wset os conns' wset' os'; simpl.
  { run. intros [= <- <- <-]. split; [done|set_solver]. }
  assert (Hskip : ∀ os1,
    (addMsg_loop env sd buffer len conns wset
       ≫= λ '(next', wset'0), mret (c :: next', wset'0)) os1
    = Some ((conns', wset'), os') →
    fd <$> conns' = fd <$> (c :: conns)
    ∧ wset' ⊆ wset ∪ list_to_set (fd <$> c :: conns)).
  { intros os1. run.
    destruct (addMsg_loop env sd buffer len conns wset os1)
      as [[[next' w] os2]|] eqn:Hloop; [|done].
    intros [= <- <- <-]. destruct (IH _ _ _ _ _ Hloop) as [Hfds Hw].
    rewrite !fmap_cons, Hfds. split; [done|set_solver]. }
  destruct (decide (fd c ≠ sd)); [|apply Hskip].
  run. destruct (createMessage env buffer len os) as [[[m|] os1]|]; [| |done].
  2:{ apply Hskip. }
  destruct (append_msg m c) as [c'|] eqn:Happ; [|done]. run.
  apply append_msg_nonempty in Happ as [Hfd _].
  destruct (addMsg_loop env sd buffer len conns ({[fd c]} ∪ wset) os1)
    as [[[next' w] os2]|] eqn:Hloop; [|done].
  intros [= <- <- <-]. destruct (IH _ _ _ _ _ Hloop) as [Hfds Hw].
  rewrite !fmap_cons, Hfds, Hfd. split; [done|set_solver].
Qed.

Lemma sound_fields w pool pool' :
  conn_head pool' = conn_head pool →
  read_set pool' = read_set pool →
  write_set pool' = write_set pool →
  maxfd pool' = maxfd pool →
  nr_conns pool' = nr_conns pool →
  sound w pool → sound w pool'.
Proof.
  intros Hc Hr Hw Hm Hn [Htails Hread Hwrite Hbound Hcount].
  split; unfold upper_bound, fds in *; rewrite ?Hc, ?Hr, ?Hw, ?Hm, ?Hn; done.
Qed.

Lemma addMsg_sound env w sd buffer len pool os r pool' os' :
  sound w pool →
  addMsg env sd buffer len pool os = Some ((r, pool'), os') →
  sound w pool'.
Proof.
  intros Hs Hrun. pose proof Hrun as Htl.
  apply addMsg_tail_live in Htl; [|apply Hs].
  revert Hrun. unfold addMsg. run.
  destruct (addMsg_loop env sd buffer len (conn_head pool) (write_set pool) os)
    as [[[conns' wset'] os1]|] eqn:Hloop; [|done].
  intros [= <- <- <-]. apply addMsg_loop_fds in Hloop as [Hfds Hw].
  destruct Hs as [Htails Hread Hwrite Hbound Hcount]. split; simpl in *; unfold upper_bound, fds in *; simpl.
  - done.
  - by rewrite Hfds.
  - rewrite Hfds. set_solver.
  - by rewrite Hfds.
  - rewrite Hcount. f_equal. apply (f_equal length) in Hfds.
    rewrite !length_fmap in Hfds. lia.
Qed.

Lemma upper_bound_updateMaxFd w pool :
  conn_head (updateMaxFd pool w) = conn_head pool
  ∧ read_set (updateMaxFd pool w) = read_set pool
  ∧ write_set (updateMaxFd pool w) = write_set pool
  ∧ nr_conns (updateMaxFd pool w) = nr_conns pool
  ∧ maxfd (updateMaxFd pool w) = upper_bound w pool.
Proof. repeat split. apply updateMaxFd_upper_bound. Qed.

Lemma removeConn_cases sd pool os r pool' os' :
  removeConn sd pool os = Some ((r, pool'), os') →
  (r = -1 ∧ pool' = pool ∧ os' = os ∧ sd ∉ fds pool)
  ∨ (∃ before temp after,
       find_conn sd (conn_head pool) = Some (before, temp, after)
       ∧ all_live (write_msg_head temp)
       ∧ r = 0
       ∧ pool' = with_nr_conns (uint (nr_conns pool - 1))
                   (with_write_set (write_set pool ∖ {[sd]})
                      (with_read_set (read_set pool ∖ {[sd]})
                         (with_conn_head (before ++ after) pool)))
       ∧ os' = {| mallocs := mallocs os; reads := reads os; writes := writes os;
                  accepts := accepts os; trace := trace os ++ [EvClose sd] |}).
Proof.
  unfold removeConn.
  destruct (find_conn sd (conn_head pool)) as [[[before temp] after]|] eqn:Hfind.
  - unfold freeMessagesInQueue, close. run.
    destruct (free_chain (write_msg_head temp)) eqn:Hfree; simpl; [|done].
    intros [= <- <- <-]. right. exists before, temp, after.
    split; [done|]. split; [|done].
    clear Hfind. induction (write_msg_head temp) as [|[m|] chain IH]; simpl in *;
      [constructor|constructor; [done|by apply IH]|done].
  - run. intros [= <- <- <-]. left. repeat split.
    intros Hin. apply find_conn_elem in Hin as (? & ? & ? & ?). congruence.
Qed.

Lemma removeConn_sound w sd pool os r pool' os' :
  sound w pool →
  removeConn sd pool os = Some ((r, pool'), os') →
  sound w (updateMaxFd pool' w).
Proof.
  intros Hs Hrun. pose proof Hrun as Htl.
  apply removeConn_tail_live in Htl; [|apply Hs].
  apply removeConn_cases in Hrun
    as [(-> & -> & -> & _)|(before & temp & after & Hfind & _ & -> & -> & ->)].
  { destruct Hs as [Htails Hread Hwrite Hbound Hcount]. split; try done. apply updateMaxFd_fold. }
  apply find_conn_Some in Hfind as (Hconns & Hfd & _).
  destruct Hs as [Htails Hread Hwrite Hbound Hcount]. unfold fds in *. rewrite Hconns in *.
  split; simpl in *; unfold upper_bound, fds; simpl.
  - done.
  - rewrite fmap_app in *. rewrite fmap_cons in Hread. set_solver.
  - rewrite fmap_app in *. rewrite fmap_cons in Hwrite. set_solver.
  - apply updateMaxFd_fold.
  - rewrite Hcount, uint_pred. f_equal.
    rewrite !length_app. simpl. lia.
Qed.

Lemma addConn_sound env w sd pool os r pool' os' :
  sound w pool →
  addConn env sd pool os = Some ((r, pool'), os') →
  (r = -1 ∧ pool' = pool) ∨ (r = 0 ∧ sound w (updateMaxFd pool' w)).
Proof.
  intros Hs. unfold addConn, malloc, close. run.
  destruct (malloc_ok env (mallocs os)); simpl; intros [= <- <- <-]; [|by left].
  right. split; [done|]. destruct Hs as [Htails Hread Hwrite Hbound Hcount]. split.
  - simpl. by apply Forall_cons.
  - unfold fds in *. simpl. set_solver.
  - unfold fds in *. simpl. set_solver.
  - apply updateMaxFd_upper_bound.
  - simpl. rewrite Hcount, uint_succ. f_equal. lia.
Qed.

Lemma acceptNewConnection_sound env w pool os r pool' os' :
  sound w pool →
  acceptNewConnection env w pool os = Some ((r, pool'), os') →
  sound w pool'.
Proof.
  intros Hs. unfold acceptNewConnection. run.
  destruct (accept env w os) as [[new_socket os1]|]; [|done].
  destruct (new_socket <? 0); [by intros [= <- <- <-]|].
  destruct (addConn env new_socket pool os1) as [[[r1 pool1] os2]|] eqn:Hadd; [|done].
  apply (addConn_sound _ w) in Hadd as [[-> ->]|[-> Hs1]]; [| |done].
  - simpl. unfold close. run. by intros [= <- <- <-].
  - simpl. by intros [= <- <- <-].
Qed.

Lemma writeToClient_sound env w sd pool os r pool' os' :
  sound w pool →
  writeToClient env sd pool os = Some ((r, pool'), os') →
  sound w pool'.
Proof.
  intros Hs Hrun. pose proof Hrun as Htl.
  apply writeToClient_tail_live in Htl; [|apply Hs].
  revert Hrun. unfold writeToClient.
  destruct (find_conn sd (conn_head pool)) as [[[before conn] after]|] eqn:Hfind.
  2:{ run. by intros [= <- <- <-]. }
  apply find_conn_Some in Hfind as (Hconns & Hfd & _).
  run. destruct (write_loop env sd (write_msg_head conn) os)
    as [[[chain is_error] os1]|]; [|done].
  intros [= <- <- <-].
  assert (Hfds : fds (with_conn_head
            (before ++ (if decide (is_error ≠ 1)
                        then {| fd := fd conn; write_msg_head := [] |}
                        else {| fd := fd conn; write_msg_head := chain |}) :: after)
            pool) = fds pool).
  { unfold fds. simpl. rewrite Hconns, !fmap_app, !fmap_cons.
    by destruct (decide (is_error ≠ 1)). }
  destruct Hs as [Htails Hread Hwrite Hbound Hcount]. split; simpl in *.
  - done.
  - unfold fds in *. simpl in *. rewrite Hfds. done.
  - unfold fds in *. simpl in *. rewrite Hfds. set_solver.
  - unfold upper_bound in *. unfold fds in *. simpl in *. by rewrite Hfds.
  - rewrite Hcount. f_equal. rewrite Hconns, !length_app. done.
Qed.

Lemma processDataFromConnection_sound env w sd pool os pool' os' :
  sound w pool →
  processDataFromConnection env sd pool w os = Some (pool', os') →
  sound w pool'.
Proof.
  intros Hs. unfold processDataFromConnection. run.
  destruct (read env sd (BUFFER_SIZE - 1) os) as [[[|data] os1]|]; [| |done].
  { by intros [= <- <-]. }
  destruct (Z.of_nat (length data) >? 0).
  - destruct (capitalizeMessage _ _) as [buffer|]; [|done]. run.
    destruct (addMsg env sd buffer _ pool os1) as [[[r pool1] os2]|] eqn:Hadd; [|done].
    intros [= <- <-]. by eapply addMsg_sound.
  - destruct (removeConn sd pool os1) as [[[r pool1] os2]|] eqn:Hrm; [|done].
    intros [= <- <-]. by eapply removeConn_sound.
Qed.

Lemma sound_with_nready w v pool : sound w pool → sound w (with_nready v pool).
Proof. by apply sound_fields. Qed.

Lemma service_write_sound env w sd pool os pool' os' :
  sound w pool →
  service_write env sd pool os = Some (pool', os') →
  sound w pool'.
Proof.
  intros Hs. unfold service_write.
  destruct (decide (sd ∈ ready_write_set pool)); [|by intros [= <- <-]].
  run. destruct (writeToClient env sd pool os) as [[[r pool1] os1]|] eqn:Hw; [|done].
  intros [= <- <-]. apply sound_with_nready. by eapply writeToClient_sound.
Qed.

Lemma service_sound env w sd pool os pool' os' :
  sound w pool →
  service env sd w pool os = Some (pool', os') →
  sound w pool'.
Proof.
  intros Hs. unfold service.
  destruct (decide (sd ∈ ready_read_set pool)); [|by apply service_write_sound].
  destruct (decide (sd = w)) as [->|].
  - run. destruct (acceptNewConnection env w pool os)
      as [[[r pool1] os1]|] eqn:Hacc; [|done].
    apply acceptNewConnection_sound in Hacc; [|done].
    destruct (decide (r ≠ 0)); [by intros [= <- <-]|].
    apply service_write_sound. by apply sound_with_nready.
  - run. destruct (processDataFromConnection env sd pool w os)
      as [[pool1 os1]|] eqn:Hproc; [|done].
    apply processDataFromConnection_sound in Hproc; [|done].
    apply service_write_sound. by apply sound_with_nready.
Qed.

Lemma scan_sound env w fuel : ∀ sd pool os pool' os',
  sound w pool →
  scan env fuel sd w pool os = Some (Some pool', os') →
  sound w pool'.
Proof.
  induction fuel as [|fuel IH]; intros sd pool os pool' os' Hs; simpl.
  - destruct ((sd <=? maxfd pool) && (nready pool >? 0)); [done|].
    by intros [= <- <-].
  - destruct ((sd <=? maxfd pool) && (nready pool >? 0)); [|by intros [= <- <-]].
    run. destruct (service env sd w pool os) as [[pool1 os1]|] eqn:Hserv; [|done].
    apply service_sound in Hserv; [|done]. by apply IH.
Qed.

Lemma iteration_sound env w fuel sel pool os pool' os' :
  sound w pool →
  iteration env fuel sel w pool os = Some (Some pool', os') →
  sound w pool'.
Proof.
  intros Hs. destruct sel as [|rready wready]; simpl.
  - intros [= <- <-]. by eapply sound_fields; [..|exact Hs].
  - apply scan_sound. by eapply sound_fields; [..|exact Hs].
Qed.

Lemma main_pool_sound w : sound w (main_pool w).
Proof.
  split; [constructor| | |done|done]; unfold fds; simpl; set_solver.
Qed.

(** *** The [for] loop ends *)

Lemma upper_bound_le U w pool :
  w ≤ U → (∀ x, x ∈ fds pool → x ≤ U) → upper_bound w pool ≤ U.
Proof.
  unfold upper_bound. induction (fds pool) as [|x l IH]; simpl; intros Hw Hall; [done|].
  apply Z.max_lub; [apply Hall; set_solver|]. apply IH; [done|].
  intros y Hy. apply Hall. set_solver.
Qed.

Lemma below_fields U pool pool' :
  fds pool' = fds pool → maxfd pool' = maxfd pool → below U pool → below U pool'.
Proof. unfold below. intros -> ->. done. Qed.

Lemma below_updateMaxFd U w pool :
  w ≤ U → (∀ x, x ∈ fds pool → x ≤ U) → below U (updateMaxFd pool w).
Proof.
  intros Hw Hall. split; [|done].
  rewrite updateMaxFd_upper_bound. by apply upper_bound_le.
Qed.

Lemma addMsg_below env U sd buffer len pool os r pool' os' :
  below U pool →
  addMsg env sd buffer len pool os = Some ((r, pool'), os') →
  below U pool'.
Proof.
  intros Hb. unfold addMsg. run.
  destruct (addMsg_loop env sd buffer len (conn_head pool) (write_set pool) os)
    as [[[conns' wset'] os1]|] eqn:Hloop; [|done].
  intros [= <- <- <-]. apply addMsg_loop_fds in Hloop as [Hfds _].
  eapply below_fields; [| |exact Hb]; [|done]. unfold fds. simpl. done.
Qed.

Lemma removeConn_fds sd pool os r pool' os' :
  removeConn sd pool os = Some ((r, pool'), os') →
  ∀ x, x ∈ fds pool' → x ∈ fds pool.
Proof.
  intros Hrun. apply removeConn_cases in Hrun
    as [(-> & -> & -> & _)|(before & temp & after & Hfind & _ & -> & -> & ->)];
    [done|].
  apply find_conn_Some in Hfind as (Hconns & _ & _).
  unfold fds. simpl. rewrite Hconns, !fmap_app, fmap_cons. set_solver.
Qed.

Lemma writeToClient_below env U sd pool os r pool' os' :
  below U pool →
  writeToClient env sd pool os = Some ((r, pool'), os') →
  below U pool'.
Proof.
  intros Hb. unfold writeToClient.
  destruct (find_conn sd (conn_head pool)) as [[[before conn] after]|] eqn:Hfind.
  2:{ run. by intros [= <- <- <-]. }
  apply find_conn_Some in Hfind as (Hconns & Hfd & _).
  run. destruct (write_loop env sd (write_msg_head conn) os)
    as [[[chain is_error] os1]|]; [|done].
  intros [= <- <- <-]. eapply below_fields; [| |exact Hb]; [|done].
  unfold fds. simpl. rewrite Hconns, !fmap_app, !fmap_cons.
  by destruct (decide (is_error ≠ 1)).
Qed.

Lemma service_write_below env U sd pool os pool' os' :
  below U pool →
  service_write env sd pool os = Some (pool', os') →
  below U pool'.
Proof.
  intros Hb. unfold service_write.
  destruct (decide (sd ∈ ready_write_set pool)); [|by intros [= <- <-]].
  run. destruct (writeToClient env sd pool os) as [[[r pool1] os1]|] eqn:Hw; [|done].
  intros [= <- <-]. apply (writeToClient_below _ U) in Hw; [|done].
  by eapply below_fields; [| |exact Hw].
Qed.

Lemma service_below env U sd w pool os pool' os' :
  (∀ i, accept_res env i ≤ U) →
  w ≤ U →
  below U pool →
  service env sd w pool os = Some (pool', os') →
  below U pool'.
Proof.
  intros Hacc Hw Hb. unfold service.
  destruct (decide (sd ∈ ready_read_set pool)); [|by apply service_write_below].
  assert (Hnready : ∀ v p, below U p → below U (with_nready v p)).
  { intros v p Hp. by eapply below_fields; [| |exact Hp]. }
  destruct (decide (sd = w)) as [->|].
  - unfold acceptNewConnection, accept, addConn, malloc, close. run.
    destruct (accept_res env (accepts os) <? 0); simpl; [by intros [= <- <-]|].
    destruct (malloc_ok env (mallocs os)); simpl; [|by intros [= <- <-]].
    apply service_write_below, Hnready, below_updateMaxFd; [done|].
    unfold fds. simpl. intros x [->|Hx]%elem_of_cons; [apply Hacc|by apply Hb].
  - unfold processDataFromConnection. run.
    destruct (read env sd (BUFFER_SIZE - 1) os) as [[[|data] os1]|]; [| |done].
    { by apply service_write_below, Hnready. }
    destruct (Z.of_nat (length data) >? 0).
    + destruct (capitalizeMessage _ _) as [buffer|]; [|done]. run.
      destruct (addMsg env sd buffer _ pool os1) as [[[r pool1] os2]|] eqn:Hadd; [|done].
      apply (addMsg_below _ U) in Hadd; [|done].
      by apply service_write_below, Hnready.
    + destruct (removeConn sd pool os1) as [[[r pool1] os2]|] eqn:Hrm; [|done].
      apply service_write_below, Hnready, below_updateMaxFd; [done|].
      intros x Hx. apply Hb. by eapply removeConn_fds.
Qed.

Lemma scan_enough_fuel env U w fuel : ∀ sd pool os os',
  (∀ i, accept_res env i ≤ U) →
  w ≤ U →
  below U pool →
  U + 1 - sd ≤ Z.of_nat fuel →
  scan env fuel sd w pool os ≠ Some (None, os').
Proof.
  induction fuel as [|fuel IH]; intros sd pool os os' Hacc Hw Hb Hfuel; simpl.
  - destruct ((sd <=? maxfd pool) && (nready pool >? 0)) eqn:Hc; [|done].
    destruct Hb as [Hmax _]. lia.
  - destruct ((sd <=? maxfd pool) && (nready pool >? 0)) eqn:Hc; [|done].
    run. destruct (service env sd w pool os) as [[pool1 os1]|] eqn:Hserv; [|done].
    apply IH; [done|done| |lia]. by eapply service_below.
Qed.

Lemma scan_more_fuel env w fuel : ∀ fuel' sd pool os,
  (fuel ≤ fuel')%nat →
  (∀ os', scan env fuel sd w pool os ≠ Some (None, os')) →
  scan env fuel' sd w pool os = scan env fuel sd w pool os.
Proof.
  induction fuel as [|fuel IH]; intros fuel' sd pool os Hle Hok.
  - simpl in *. destruct fuel'; simpl; [done|].
    destruct ((sd <=? maxfd pool) && (nready pool >? 0)); [|done].
    by destruct (Hok os).
  - destruct fuel' as [|fuel']; [lia|]. simpl in *.
    destruct ((sd <=? maxfd pool) && (nready pool >? 0)); [|done].
    revert Hok. run. destruct (service env sd w pool os) as [[pool1 os1]|]; [|done].
    intros Hok. apply IH; [lia|done].
Qed.

(** *** What the operations keep when no write fails *)

Lemma all_live_tail_live conn : all_live (write_msg_head conn) → tail_live conn.
Proof.
  unfold all_live, tail_live, write_msg_tail. intros Hall Hlast.
  apply last_Some in Hlast as [l Hl]. rewrite Hl in Hall.
  by apply Forall_app in Hall as [_ [? _]%Forall_cons].
Qed.

Lemma chains_tails conns :
  Forall (λ conn, all_live (write_msg_head conn)) conns → Forall tail_live conns.
Proof.
  intros H. eapply Forall_impl; [exact H|]. intros conn. apply all_live_tail_live.
Qed.

Lemma served_all_live sd m conns conns' :
  Forall2 (served sd m) conns conns' →
  Forall (λ conn, all_live (write_msg_head conn)) conns →
  Forall (λ conn, all_live (write_msg_head conn)) conns'.
Proof.
  induction 1 as [|c c' conns conns' Hc _ IH]; intros Hall; [done|].
  apply Forall_cons in Hall as [Hlive Hall]. apply Forall_cons. split; [|by apply IH].
  destruct Hc as [->|[_ ->]]; [done|]. simpl.
  apply Forall_app. split; [done|]. by repeat constructor.
Qed.

Lemma addMsg_consistent env w sd buffer len pool os :
  consistent w pool →
  (Z.to_nat len ≤ length buffer)%nat →
  ∃ pool' os',
    addMsg env sd buffer len pool os = Some ((0, pool'), os')
    ∧ consistent w pool'
    ∧ fds pool' = fds pool
    ∧ only_mallocs os os'.
Proof.
  intros [Hs Hnd Hw Hread Hinv Hlive] Hlen.
  destruct (addMsg_loop_general env sd buffer len (conn_head pool) (write_set pool) os)
    as (conns' & wset' & os' & Hloop & Hserved & _ & Hos); [by apply chains_tails|done|].
  assert (Hrun : addMsg env sd buffer len pool os
                 = Some ((0, with_write_set wset' (with_conn_head conns' pool)), os')).
  { unfold addMsg. run. by rewrite Hloop. }
  apply addMsg_loop_fds in Hloop as [Hfds _].
  eexists _, _. split; [exact Hrun|]. split; [|split; [exact Hfds|exact Hos]].
  split.
  - by eapply addMsg_sound.
  - unfold fds. simpl. by rewrite Hfds.
  - unfold fds. simpl. by rewrite Hfds.
  - unfold fds. simpl. by rewrite Hfds.
  - by eapply addMsg_write_interest.
  - simpl. by eapply served_all_live.
Qed.

Lemma removeConn_consistent w sd pool os :
  consistent w pool →
  ∃ r pool' os',
    removeConn sd pool os = Some ((r, pool'), os')
    ∧ consistent w (updateMaxFd pool' w)
    ∧ (∀ x, x ∈ fds pool' → x ∈ fds pool)
    ∧ writes os' = writes os
    ∧ accepts os' = accepts os.
Proof.
  intros [Hs Hnd Hw Hread Hinv Hlive].
  destruct (find_conn sd (conn_head pool)) as [[[before temp] after]|] eqn:Hfind.
  2:{ exists (-1), pool, os. unfold removeConn. rewrite Hfind. run.
      split; [done|]. split; [|done]. split; try done.
      apply (removeConn_sound w sd pool os (-1) pool os); [done|].
      unfold removeConn. rewrite Hfind. by run. }
  pose proof (find_conn_NoDup _ _ _ _ _ Hnd Hfind) as Hgone.
  pose proof (find_conn_Some _ _ _ _ _ Hfind) as (Hconns & Hfd & _).
  assert (Htemp : all_live (write_msg_head temp)).
  { rewrite Hconns in Hlive. by apply Forall_app in Hlive as [_ [? _]%Forall_cons]. }
  pose proof (removeConn_present sd pool os _ _ _ Hfind Htemp) as Hrun.
  eexists _, _, _. split; [exact Hrun|].
  assert (Hsub : ∀ x, x ∈ fd <$> before ++ after → x ∈ fds pool).
  { unfold fds. rewrite Hconns, !fmap_app, fmap_cons. set_solver. }
  split; [|split; [exact Hsub|done]]. split.
  - by eapply removeConn_sound.
  - unfold fds in *. simpl. rewrite Hconns, fmap_app, fmap_cons in Hnd.
    rewrite fmap_app. apply NoDup_app in Hnd as (? & Hdisj & [_ ?]%NoDup_cons).
    apply NoDup_app. split; [done|]. split; [|done].
    intros x Hx Hx'. apply (Hdisj x Hx). set_solver.
  - unfold fds. simpl. intros Hin. by apply Hw, Hsub.
  - unfold fds in *. simpl. intros x Hx. apply elem_of_difference. split.
    + apply Hread. rewrite Hconns, fmap_app, fmap_cons. rewrite fmap_app in Hx. set_solver.
    + rewrite elem_of_singleton. intros Heq. rewrite Heq in Hx.
      apply elem_of_union in Hx as [Hx|Hx].
      * apply elem_of_singleton in Hx. apply Hw. rewrite <- Hx.
        rewrite Hconns, fmap_app, fmap_cons, Hfd. set_solver.
      * apply elem_of_list_to_set in Hx. by apply Hgone.
  - exact (removeConn_write_interest _ _ _ _ _ _ Hinv Hnd Hrun).
  - simpl. rewrite Hconns in Hlive.
    apply Forall_app in Hlive as [? [_ ?]%Forall_cons]. by apply Forall_app.
Qed.

Lemma consistent_fields w pool pool' :
  conn_head pool' = conn_head pool →
  read_set pool' = read_set pool →
  write_set pool' = write_set pool →
  maxfd pool' = maxfd pool →
  nr_conns pool' = nr_conns pool →
  consistent w pool → consistent w pool'.
Proof.
  intros Hc Hr Hw Hm Hn [Hs Hnd Hwel Hread Hinv Hlive]. split.
  - by eapply sound_fields; [..|exact Hs].
  - unfold fds. by rewrite Hc.
  - unfold fds. by rewrite Hc.
  - unfold fds. by rewrite Hc, Hr.
  - unfold write_interest_inv. by rewrite Hc, Hw.
  - by rewrite Hc.
Qed.

Lemma acceptNewConnection_consistent env w pool os :
  consistent w pool →
  accept_res env (accepts os) < 0
  ∨ ((accept_res env (accepts os) ∉ fds pool) ∧ accept_res env (accepts os) ≠ w) →
  ∃ r pool' os',
    acceptNewConnection env w pool os = Some ((r, pool'), os')
    ∧ consistent w pool'
    ∧ writes os' = writes os.
Proof.
  intros Hc Hfresh. pose proof Hc as [Hs Hnd Hwel Hread Hinv Hlive].
  unfold acceptNewConnection, accept, addConn, malloc, close. run.
  destruct (accept_res env (accepts os) <? 0) eqn:Hneg; simpl.
  { eexists _, _, _. by split. }
  destruct Hfresh as [?|[Hnew Hne]]; [lia|].
  destruct (malloc_ok env (mallocs os)) eqn:Hm; simpl.
  2:{ eexists _, _, _. by split. }
  eexists _, _, _. split; [done|]. split; [|done].
  set (sd := accept_res env (accepts os)) in *.
  set (pool1 := with_nr_conns _ _).
  assert (Hrun : addConn env sd pool
                   {| mallocs := mallocs os; reads := reads os; writes := writes os;
                      accepts := S (accepts os); trace := trace os |}
                 = Some ((0, pool1),
                         {| mallocs := S (mallocs os); reads := reads os;
                            writes := writes os; accepts := S (accepts os);
                            trace := trace os |})).
  { unfold addConn, malloc. run. simpl. by rewrite Hm. }
  split.
  - by destruct (addConn_sound env w _ _ _ _ _ _ Hs Hrun) as [[? _]|[_ ?]].
  - unfold fds in *. simpl. by apply NoDup_cons.
  - unfold fds in *. simpl. apply not_elem_of_cons. done.
  - unfold fds in *. simpl. set_solver.
  - eapply addConn_write_interest in Hrun; [done|done|].
    destruct Hs as [_ _ Hwrite _ _]. intros Hin. apply Hnew.
    apply Hwrite in Hin. by apply elem_of_list_to_set in Hin.
  - simpl. apply Forall_cons. split; [constructor|done].
Qed.

Lemma writeToClient_consistent env w sd pool os :
  consistent w pool →
  (∀ i, (writes os ≤ i)%nat → 0 < write_res env i) →
  ∃ r pool' os',
    writeToClient env sd pool os = Some ((r, pool'), os')
    ∧ consistent w pool'
    ∧ fds pool' = fds pool
    ∧ (writes os ≤ writes os')%nat
    ∧ accepts os' = accepts os.
Proof.
  intros Hc Hok. pose proof Hc as [Hs Hnd Hwel Hread Hinv Hlive].
  destruct (find_conn sd (conn_head pool)) as [[[before conn] after]|] eqn:Hfind.
  2:{ exists (-1), pool, os. unfold writeToClient. rewrite Hfind. run.
      split; [done|]. split; [exact Hc|]. split; [done|]. split; [lia|done]. }
  pose proof (find_conn_Some _ _ _ _ _ Hfind) as (Hconns & Hfd & _).
  assert (Hconn : all_live (write_msg_head conn)).
  { rewrite Hconns in Hlive. by apply Forall_app in Hlive as [_ [? _]%Forall_cons]. }
  apply all_live_msgs in Hconn as [msgs Hq].
  assert (Hall : ∀ i, (i < length msgs)%nat → 0 < write_res env (writes os + i)).
  { intros i _. apply Hok. lia. }
  pose proof (writeToClient_drains env sd pool os _ _ _ _ Hfind Hq Hall) as Hrun.
  destruct (writeToClient_drained_write_interest env sd pool os _ _ _ _
              Hinv Hnd Hfind Hq Hall) as (pool2 & os2 & Hrun2 & Hinv2).
  rewrite Hrun in Hrun2. injection Hrun2 as <- <-.
  assert (Hfds : fd <$> before ++ {| fd := fd conn; write_msg_head := [] |} :: after
                 = fd <$> conn_head pool).
  { by rewrite Hconns, !fmap_app, !fmap_cons. }
  eexists _, _, _. split; [exact Hrun|].
  split; [|split; [exact Hfds|split; [simpl; lia|done]]].
  split.
  - by eapply writeToClient_sound.
  - unfold fds. simpl. by rewrite Hfds.
  - unfold fds. simpl. by rewrite Hfds.
  - unfold fds. simpl. by rewrite Hfds.
  - done.
  - simpl. rewrite Hconns in Hlive.
    apply Forall_app in Hlive as [? [_ ?]%Forall_cons].
    apply Forall_app. split; [done|]. apply Forall_cons. split; [constructor|done].
Qed.

Lemma capitalize_read_buffer (data : list byte) :
  (length data ≤ Z.to_nat (BUFFER_SIZE - 1))%nat →
  ∃ buffer,
    capitalizeMessage
      (data ++ drop (length data) (replicate (Z.to_nat BUFFER_SIZE) x00))
      (Z.of_nat (length data)) = Some buffer
    ∧ (Z.to_nat (Z.of_nat (length data)) ≤ length buffer)%nat.
Proof.
  intros Hlen. rewrite capitalizeMessage_eq.
  2:{ rewrite length_app. lia. }
  eexists. split; [done|].
  rewrite Nat2Z.id, take_app_length, drop_app_length, length_app.
  unfold transform. rewrite length_fmap. lia.
Qed.

Lemma processDataFromConnection_consistent env w sd pool os :
  consistent w pool →
  ∃ pool' os',
    processDataFromConnection env sd pool w os = Some (pool', os')
    ∧ consistent w pool'
    ∧ (∀ x, x ∈ fds pool' → x ∈ fds pool)
    ∧ writes os' = writes os
    ∧ accepts os' = accepts os.
Proof.
  intros Hc. unfold processDataFromConnection, read. run.
  destruct (read_res env (reads os)) as [|data] eqn:Hread.
  { eexists _, _. split; [done|]. split; [exact Hc|]. by repeat split. }
  set (got := take (Z.to_nat (BUFFER_SIZE - 1)) data).
  destruct (Z.of_nat (length got) >? 0) eqn:Hpos.
  - destruct (capitalize_read_buffer got) as (buffer & -> & Hlen).
    { unfold got. rewrite length_take. lia. }
    run. match goal with |- context [addMsg env sd buffer ?l pool ?o] =>
      destruct (addMsg_consistent env w sd buffer l pool o Hc Hlen)
        as (pool' & os' & -> & Hc' & Hfds & Hos) end.
    eexists _, _. split; [done|]. split; [done|]. split; [by rewrite Hfds|].
    by destruct Hos as (_ & _ & -> & -> & _).
  - match goal with |- context [removeConn sd pool ?o] =>
      destruct (removeConn_consistent w sd pool o Hc)
        as (r & pool' & os' & -> & Hc' & Hsub & Hw & Ha) end.
    eexists _, _. split; [done|]. split; [done|]. split; [exact Hsub|]. by split.
Qed.

Lemma consistent_with_nready w v pool :
  consistent w pool → consistent w (with_nready v pool).
Proof. by apply consistent_fields. Qed.

Lemma service_write_consistent env w sd pool os :
  consistent w pool →
  writes_succeed env os →
  ∃ pool' os',
    service_write env sd pool os = Some (pool', os')
    ∧ consistent w pool'
    ∧ fds pool' = fds pool
    ∧ (writes os ≤ writes os')%nat
    ∧ accepts os' = accepts os.
Proof.
  intros Hc Hok. unfold service_write.
  destruct (decide (sd ∈ ready_write_set pool)).
  2:{ eexists _, _. split; [done|]. split; [exact Hc|]. by repeat split. }
  destruct (writeToClient_consistent env w sd pool os Hc Hok)
    as (r & pool' & os' & Hrun & Hc' & Hfds & Hw & Ha).
  run. rewrite Hrun. eexists _, _. split; [done|].
  split; [by apply consistent_with_nready|]. by repeat split.
Qed.

Lemma service_consistent env w sd pool os :
  consistent w pool →
  (sd = w → accept_unused env w pool os) →
  writes_succeed env os →
  ∃ pool' os',
    service env sd w pool os = Some (pool', os')
    ∧ consistent w pool'
    ∧ (writes os ≤ writes os')%nat
    ∧ (sd ≠ w → accepts os' = accepts os ∧ ∀ x, x ∈ fds pool' → x ∈ fds pool).
Proof.
  intros Hc Hfresh Hok. unfold service.
  destruct (decide (sd ∈ ready_read_set pool)).
  2:{ destruct (service_write_consistent env w sd pool os Hc Hok)
        as (pool' & os' & -> & Hc' & Hfds & Hw & Ha).
      eexists _, _. split; [done|]. split; [done|]. split; [done|].
      intros _. split; [done|]. by rewrite Hfds. }
  destruct (decide (sd = w)) as [->|Hne].
  - destruct (acceptNewConnection_consistent env w pool os Hc (Hfresh eq_refl))
      as (r & pool1 & os1 & Hacc & Hc1 & Hw1).
    run. rewrite Hacc. destruct (decide (r ≠ 0)).
    { eexists _, _. split; [done|]. split; [done|]. split; [lia|done]. }
    destruct (service_write_consistent env w w (with_nready (nready pool1 - 1) pool1) os1)
      as (pool' & os' & -> & Hc' & _ & Hw & _).
    { by apply consistent_with_nready. }
    { intros i Hi. apply Hok. lia. }
    eexists _, _. split; [done|]. split; [done|]. split; [lia|done].
  - destruct (processDataFromConnection_consistent env w sd pool os Hc)
      as (pool1 & os1 & Hproc & Hc1 & Hsub & Hw1 & Ha1).
    run. rewrite Hproc.
    destruct (service_write_consistent env w sd (with_nready (nready pool1 - 1) pool1) os1)
      as (pool' & os' & -> & Hc' & Hfds & Hw & Ha).
    { by apply consistent_with_nready. }
    { intros i Hi. apply Hok. lia. }
    eexists _, _. split; [done|]. split; [done|]. split; [lia|].
    intros _. split; [congruence|]. rewrite Hfds. exact Hsub.
Qed.

Lemma consistent_below U w pool :
  consistent w pool → w ≤ U → (∀ x, x ∈ fds pool → x ≤ U) → below U pool.
Proof.
  intros [[_ _ _ Hbound _] _ _ _ _ _] Hw Hall. split; [|done].
  rewrite Hbound. by apply upper_bound_le.
Qed.

Lemma main_pool_consistent w : consistent w (main_pool w).
Proof.
  split.
  - apply main_pool_sound.
  - apply NoDup_nil_2.
  - apply not_elem_of_nil.
  - unfold fds. simpl. set_solver.
  - intros conn Hconn. by apply elem_of_nil in Hconn.
  - apply Forall_nil_2.
Qed.

(** *** More on single operations *)

Lemma find_conn_first sd before conn after :
  fd conn = sd → sd ∉ fd <$> before →
  find_conn sd (before ++ conn :: after) = Some (before, conn, after).
Proof.
  intros Hfd. induction before as [|c before IH]; simpl; intros Hnot.
  - by rewrite decide_True.
  - apply not_elem_of_cons in Hnot as [Hne Hnot].
    rewrite decide_False by congruence. by rewrite IH.
Qed.

Lemma foldr_max_bounds (l : list Z) w :
  w ≤ foldr Z.max w l
  ∧ (∀ x, x ∈ l → x ≤ foldr Z.max w l)
  ∧ (foldr Z.max w l = w ∨ foldr Z.max w l ∈ l).
Proof.
  induction l as [|y l (Hw & Hall & Hin)]; simpl.
  - split; [lia|]. split; [|by left]. intros x Hx. by apply elem_of_nil in Hx.
  - split; [lia|]. split.
    + intros x [->|Hx]%elem_of_cons; [lia|]. specialize (Hall x Hx). lia.
    + destruct (Z.max_spec y (foldr Z.max w l)) as [[_ ->]|[_ ->]].
      * destruct Hin as [->|Hin]; [by left|]. right. apply elem_of_cons. by right.
      * right. apply elem_of_cons. by left.
Qed.

Lemma cleanup_loop_full (conns : list conn_t) : ∀ pool os n,
  conn_head pool = conns →
  Forall (λ conn, all_live (write_msg_head conn)) conns →
  nr_conns pool = uint n →
  ∃ pool' os',
    cleanup_loop conns pool os = Some (pool', os')
    ∧ conn_head pool' = []
    ∧ read_set pool' = read_set pool ∖ list_to_set (fd <$> conns)
    ∧ write_set pool' = write_set pool ∖ list_to_set (fd <$> conns)
    ∧ nr_conns pool' = uint (n - Z.of_nat (length conns))
    ∧ (maxfd pool' = maxfd pool ∧ nready pool' = nready pool
       ∧ ready_read_set pool' = ready_read_set pool
       ∧ ready_write_set pool' = ready_write_set pool)
    ∧ (mallocs os' = mallocs os ∧ reads os' = reads os
       ∧ writes os' = writes os ∧ accepts os' = accepts os)
    ∧ trace os' = trace os ++ (EvClose <$> (fd <$> conns)).
Proof.
  induction conns as [|c conns IH]; intros pool os n Hhead Hlive Hn; simpl.
  - run. eexists _, _. split; [done|]. split; [done|].
    split; [set_solver|]. split; [set_solver|].
    split; [by rewrite Hn, Z.sub_0_r|].
    split; [done|]. split; [done|]. by rewrite app_nil_r.
  - apply Forall_cons in Hlive as [Hc Hlive]. run.
    rewrite (removeConn_present _ _ _ [] c conns);
      [|by rewrite Hhead; simpl; rewrite decide_True|done].
    edestruct (IH (with_nr_conns (uint (nr_conns pool - 1))
                     (with_write_set (write_set pool ∖ {[fd c]})
                        (with_read_set (read_set pool ∖ {[fd c]})
                           (with_conn_head ([] ++ conns) pool))))
                  {| mallocs := mallocs os; reads := reads os; writes := writes os;
                     accepts := accepts os; trace := trace os ++ [EvClose (fd c)] |}
                  (n - 1))
      as (pool' & os' & -> & Hnil & Hrs & Hws & Hnr & Hrest & Hos & Htr);
      [done|done|by simpl; rewrite Hn, uint_pred|].
    simpl in *.
    eexists _, _. split; [done|]. split; [done|].
    split; [rewrite Hrs; set_solver|]. split; [rewrite Hws; set_solver|].
    split; [rewrite Hnr; f_equal; lia|].
    split; [done|]. split; [done|].
    rewrite Htr. by rewrite <- app_assoc.
Qed.

(** *** After a drain that failed half way *)


(** *** From one client to the other *)

Lemma processData_delivers env sd pool welcome_socket os (data : list byte) :
  read_res env (reads os) = ReadBytes data →
  (0 < length data ≤ 4095)%nat →
  (∀ i, (i < 2 * length (recipients sd (conn_head pool)))%nat →
        malloc_ok env (mallocs os + i) = true) →
  Forall tail_live (conn_head pool) →
  processDataFromConnection env sd pool welcome_socket os
  = Some (with_write_set
            (list_to_set (fd <$> recipients sd (conn_head pool)) ∪ write_set pool)
            (with_conn_head
               (deliver sd {| message := transform data;
                              size := Z.of_nat (length data) |}
                  <$> conn_head pool) pool),
          add_mallocs (2 * length (recipients sd (conn_head pool)))
            {| mallocs := mallocs os; reads := S (reads os); writes := writes os;
               accepts := accepts os; trace := trace os |}).
Proof.
  intros Hread Hlen Hok Htl. unfold processDataFromConnection, read. run.
  rewrite Hread. rewrite take_ge by (unfold BUFFER_SIZE; lia).
  destruct (Z.of_nat (length data) >? 0) eqn:Hpos; [|lia].
  rewrite capitalizeMessage_eq.
  2:{ rewrite length_app, length_drop, length_replicate. unfold BUFFER_SIZE. lia. }
  rewrite Nat2Z.id, take_app_length, drop_app_length.
  run. rewrite addMsg_all_ok; [|done|done|].
  2:{ rewrite Nat2Z.id, length_app. unfold transform. rewrite length_fmap. lia. }
  do 5 f_equal. unfold copy_of. rewrite Nat2Z.id. f_equal.
  replace (length data) with (length (transform data)) at 1
    by (unfold transform; apply length_fmap).
  by rewrite take_app_length.
Qed.

(** *** What a drain leaves alone *)

Lemma write_loop_accepts env sd chain : ∀ os r os',
  write_loop env sd chain os = Some (r, os') → accepts os' = accepts os.
Proof.
  induction chain as [|[m|] chain IH]; intros os r os'; simpl.
  - run. by intros [= <- <-].
  - run. unfold write at 1. cbn beta iota.
    destruct (write_res env (writes os) <=? 0); [by intros [= <- <-]|].
    match goal with |- context [write_loop env sd chain ?o] =>
      destruct (write_loop env sd chain o) as [[[chain' e] os1]|] eqn:Hloop end;
      [|done].
    intros [= <- <-]. by apply IH in Hloop.
  - run. done.
Qed.

Lemma service_write_frame env sd pool os pool' os' :
  service_write env sd pool os = Some (pool', os') →
  fds pool' = fds pool ∧ accepts os' = accepts os.
Proof.
  unfold service_write.
  destruct (decide (sd ∈ ready_write_set pool)); [|by intros [= <- <-]].
  unfold writeToClient.
  destruct (find_conn sd (conn_head pool)) as [[[before conn] after]|] eqn:Hfind.
  2:{ run. by intros [= <- <-]. }
  apply find_conn_Some in Hfind as (Hconns & Hfd & _).
  run. destruct (write_loop env sd (write_msg_head conn) os)
    as [[[chain is_error] os1]|] eqn:Hloop; [|done].
  intros [= <- <-]. apply write_loop_accepts in Hloop. split; [|done].
  unfold fds. simpl. rewrite Hconns, !fmap_app, !fmap_cons.
  by destruct (decide (is_error ≠ 1)).
Qed.

(** *** Every descriptor is closed once *)

Lemma closes_app t1 t2 : closes (t1 ++ t2) = closes t1 ++ closes t2.
Proof. apply omap_app. Qed.

Lemma closes_fmap (l : list Z) : closes (EvClose <$> l) = l.
Proof.
  induction l as [|x l IH]; [done|].
  change (closes (EvClose <$> x :: l)) with (x :: closes (EvClose <$> l)).
  by rewrite IH.
Qed.

Lemma accepted_S env n :
  accepted env (S n)
  = accepted env n
      ++ (if decide (0 ≤ accept_res env n) then [accept_res env n] else []).
Proof.
  unfold accepted. rewrite seq_S, fmap_app, filter_app. f_equal.
Qed.

Lemma write_loop_closes env sd chain : ∀ os r os',
  write_loop env sd chain os = Some (r, os') →
  closes (trace os') = closes (trace os).
Proof.
  induction chain as [|[m|] chain IH]; intros os r os'; simpl.
  - run. by intros [= <- <-].
  - run. unfold write at 1. cbn beta iota.
    destruct (write_res env (writes os) <=? 0).
    { intros [= <- <-]. simpl. by rewrite closes_app, app_nil_r. }
    match goal with |- context [write_loop env sd chain ?o] =>
      destruct (write_loop env sd chain o) as [[[chain' e] os1]|] eqn:Hloop end;
      [|done].
    intros [= <- <-]. apply IH in Hloop. rewrite Hloop. simpl.
    by rewrite closes_app, app_nil_r.
  - run. done.
Qed.

Lemma service_write_closes env sd pool os pool' os' :
  service_write env sd pool os = Some (pool', os') →
  closes (trace os') = closes (trace os).
Proof.
  unfold service_write.
  destruct (decide (sd ∈ ready_write_set pool)); [|by intros [= <- <-]].
  unfold writeToClient.
  destruct (find_conn sd (conn_head pool)) as [[[before conn] after]|] eqn:Hfind.
  2:{ run. by intros [= <- <-]. }
  run. destruct (write_loop env sd (write_msg_head conn) os)
    as [[[chain is_error] os1]|] eqn:Hloop; [|done].
  intros [= <- <-]. by apply write_loop_closes in Hloop.
Qed.

Lemma accounted_frame env os pool os' pool' :
  fds pool' = fds pool →
  accepts os' = accepts os →
  closes (trace os') = closes (trace os) →
  accounted env os pool → accounted env os' pool'.
Proof. unfold accounted. by intros -> -> ->. Qed.

Lemma service_write_accounted env sd pool os pool' os' :
  accounted env os pool →
  service_write env sd pool os = Some (pool', os') →
  accounted env os' pool'.
Proof.
  intros Hacc Hrun. destruct (service_write_frame _ _ _ _ _ _ Hrun) as [Hfds Ha].
  apply service_write_closes in Hrun. by eapply accounted_frame.
Qed.

Lemma service_accounted env w sd pool os pool' os' :
  (∀ i, malloc_ok env i = true) →
  consistent w pool →
  accounted env os pool →
  service env sd w pool os = Some (pool', os') →
  accounted env os' pool'.
Proof.
  intros Hmem Hc Hacc. unfold service.
  destruct (decide (sd ∈ ready_read_set pool)); [|by apply service_write_accounted].
  destruct (decide (sd = w)) as [->|Hne].
  - unfold acceptNewConnection, accept, addConn, malloc, close. run.
    destruct (accept_res env (accepts os) <? 0) eqn:Hneg; simpl.
    { intros [= <- <-]. unfold accounted in *. simpl. rewrite accepted_S.
      rewrite decide_False by lia. by rewrite app_nil_r. }
    rewrite Hmem. simpl. apply service_write_accounted.
    unfold accounted in *. simpl. rewrite accepted_S, decide_True by lia.
    unfold fds in *. simpl. rewrite <- Hacc.
    by rewrite <- Permutation_cons_append.
  - unfold processDataFromConnection, read. run.
    destruct (read_res env (reads os)) as [|data] eqn:Hread.
    { apply service_write_accounted. exact Hacc. }
    set (got := take (Z.to_nat (BUFFER_SIZE - 1)) data).
    destruct (Z.of_nat (length got) >? 0) eqn:Hpos.
    + destruct (capitalize_read_buffer got) as (buffer & -> & Hlen).
      { unfold got. rewrite length_take. lia. }
      run. match goal with |- context [addMsg env sd buffer ?l pool ?o] =>
        destruct (addMsg_consistent env w sd buffer l pool o Hc Hlen)
          as (pool1 & os1 & -> & _ & Hfds & Hos) end.
      apply service_write_accounted.
      destruct Hos as (_ & _ & _ & Ha & Htr).
      eapply accounted_frame; [| | |exact Hacc]; [done|done|by rewrite Htr].
    + destruct Hc as [_ Hnd _ _ _ Hlive].
      destruct (find_conn sd (conn_head pool)) as [[[before temp] after]|] eqn:Hfind.
      * pose proof (find_conn_Some _ _ _ _ _ Hfind) as (Hconns & Hfd & _).
        rewrite (removeConn_present _ _ _ _ _ _ Hfind).
        2:{ rewrite Forall_forall in Hlive. apply Hlive. rewrite Hconns. set_solver. }
        run. apply service_write_accounted.
        unfold accounted in *. simpl. rewrite closes_app. simpl.
        rewrite <- Hacc. unfold fds. simpl. rewrite Hconns, !fmap_app, fmap_cons, Hfd.
        rewrite <- !app_assoc. simpl.
        rewrite (Permutation_app_comm (closes (trace os)) [sd]). simpl.
        apply Permutation_app_head. symmetry. apply Permutation_middle.
      * unfold removeConn. rewrite Hfind. run.
        apply service_write_accounted. exact Hacc.
Qed.

(** *** Descriptors stay within the capacity of an [fd_set] *)

Lemma service_fds_keep env (P : Z → Prop) sd w pool os pool' os' :
  (∀ i, 0 ≤ accept_res env i → P (accept_res env i)) →
  (∀ x, x ∈ fds pool → P x) →
  service env sd w pool os = Some (pool', os') →
  ∀ x, x ∈ fds pool' → P x.
Proof.
  intros Hacc Hall. unfold service.
  destruct (decide (sd ∈ ready_read_set pool)).
  2:{ intros [Hfds _]%service_write_frame. by rewrite Hfds. }
  destruct (decide (sd = w)) as [->|].
  - unfold acceptNewConnection, accept, addConn, malloc, close. run.
    destruct (accept_res env (accepts os) <? 0) eqn:Hneg; simpl;
      [by intros [= <- <-]|].
    destruct (malloc_ok env (mallocs os)); simpl; [|by intros [= <- <-]].
    intros [Hfds _]%service_write_frame. rewrite Hfds. unfold fds. simpl.
    intros x [->|Hx]%elem_of_cons; [apply Hacc; lia|by apply Hall].
  - unfold processDataFromConnection. run.
    destruct (read env sd (BUFFER_SIZE - 1) os) as [[[|data] os1]|]; [| |done].
    { intros [Hfds _]%service_write_frame. by rewrite Hfds. }
    destruct (Z.of_nat (length data) >? 0).
    + destruct (capitalizeMessage _ _) as [buffer|]; [|done]. run.
      destruct (addMsg env sd buffer _ pool os1) as [[[r pool1] os2]|] eqn:Hadd;
        [|done].
      intros [Hfds _]%service_write_frame. rewrite Hfds.
      revert Hadd. unfold addMsg. run.
      destruct (addMsg_loop env sd buffer _ (conn_head pool) (write_set pool) os1)
        as [[[conns' wset'] os3]|] eqn:Hloop; [|done].
      intros [= <- <- <-]. apply addMsg_loop_fds in Hloop as [Hsame _].
      unfold fds in *. simpl. by rewrite Hsame.
    + destruct (removeConn sd pool os1) as [[[r pool1] os2]|] eqn:Hrm; [|done].
      intros [Hfds _]%service_write_frame. rewrite Hfds.
      intros x Hx. apply Hall. by eapply removeConn_fds.
Qed.

Lemma service_capacity env sd w pool os pool' os' :
  accept_fits env →
  within_capacity w pool →
  service env sd w pool os = Some (pool', os') →
  within_capacity w pool'.
Proof.
  intros Hacc [Hw Hall] Hserv. split; [done|].
  apply (service_fds_keep env fits sd w pool os pool' os'); [|done|done].
  intros i Hi. split; [done|apply Hacc].
Qed.

Lemma capacity_below w pool :
  within_capacity w pool → maxfd pool < FD_SETSIZE → below (FD_SETSIZE - 1) pool.
Proof.
  intros [_ Hall] Hmax. split; [lia|]. intros x Hx. destruct (Hall x Hx). lia.
Qed.

Lemma scan_capacity env w fuel : ∀ sd pool os pool' os',
  accept_fits env →
  within_capacity w pool →
  maxfd pool < FD_SETSIZE →
  scan env fuel sd w pool os = Some (Some pool', os') →
  within_capacity w pool' ∧ maxfd pool' < FD_SETSIZE.
Proof.
  induction fuel as [|fuel IH]; intros sd pool os pool' os' Hacc Hcap Hmax; simpl.
  - destruct ((sd <=? maxfd pool) && (nready pool >? 0)); run; [done|].
    by intros [= <- <-].
  - destruct ((sd <=? maxfd pool) && (nready pool >? 0));
      [|by run; intros [= <- <-]].
    run. destruct (service env sd w pool os) as [[pool1 os1]|] eqn:Hserv; [|done].
    apply IH; [done|by eapply service_capacity|].
    assert (Hb : below (FD_SETSIZE - 1) pool1).
    { eapply (service_below env (FD_SETSIZE - 1)); [| | |exact Hserv].
      - intros i. specialize (Hacc i). lia.
      - destruct Hcap as [[_ Hw] _]. lia.
      - by apply (capacity_below w). }
    destruct Hb as [Hb _]. lia.
Qed.

Lemma iteration_capacity env w fuel sel pool os pool' os' :
  accept_fits env →
  within_capacity w pool →
  maxfd pool < FD_SETSIZE →
  iteration env fuel sel w pool os = Some (Some pool', os') →
  within_capacity w pool' ∧ maxfd pool' < FD_SETSIZE.
Proof.
  intros Hacc Hcap Hmax. destruct sel as [|rready wready]; simpl.
  - run. by intros [= <- <-].
  - by apply scan_capacity.
Qed.

(** *** The ready sets are those that [select] left *)

Lemma service_write_ready env sd pool os pool' os' :
  service_write env sd pool os = Some (pool', os') →
  ready_read_set pool' = ready_read_set pool.
Proof.
  unfold service_write.
  destruct (decide (sd ∈ ready_write_set pool)); [|by intros [= <- <-]].
  unfold writeToClient.
  destruct (find_conn sd (conn_head pool)) as [[[before conn] after]|].
  2:{ run. by intros [= <- <-]. }
  run. destruct (write_loop env sd (write_msg_head conn) os)
    as [[[chain is_error] os1]|]; [|done].
  by intros [= <- <-].
Qed.

Lemma service_ready env sd w pool os pool' os' :
  service env sd w pool os = Some (pool', os') →
  ready_read_set pool' = ready_read_set pool.
Proof.
  unfold service.
  destruct (decide (sd ∈ ready_read_set pool)); [|by apply service_write_ready].
  destruct (decide (sd = w)) as [->|].
  - unfold acceptNewConnection, accept, addConn, malloc, close. run.
    destruct (accept_res env (accepts os) <? 0); simpl; [by intros [= <- <-]|].
    destruct (malloc_ok env (mallocs os)); simpl; [|by intros [= <- <-]].
    by intros ->%service_write_ready.
  - unfold processDataFromConnection. run.
    destruct (read env sd (BUFFER_SIZE - 1) os) as [[[|data] os1]|]; [| |done].
    { by intros ->%service_write_ready. }
    destruct (Z.of_nat (length data) >? 0).
    + destruct (capitalizeMessage _ _) as [buffer|]; [|done]. run.
      unfold addMsg. run.
      destruct (addMsg_loop env sd buffer _ (conn_head pool) (write_set pool) os1)
        as [[[conns' wset'] os3]|]; [|done].
      by intros ->%service_write_ready.
    + destruct (removeConn sd pool os1) as [[[r pool1] os2]|] eqn:Hrm; [|done].
      intros ->%service_write_ready. simpl.
      apply removeConn_cases in Hrm
        as [(_ & -> & _)|(before & temp & after & _ & _ & _ & -> & _)]; done.
Qed.

(** *** A run in which no write fails *)

Lemma service_turn env w sd pool os :
  consistent w pool →
  (sd = w → w ∈ ready_read_set pool → accept_unused env w pool os) →
  writes_succeed env os →
  ∃ pool' os',
    service env sd w pool os = Some (pool', os')
    ∧ consistent w pool'
    ∧ (writes os ≤ writes os')%nat
    ∧ (sd ≠ w → accepts os' = accepts os ∧ ∀ x, x ∈ fds pool' → x ∈ fds pool).
Proof.
  intros Hc Hfresh Hok.
  destruct (decide (sd ∈ ready_read_set pool)) as [Hready|Hready].
  { apply service_consistent; [done| |done]. intros ->. by apply Hfresh. }
  unfold service. rewrite decide_False by done.
  destruct (service_write_consistent env w sd pool os Hc Hok)
    as (pool' & os' & -> & Hc' & Hfds & Hw & Ha).
  eexists _, _. split; [done|]. split; [done|]. split; [done|].
  intros _. split; [done|]. by rewrite Hfds.
Qed.

Lemma scan_turn env w fuel : ∀ sd pool os,
  accept_fits env →
  within_capacity w pool →
  consistent w pool →
  (sd ≤ w → w ∈ ready_read_set pool → accept_unused env w pool os) →
  writes_succeed env os →
  FD_SETSIZE - sd ≤ Z.of_nat fuel →
  ∃ pool' os',
    scan env fuel sd w pool os = Some (Some pool', os')
    ∧ consistent w pool'
    ∧ within_capacity w pool'
    ∧ writes_succeed env os'
    ∧ ((∀ i, malloc_ok env i = true) →
       accounted env os pool → accounted env os' pool').
Proof.
  induction fuel as [|fuel IH]; intros sd pool os Hacc Hcap Hc Hfresh Hok Hfuel;
    simpl.
  - destruct ((sd <=? maxfd pool) && (nready pool >? 0)) eqn:Hcond; [|by eauto 10].
    destruct (consistent_below (FD_SETSIZE - 1) w pool Hc) as [Hmax _].
    { destruct Hcap as [[_ Hw] _]. lia. }
    { intros x Hx. destruct Hcap as [_ Hall]. destruct (Hall x Hx). lia. }
    lia.
  - destruct ((sd <=? maxfd pool) && (nready pool >? 0)) eqn:Hcond; [|by eauto 10].
    destruct (service_turn env w sd pool os Hc)
      as (pool1 & os1 & Hserv & Hc1 & Hw1 & Hframe);
      [intros ->; apply Hfresh; lia|done|].
    run. rewrite Hserv.
    destruct (IH (sd + 1) pool1 os1) as (pool' & os' & Hscan & Hc' & Hcap' & Hok' & Hcount);
      [done|by eapply service_capacity|done| |intros i Hi; apply Hok; lia|lia|].
    { intros Hle Hready. destruct Hframe as [Ha Hsub]; [lia|].
      rewrite (service_ready _ _ _ _ _ _ _ Hserv) in Hready.
      destruct (Hfresh ltac:(lia) Hready) as [?|[Hnew ?]];
        unfold accept_unused; rewrite Ha; [by left|right].
      split; [|done]. intros Hin. by apply Hnew, Hsub. }
    exists pool', os'. split; [done|]. split; [done|]. split; [done|].
    split; [done|]. intros Hmem Hcounted. apply Hcount; [done|].
    by apply (service_accounted env w sd pool os pool1 os1).
Qed.

Lemma iteration_turn env w fuel sel pool os :
  accept_fits env →
  within_capacity w pool →
  consistent w pool →
  accept_fresh_turn env sel w pool os →
  writes_succeed env os →
  FD_SETSIZE ≤ Z.of_nat fuel →
  ∃ pool' os',
    iteration env fuel sel w pool os = Some (Some pool', os')
    ∧ consistent w pool'
    ∧ within_capacity w pool'
    ∧ writes_succeed env os'
    ∧ ((∀ i, malloc_ok env i = true) →
       accounted env os pool → accounted env os' pool').
Proof.
  intros Hacc Hcap Hc Hfresh Hok Hfuel. destruct sel as [|rready wready]; simpl.
  - eexists _, _. split; [done|].
    split; [by eapply consistent_fields; [..|exact Hc]|]. done.
  - destruct (scan_turn env w fuel 0 (select_ready rready wready pool) os)
      as (pool' & os' & Hscan & Hc' & Hcap' & Hok' & Hcount);
      [done|exact Hcap| | |done|lia|].
    + by eapply consistent_fields; [..|exact Hc].
    + simpl. intros _ [_ Hin]%elem_of_intersection. by apply Hfresh.
    + exists pool', os'. split; [done|]. split; [done|]. split; [done|].
      split; [done|]. intros Hmem Hcounted. apply Hcount; [done|exact Hcounted].
Qed.

Lemma main_loop_turns env w fuel rest : ∀ first pool os,
  accept_fits env →
  within_capacity w pool →
  consistent w pool →
  accept_fresh env fuel first rest w pool os →
  writes_succeed env os →
  FD_SETSIZE ≤ Z.of_nat fuel →
  ∃ pool' os',
    main_loop env fuel first rest w pool os = Some (Some pool', os')
    ∧ consistent w pool'
    ∧ within_capacity w pool'
    ∧ ((∀ i, malloc_ok env i = true) →
       accounted env os pool → accounted env os' pool').
Proof.
  induction rest as [|next rest IH];
    intros first pool os Hacc Hcap Hc [Hturn Hrest] Hok Hfuel; simpl;
    destruct (iteration_turn env w fuel first pool os)
      as (pool1 & os1 & Hit & Hc1 & Hcap1 & Hok1 & Hcount1); try done;
    run; rewrite Hit.
  - by eauto 10.
  - destruct (IH next pool1 os1) as (pool' & os' & Hloop & Hc' & Hcap' & Hcount');
      [done|done|done|by apply Hrest|done|done|].
    exists pool', os'. split; [done|]. split; [done|]. split; [done|].
    intros Hmem Hcounted. by apply Hcount', Hcount1.
Qed.

Lemma sound_maxfd_fits w pool :
  sound w pool → within_capacity w pool → maxfd pool < FD_SETSIZE.
Proof.
  intros [_ _ _ Hbound _] [[_ Hw] Hall]. rewrite Hbound.
  assert (upper_bound w pool ≤ FD_SETSIZE - 1); [|lia].
  apply upper_bound_le; [lia|]. intros x Hx. destruct (Hall x Hx). lia.
Qed.

Lemma calm_accept_fits : accept_fits Calm.env.
Proof.
  intros i. unfold FD_SETSIZE. simpl. destruct (i <? 1000)%nat eqn:Hi; [|lia].
  apply Nat.ltb_lt in Hi. lia.
Qed.

Lemma main_pool_capacity w : fits w → within_capacity w (main_pool w).
Proof. intros Hw. split; [done|]. intros x Hx. by apply elem_of_nil in Hx. Qed.

Lemma reuse_accept_fits : accept_fits Reuse.env.
Proof. intros i. unfold FD_SETSIZE. simpl. lia. Qed.

(** In the run of [Reuse], descriptor 4 is free again when it comes back. *)
Lemma reuse_accept_fresh :
  accept_fresh Reuse.env 1024 (SelectReady {[3]} ∅) Reuse.turns 3 (main_pool 3)
    os_init.
Proof.
  split.
  { intros _. right. split; [apply not_elem_of_nil|simpl; lia]. }
  intros pool1 os1 H1. vm_compute in H1. injection H1 as <- <-.
  split.
  { intros Hin. apply elem_of_singleton in Hin. lia. }
  intros pool2 os2 H2. vm_compute in H2. injection H2 as <- <-.
  split; [|done].
  intros _. right. split; [apply not_elem_of_nil|simpl; lia].
Qed.

(** ** Further properties *)

(** X1 (the loop of [main]).  Let the listening socket and the descriptors
    of the connections be descriptors that an [fd_set] has room for, and let
    [accept] return no descriptor beyond that.  Whatever else [select],
    [accept], [read], [write] and [malloc] answer, after any number of turns
    of the [do ... while] loop in which no freed memory was read the pool is
    still sound: no [write_msg_tail] dangles, the read set holds only the
    listening socket and descriptors of connections, the write set only
    descriptors of connections, [maxfd] is the largest descriptor among the
    listening socket and the connections, and [nr_conns] is the number of
    connections; and every descriptor still has room in an [fd_set]. *)
Theorem main_loop_sound env w fuel first rest pool os pool' os' :
  accept_fits env →
  within_capacity w pool →
  sound w pool →
  main_loop env fuel first rest w pool os = Some (Some pool', os') →
  sound w pool' ∧ within_capacity w pool'.
Proof.
  intros Hacc. revert first pool os.
  induction rest as [|next rest IH]; intros first pool os Hcap Hs; simpl; run.
  - destruct (iteration env fuel first w pool os) as [[[pool1|] os1]|] eqn:Hit;
      [|done|done].
    intros [= <- <-]. split; [by eapply iteration_sound|].
    eapply iteration_capacity in Hit as [Hcap1 _];
      [done|done|done|by apply (sound_maxfd_fits w)].
  - destruct (iteration env fuel first w pool os) as [[[pool1|] os1]|] eqn:Hit;
      [|done|done].
    pose proof (iteration_sound _ _ _ _ _ _ _ _ Hs Hit) as Hs1.
    eapply iteration_capacity in Hit as [Hcap1 _];
      [|done|done|by apply (sound_maxfd_fits w)].
    by apply IH.
Qed.

(** Two clients connect, 5 sends "hello" and it is written to 4. *)
Lemma main_loop_sound_witness :
  ∃ pool' os',
    main_loop Calm.env 8 (SelectReady {[3]} ∅) Calm.turns 3 (main_pool 3) os_init
    = Some (Some pool', os')
    ∧ sound 3 pool'.
Proof.
  eexists _, _. split; [vm_compute; reflexivity|].
  eapply (main_loop_sound Calm.env 3 8 (SelectReady {[3]} ∅) Calm.turns
            (main_pool 3) os_init).
  - apply calm_accept_fits.
  - apply main_pool_capacity. unfold fits, FD_SETSIZE. lia.
  - apply main_pool_sound.
  - vm_compute. reflexivity.
Defined.

(** X2 (the [for] loop ends).  If the listening socket, the descriptors of
    the connections and [maxfd] are below [FD_SETSIZE] and [accept] returns
    no descriptor beyond that, the loop that starts at [sd] makes at most
    [FD_SETSIZE - sd] turns, whatever the operating system answers: with
    that much fuel it never runs out, and more fuel changes nothing.  When
    the loop has ended, the descriptors of the pool and [maxfd] are still
    below [FD_SETSIZE]. *)
Theorem scan_terminates env w fuel sd pool os :
  accept_fits env →
  within_capacity w pool →
  maxfd pool < FD_SETSIZE →
  (Z.to_nat (FD_SETSIZE - sd) ≤ fuel)%nat →
  (∀ os', scan env fuel sd w pool os ≠ Some (None, os'))
  ∧ scan env fuel sd w pool os
    = scan env (Z.to_nat (FD_SETSIZE - sd)) sd w pool os
  ∧ (∀ pool' os',
       scan env fuel sd w pool os = Some (Some pool', os') →
       within_capacity w pool' ∧ maxfd pool' < FD_SETSIZE).
Proof.
  intros Hacc Hcap Hmax Hfuel.
  assert (Hle : ∀ i, accept_res env i ≤ FD_SETSIZE - 1).
  { intros i. specialize (Hacc i). lia. }
  assert (Hw : w ≤ FD_SETSIZE - 1).
  { destruct Hcap as [[_ Hw] _]. lia. }
  pose proof (capacity_below w pool Hcap Hmax) as Hb.
  split; [|split].
  - intros os'. apply (scan_enough_fuel env (FD_SETSIZE - 1)); [done..|lia].
  - apply scan_more_fuel; [done|].
    intros os'. apply (scan_enough_fuel env (FD_SETSIZE - 1)); [done..|lia].
  - intros pool' os'. by apply scan_capacity.
Qed.

(** The first turn of [main], a client waiting. *)
Lemma scan_terminates_witness :
  scan Calm.env 2000 0 3 (select_ready {[3]} ∅ (main_pool 3)) os_init
  = scan Calm.env 1024 0 3 (select_ready {[3]} ∅ (main_pool 3)) os_init.
Proof.
  apply (scan_terminates Calm.env 3 2000 0).
  - apply calm_accept_fits.
  - split; [unfold fits, FD_SETSIZE; lia|]. intros x Hx. by apply elem_of_nil in Hx.
  - unfold FD_SETSIZE. simpl. lia.
  - unfold FD_SETSIZE. simpl. lia.
Defined.

(** X3 (what one turn keeps).  Take a pool that is consistent: the
    descriptors of the connections are distinct and differ from the
    listening socket's, the read set is exactly the listening socket and the
    connections, a descriptor is in the write set exactly when its queue is
    not empty, no chain holds a freed node, [maxfd] is the largest
    descriptor and [nr_conns] the number of connections.  Let every
    descriptor, and whatever [accept] returns, be one that an [fd_set] has
    room for.  If in this turn no [write] fails and, in case [select]
    reports the listening socket readable, [accept] returns an error or a
    descriptor that is not in use, then the turn of the [do ... while] loop,
    whatever [select], [read] and [malloc] answer, has a result and ends in
    such a pool again. *)
Theorem iteration_consistent env w fuel sel pool os :
  accept_fits env →
  within_capacity w pool →
  consistent w pool →
  accept_fresh_turn env sel w pool os →
  writes_succeed env os →
  FD_SETSIZE ≤ Z.of_nat fuel →
  ∃ pool' os',
    iteration env fuel sel w pool os = Some (Some pool', os')
    ∧ consistent w pool'
    ∧ within_capacity w pool'.
Proof.
  intros Hacc Hcap Hc Hfresh Hok Hfuel.
  destruct (iteration_turn env w fuel sel pool os)
    as (pool' & os' & Hit & Hc' & Hcap' & _); [done..|].
  by exists pool', os'.
Qed.

(** The first turn of [main], a client waiting. *)
Lemma iteration_consistent_witness :
  ∃ pool' os',
    iteration Calm.env 1024 (SelectReady {[3]} ∅) 3 (main_pool 3) os_init
    = Some (Some pool', os')
    ∧ consistent 3 pool'
    ∧ within_capacity 3 pool'.
Proof.
  apply (iteration_consistent Calm.env 3 1024 (SelectReady {[3]} ∅)
           (main_pool 3) os_init).
  - apply calm_accept_fits.
  - apply main_pool_capacity. unfold fits, FD_SETSIZE. lia.
  - apply main_pool_consistent.
  - intros _. right. split; [apply not_elem_of_nil|simpl; lia].
  - intros i _. simpl. lia.
  - unfold FD_SETSIZE. simpl. lia.
Defined.

(** X4 (a broadcast, whatever [malloc] answers).  If no [write_msg_tail]
    dangles and the buffer holds [len] bytes, [addMsg] returns 0 whichever
    allocations fail.  The connections keep their order and descriptors;
    each is left as it was or, if it is not the sender's, has one copy of the
    message put behind the messages it had.  The write set gains exactly the
    descriptors of the connections that got the copy; read set, [maxfd] and
    [nr_conns] are untouched, and nothing is read, written, accepted or
    closed. *)
Theorem addMsg_any_allocation env sd buffer len pool os :
  Forall tail_live (conn_head pool) →
  (Z.to_nat len ≤ length buffer)%nat →
  ∃ pool' os',
    addMsg env sd buffer len pool os = Some ((0, pool'), os')
    ∧ Forall2 (served sd (copy_of buffer len)) (conn_head pool) (conn_head pool')
    ∧ (∀ x, x ∈ write_set pool' ↔
            x ∈ write_set pool ∨ ∃ i conn conn',
              conn_head pool !! i = Some conn ∧ conn_head pool' !! i = Some conn'
              ∧ conn' ≠ conn ∧ fd conn = x)
    ∧ read_set pool' = read_set pool
    ∧ maxfd pool' = maxfd pool
    ∧ nr_conns pool' = nr_conns pool
    ∧ only_mallocs os os'.
Proof.
  intros Htl Hlen.
  destruct (addMsg_loop_general env sd buffer len (conn_head pool) (write_set pool) os)
    as (conns' & wset' & os' & Hloop & Hserved & Hw & Hos); [done..|].
  unfold addMsg. run. rewrite Hloop. eexists _, _. split; [done|].
  split; [exact Hserved|]. split; [exact Hw|].
  split; [done|]. split; [done|]. split; [done|exact Hos].
Qed.

(** Client 4 broadcasts to 7, 6 and 5; the allocation for 6 fails. *)
Lemma addMsg_any_allocation_witness :
  ∃ pool' os',
    addMsg Scenario.env_third_malloc 4 (message Scenario.HELLO) 5
      Scenario.pool_four os_init = Some ((0, pool'), os')
    ∧ Forall2 (served 4 (copy_of (message Scenario.HELLO) 5))
        (conn_head Scenario.pool_four) (conn_head pool').
Proof.
  destruct (addMsg_any_allocation Scenario.env_third_malloc 4
              (message Scenario.HELLO) 5 Scenario.pool_four os_init)
    as (pool' & os' & Hrun & Hserved & _).
  - repeat constructor; discriminate.
  - simpl. lia.
  - by exists pool', os'.
Defined.



(** X6 (a drain writes oldest first).  Let [conn] be the first connection on
    the list with descriptor [sd], its queue the messages [msgs], none of
    them freed.  [writeToClient] calls [write] on [sd] for the first [n] of
    [msgs], in the order of the queue and once each, and does nothing else;
    it returns 0 and takes [sd] out of the write set, and the connections
    before and after [conn] are untouched.  Either every [write] returned
    more than zero: then [n] is the length of the queue and the queue is
    empty afterwards.  Or the [n]-th was the first to return zero or less:
    then the loop stopped there and [write_msg_head] still points at the
    chain, whose first [n - 1] nodes were freed. *)
Theorem writeToClient_in_order env sd pool os before conn after msgs :
  conn_head pool = before ++ conn :: after →
  fd conn = sd →
  sd ∉ fd <$> before →
  write_msg_head conn = Live <$> msgs →
  ∃ n chain,
    writeToClient env sd pool os
    = Some ((0, with_write_set (write_set pool ∖ {[sd]})
                  (with_conn_head
                     (before ++ {| fd := sd; write_msg_head := chain |} :: after)
                     pool)),
            add_writes sd (take n msgs) os)
    ∧ (n ≤ length msgs)%nat
    ∧ ((n = length msgs ∧ chain = []
        ∧ ∀ i, (i < n)%nat → 0 < write_res env (writes os + i))
       ∨ (∃ k, n = S k
          ∧ (∀ i, (i < k)%nat → 0 < write_res env (writes os + i))
          ∧ write_res env (writes os + k) ≤ 0
          ∧ chain = replicate k Freed ++ (Live <$> drop k msgs))).
Proof.
  intros Hhead Hfd Hbefore Hq.
  assert (Hfind : find_conn sd (conn_head pool) = Some (before, conn, after)).
  { rewrite Hhead. by apply find_conn_first. }
  destruct (first_failure env (writes os) (length msgs))
    as [Hok|(k & Hk & Hok & Hfail)].
  - exists (length msgs), []. rewrite firstn_all.
    rewrite (writeToClient_drains _ _ _ _ _ _ _ msgs Hfind Hq Hok), Hfd.
    split; [done|]. split; [done|]. left. done.
  - exists (S k), (replicate k Freed ++ (Live <$> drop k msgs)).
    rewrite (writeToClient_fails _ _ _ _ _ _ _ msgs k Hfind Hq Hk Hok Hfail), Hfd.
    split; [done|]. split; [lia|]. right. exists k. done.
Qed.

(** Client 4 has [HELLO] and [WORLD] queued; the second [write] fails. *)
Lemma writeToClient_in_order_witness :
  ∃ n chain,
    writeToClient Scenario.env_no_write 4 Scenario.pool_two_sent
      (Scenario.os_after 6 2 0 2 [])
    = Some ((0, with_write_set (write_set Scenario.pool_two_sent ∖ {[4]})
                  (with_conn_head
                     ([{| fd := 5; write_msg_head := [] |}]
                      ++ [{| fd := 4; write_msg_head := chain |}])
                     Scenario.pool_two_sent)),
            add_writes 4 (take n [Scenario.HELLO; Scenario.WORLD])
              (Scenario.os_after 6 2 0 2 []))
    ∧ (n ≤ 2)%nat.
Proof.
  destruct (writeToClient_in_order Scenario.env_no_write 4 Scenario.pool_two_sent
              (Scenario.os_after 6 2 0 2 [])
              [{| fd := 5; write_msg_head := [] |}]
              {| fd := 4;
                 write_msg_head := [Live Scenario.HELLO; Live Scenario.WORLD] |}
              [] [Scenario.HELLO; Scenario.WORLD])
    as (n & chain & Hrun & Hn & _).
  - reflexivity.
  - reflexivity.
  - simpl. intros [H|H]%elem_of_cons; [lia|by apply elem_of_nil in H].
  - reflexivity.
  - exists n, chain. split; [exact Hrun|exact Hn].
Defined.

(** X7 (shutdown).  If no queue holds a freed node and [nr_conns] is the
    number of connections, the clean-up at the end of [main] closes the
    descriptor of every connection, once each and in the order of the list,
    and then the listening socket; it calls nothing else, so what was queued
    is never written.  The pool is left without connections, [nr_conns] is
    0, and no connection's descriptor is left in the read set or the write
    set. *)
Theorem shutdown_closes_everything welcome_socket pool os :
  Forall (λ conn, all_live (write_msg_head conn)) (conn_head pool) →
  nr_conns pool = uint (Z.of_nat (length (conn_head pool))) →
  ∃ pool' os',
    shutdown welcome_socket pool os = Some (pool', os')
    ∧ conn_head pool' = []
    ∧ nr_conns pool' = 0
    ∧ read_set pool' = read_set pool ∖ list_to_set (fds pool)
    ∧ write_set pool' = write_set pool ∖ list_to_set (fds pool)
    ∧ trace os' = trace os ++ (EvClose <$> fds pool) ++ [EvClose welcome_socket]
    ∧ (mallocs os' = mallocs os ∧ reads os' = reads os
       ∧ writes os' = writes os ∧ accepts os' = accepts os).
Proof.
  intros Hlive Hcount. unfold shutdown. run.
  destruct (cleanup_loop_full (conn_head pool) pool os
              (Z.of_nat (length (conn_head pool))))
    as (pool' & os' & -> & Hnil & Hrs & Hws & Hnr & _ & Hos & Htr); [done..|].
  unfold close. eexists _, _. split; [done|]. simpl.
  split; [done|]. split; [by rewrite Hnr, Z.sub_diag|].
  split; [done|]. split; [done|].
  split; [by rewrite Htr, <- app_assoc|done].
Qed.

(** Clients 5 and 4 are connected and two messages wait for client 4. *)
Lemma shutdown_closes_everything_witness :
  ∃ pool' os',
    shutdown 3 Scenario.pool_two_sent (Scenario.os_after 6 2 0 2 [])
    = Some (pool', os')
    ∧ trace os' = [EvClose 5; EvClose 4; EvClose 3].
Proof.
  destruct (shutdown_closes_everything 3 Scenario.pool_two_sent
              (Scenario.os_after 6 2 0 2 []))
    as (pool' & os' & Hrun & _ & _ & _ & _ & Htr & _).
  - repeat constructor; discriminate.
  - reflexivity.
  - exists pool', os'. split; [exact Hrun|exact Htr].
Defined.

(** X8 ([updateMaxFd] finds the least upper bound).  After [updateMaxFd] the
    field [maxfd] is at least the listening socket and at least the
    descriptor of every connection, and it is one of them; no other field
    of the pool is changed. *)
Theorem updateMaxFd_least_upper_bound pool welcome_socket :
  welcome_socket ≤ maxfd (updateMaxFd pool welcome_socket)
  ∧ (∀ x, x ∈ fds pool → x ≤ maxfd (updateMaxFd pool welcome_socket))
  ∧ (maxfd (updateMaxFd pool welcome_socket) = welcome_socket
     ∨ maxfd (updateMaxFd pool welcome_socket) ∈ fds pool)
  ∧ with_maxfd (maxfd pool) (updateMaxFd pool welcome_socket) = pool.
Proof.
  unfold updateMaxFd, fds. simpl. rewrite updateMaxFd_fold.
  destruct (foldr_max_bounds (fd <$> conn_head pool) welcome_socket)
    as (Hw & Hall & Hin).
  split; [done|]. split; [done|]. split; [done|]. by destruct pool.
Qed.

(** X9 ([removeConn] takes out the first match).  Let [conn] be the first
    connection on the list with descriptor [sd], with no freed node in its
    queue.  [removeConn] returns 0 and unlinks this one connection, the
    others keeping their order; [sd] is in neither interest set afterwards
    and every other descriptor is where it was; [nr_conns] goes down by one
    as an [unsigned int]; [maxfd], [nready] and the two ready sets are not
    touched; and the one call made is [close(sd)]. *)
Theorem removeConn_removes_first sd pool os before conn after :
  conn_head pool = before ++ conn :: after →
  fd conn = sd →
  sd ∉ fd <$> before →
  all_live (write_msg_head conn) →
  ∃ pool' os',
    removeConn sd pool os = Some ((0, pool'), os')
    ∧ conn_head pool' = before ++ after
    ∧ (∀ x, x ∈ read_set pool' ↔ x ∈ read_set pool ∧ x ≠ sd)
    ∧ (∀ x, x ∈ write_set pool' ↔ x ∈ write_set pool ∧ x ≠ sd)
    ∧ nr_conns pool' = uint (nr_conns pool - 1)
    ∧ (maxfd pool' = maxfd pool ∧ nready pool' = nready pool
       ∧ ready_read_set pool' = ready_read_set pool
       ∧ ready_write_set pool' = ready_write_set pool)
    ∧ trace os' = trace os ++ [EvClose sd]
    ∧ (mallocs os' = mallocs os ∧ reads os' = reads os
       ∧ writes os' = writes os ∧ accepts os' = accepts os).
Proof.
  intros Hhead Hfd Hbefore Hlive.
  rewrite (removeConn_present sd pool os before conn after);
    [|by rewrite Hhead; apply find_conn_first|done].
  eexists _, _. split; [done|]. simpl. split; [done|].
  split; [set_solver|]. split; [set_solver|]. done.
Qed.

(** Of two connections with descriptor 4 the one nearer the head goes. *)
Lemma removeConn_removes_first_witness :
  ∃ pool' os',
    removeConn 4
      (Scenario.pool_of [ {| fd := 5; write_msg_head := [] |};
                          {| fd := 4; write_msg_head := [Live Scenario.HELLO] |};
                          {| fd := 4; write_msg_head := [] |} ] {[4]})
      os_init = Some ((0, pool'), os')
    ∧ conn_head pool' = [ {| fd := 5; write_msg_head := [] |};
                          {| fd := 4; write_msg_head := [] |} ].
Proof.
  destruct (removeConn_removes_first 4
              (Scenario.pool_of
                 [ {| fd := 5; write_msg_head := [] |};
                   {| fd := 4; write_msg_head := [Live Scenario.HELLO] |};
                   {| fd := 4; write_msg_head := [] |} ] {[4]})
              os_init
              [ {| fd := 5; write_msg_head := [] |} ]
              {| fd := 4; write_msg_head := [Live Scenario.HELLO] |}
              [ {| fd := 4; write_msg_head := [] |} ])
    as (pool' & os' & Hrun & Hhead & _).
  - reflexivity.
  - reflexivity.
  - simpl. intros [H|H]%elem_of_cons; [lia|by apply elem_of_nil in H].
  - repeat constructor; discriminate.
  - exists pool', os'. split; [exact Hrun|exact Hhead].
Defined.

(** X10 ([initializeServer] leaks no socket).  [initializeServer] makes the
    calls [socket], [ioctl], [bind] and [listen] in this order, on the
    descriptor that [socket] gave, with the given port and a backlog of 5.
    If none of them returns a negative value it makes all four and returns
    that descriptor.  Otherwise the first call that returns a negative value
    is the last of the four that it makes; it then closes the socket, once,
    unless it was [socket] itself that failed, and returns -1. *)
Theorem initializeServer_closes_on_failure (a : Boot.answers) (port : Z) :
  (Forall (λ r, 0 ≤ r) (Boot.results a)
   ∧ Boot.initializeServer a port = (Boot.socket_res a, Boot.attempts a port))
  ∨ (∃ k r,
       Boot.results a !! k = Some r
       ∧ r < 0
       ∧ (∀ j r', (j < k)%nat → Boot.results a !! j = Some r' → 0 ≤ r')
       ∧ Boot.initializeServer a port
         = (-1, take (S k) (Boot.attempts a port)
                ++ (if decide (k = 0%nat) then []
                    else [Boot.Close (Boot.socket_res a)]))).
Proof.
  unfold Boot.initializeServer, Boot.results, Boot.attempts.
  destruct (Boot.socket_res a <? 0) eqn:Hs.
  { right. exists 0%nat, (Boot.socket_res a). split; [done|]. split; [lia|].
    split; [intros j r' Hj; lia|done]. }
  destruct (Boot.ioctl_res a <? 0) eqn:Hi.
  { right. exists 1%nat, (Boot.ioctl_res a). split; [done|]. split; [lia|].
    split; [|done]. intros j r' Hj. destruct j as [|j]; [|lia].
    intros [= <-]. lia. }
  destruct (Boot.bind_res a <? 0) eqn:Hb.
  { right. exists 2%nat, (Boot.bind_res a). split; [done|]. split; [lia|].
    split; [|done]. intros j r' Hj. destruct j as [|[|j]]; [| |lia];
      intros [= <-]; lia. }
  destruct (Boot.listen_res a <? 0) eqn:Hl.
  { right. exists 3%nat, (Boot.listen_res a). split; [done|]. split; [lia|].
    split; [|done]. intros j r' Hj. destruct j as [|[|[|j]]]; [| | |lia];
      intros [= <-]; lia. }
  left. split; [|done]. repeat constructor; lia.
Qed.

(** X11 (no memory for a new client).  When [accept] returns a descriptor
    and the allocation of the connection object fails,
    [acceptNewConnection] returns -1 and leaves the pool as it was, and the
    new descriptor is closed twice: once by [addConn], and once more by
    [acceptNewConnection] itself. *)
Theorem acceptNewConnection_closes_twice env welcome_socket pool os :
  0 ≤ accept_res env (accepts os) →
  malloc_ok env (mallocs os) = false →
  ∃ os',
    acceptNewConnection env welcome_socket pool os = Some ((-1, pool), os')
    ∧ trace os' = trace os ++ [EvClose (accept_res env (accepts os));
                               EvClose (accept_res env (accepts os))]
    ∧ accepts os' = S (accepts os) ∧ mallocs os' = S (mallocs os)
    ∧ reads os' = reads os ∧ writes os' = writes os.
Proof.
  intros Hpos Hfail. unfold acceptNewConnection, accept, addConn, malloc, close. run.
  destruct (accept_res env (accepts os) <? 0) eqn:Hneg; [lia|].
  simpl. rewrite Hfail. simpl.
  eexists. split; [done|]. simpl. by rewrite <- app_assoc.
Qed.

(** The first client arrives when no memory is to be had. *)
Lemma acceptNewConnection_closes_twice_witness :
  ∃ os',
    acceptNewConnection Scenario.env_no_memory 3 (main_pool 3) os_init
    = Some ((-1, main_pool 3), os')
    ∧ trace os' = [EvClose 4; EvClose 4].
Proof.
  destruct (acceptNewConnection_closes_twice Scenario.env_no_memory 3
              (main_pool 3) os_init) as (os' & Hrun & Htr & _).
  - simpl. lia.
  - reflexivity.
  - exists os'. split; [exact Hrun|exact Htr].
Defined.

(** X12 (from one client to the other).  Client [sd] is readable and [read]
    returns the bytes [data], between 1 and 4095 of them; [conn], the first
    connection with descriptor [rcpt], is another client's and has the
    messages [msgs] queued, none of them empty.  Let the allocations of the
    broadcast succeed, and let every [write] of the drain that follows on
    [rcpt] take the whole message it is given, returning its size.  Then
    the calls of [write] are these: on [rcpt], one for each message that was
    queued for it, oldest first, and then one with the bytes of [data] in
    upper case, as many as were read.  Nothing is written to anyone else,
    and afterwards the queue of [rcpt] is empty and [rcpt] is out of the
    write set. *)
Theorem relay_reaches_recipient env welcome_socket sd rcpt pool os
    before conn after msgs (data : list byte) :
  conn_head pool = before ++ conn :: after →
  fd conn = rcpt →
  rcpt ∉ fd <$> before →
  rcpt ≠ sd →
  write_msg_head conn = Live <$> msgs →
  Forall (λ m, 0 < size m) msgs →
  Forall tail_live (conn_head pool) →
  read_res env (reads os) = ReadBytes data →
  (0 < length data ≤ 4095)%nat →
  (∀ i, (i < 2 * length (recipients sd (conn_head pool)))%nat →
        malloc_ok env (mallocs os + i) = true) →
  (∀ i m,
     (msgs ++ [{| message := upper_char <$> data;
                  size := Z.of_nat (length data) |}]) !! i = Some m →
     write_res env (writes os + i) = size m) →
  ∃ pool1 os1 pool2 os2,
    processDataFromConnection env sd pool welcome_socket os = Some (pool1, os1)
    ∧ writeToClient env rcpt pool1 os1 = Some ((0, pool2), os2)
    ∧ trace os2
      = trace os ++ (write_event rcpt <$> msgs)
          ++ [EvWrite rcpt (upper_char <$> data) (Z.of_nat (length data))]
    ∧ conn_head pool2
      = (deliver sd {| message := upper_char <$> data;
                       size := Z.of_nat (length data) |} <$> before)
        ++ {| fd := rcpt; write_msg_head := [] |}
        :: (deliver sd {| message := upper_char <$> data;
                          size := Z.of_nat (length data) |} <$> after)
    ∧ (rcpt ∉ write_set pool2).
Proof.
  intros Hhead Hfd Hbefore Hne Hq Hsizes Htl Hread Hlen Hmalloc Hwrite.
  rewrite (processData_delivers env sd pool welcome_socket os data) by done.
  set (m := {| message := transform data; size := Z.of_nat (length data) |}).
  eexists _, _.
  rewrite (writeToClient_drains env rcpt _ _ (deliver sd m <$> before)
             (deliver sd m conn) (deliver sd m <$> after) (msgs ++ [m])).
  - eexists _, _. split; [done|]. split; [done|]. simpl.
    split; [|split].
    + by rewrite fmap_app.
    + rewrite deliver_other by congruence. simpl. by rewrite Hfd.
    + set_solver.
  - simpl. rewrite Hhead, fmap_app, fmap_cons. apply find_conn_first.
    + rewrite deliver_other by congruence. done.
    + rewrite <- list_fmap_compose.
      intros (c & -> & Hc)%list_elem_of_fmap. apply Hbefore.
      apply list_elem_of_fmap. exists c. split; [|done].
      simpl. unfold deliver. by destruct (decide (fd c ≠ sd)).
  - rewrite deliver_other by congruence. simpl. by rewrite Hq, fmap_app.
  - intros i Hi. simpl.
    destruct (lookup_lt_is_Some_2 (msgs ++ [m]) i Hi) as [mi Hmi].
    rewrite (Hwrite i mi Hmi).
    apply lookup_app_Some in Hmi as [Hmi|[_ Hmi]].
    + by apply (Forall_lookup_1 _ _ _ _ Hsizes Hmi).
    + apply list_lookup_singleton_Some in Hmi as [_ <-]. simpl. lia.
Qed.

(** Client 5 sends "world" while "HELLO" waits for client 4. *)
Lemma relay_reaches_recipient_witness :
  ∃ pool1 os1 pool2 os2,
    processDataFromConnection Calm.env 5 Scenario.pool_one_sent 3
      (Scenario.os_after 2 1 0 2 []) = Some (pool1, os1)
    ∧ writeToClient Calm.env 4 pool1 os1 = Some ((0, pool2), os2)
    ∧ trace os2
      = [EvWrite 4 (message Scenario.HELLO) 5; EvWrite 4 (message Scenario.WORLD) 5].
Proof.
  destruct (relay_reaches_recipient Calm.env 3 5 4 Scenario.pool_one_sent
              (Scenario.os_after 2 1 0 2 [])
              [{| fd := 5; write_msg_head := [] |}]
              {| fd := 4; write_msg_head := [Live Scenario.HELLO] |}
              [] [Scenario.HELLO] Scenario.world)
    as (pool1 & os1 & pool2 & os2 & Hsend & Hdrain & Htr & _).
  - reflexivity.
  - reflexivity.
  - simpl. intros [H|H]%elem_of_cons; [lia|by apply elem_of_nil in H].
  - lia.
  - reflexivity.
  - repeat constructor.
  - repeat constructor; discriminate.
  - reflexivity.
  - simpl. lia.
  - intros i _. reflexivity.
  - intros i m Hi. destruct i as [|[|i]]; simpl in Hi.
    + by injection Hi as <-.
    + by injection Hi as <-.
    + done.
  - exists pool1, os1, pool2, os2. split; [exact Hsend|]. split; [exact Hdrain|].
    exact Htr.
Defined.



(** X14 (a run without failing writes).  Start the [do ... while] loop in a
    pool that is consistent (distinct descriptors, the read set holding
    exactly the listening socket and the connections, a descriptor in the
    write set exactly when its queue is not empty, no freed node in a queue,
    [maxfd] the largest descriptor, [nr_conns] the number of connections)
    and whose descriptors an [fd_set] has room for.  Let [accept] return no
    descriptor beyond that room, let no [write] fail, and in every turn in
    which [select] reports the listening socket readable let [accept]
    return an error or a descriptor that is not in use when the turn
    begins; a descriptor may come back once it was closed.  Then whatever
    [select], [read] and [malloc] answer, and however many turns the loop
    takes, no turn reads freed memory, the [for] loop ends in every turn,
    and when the interrupt comes the pool is consistent again; the clean-up
    that follows closes each connection that is left, once, then the
    listening socket, and leaves the pool empty. *)
Theorem clean_run_and_shutdown env welcome_socket fuel first rest pool os :
  accept_fits env →
  within_capacity welcome_socket pool →
  consistent welcome_socket pool →
  accept_fresh env fuel first rest welcome_socket pool os →
  writes_succeed env os →
  FD_SETSIZE ≤ Z.of_nat fuel →
  ∃ pool1 os1 pool2 os2,
    main_loop env fuel first rest welcome_socket pool os = Some (Some pool1, os1)
    ∧ consistent welcome_socket pool1
    ∧ within_capacity welcome_socket pool1
    ∧ shutdown welcome_socket pool1 os1 = Some (pool2, os2)
    ∧ conn_head pool2 = []
    ∧ nr_conns pool2 = 0
    ∧ write_set pool2 = ∅
    ∧ read_set pool2 = {[welcome_socket]}
    ∧ trace os2 = trace os1 ++ (EvClose <$> fds pool1) ++ [EvClose welcome_socket].
Proof.
  intros Hacc Hcap Hc Hfresh Hok Hfuel.
  destruct (main_loop_turns env welcome_socket fuel rest first pool os)
    as (pool1 & os1 & Hloop & Hc1 & Hcap1 & _); [done..|].
  pose proof Hc1 as [[_ Hread Hwrite _ Hcount] _ Hapart Hfull _ Hlive].
  destruct (cleanup_loop_full (conn_head pool1) pool1 os1
              (Z.of_nat (length (conn_head pool1))))
    as (pool2 & os2 & Hclean & Hnil & Hrs & Hws & Hnr & _ & _ & Htr); [done..|].
  exists pool1, os1. unfold shutdown. run. rewrite Hclean. unfold close.
  eexists _, _. split; [done|]. split; [done|]. split; [done|]. split; [done|].
  simpl. split; [done|]. split; [by rewrite Hnr, Z.sub_diag|].
  split; [rewrite Hws; fold (fds pool1); set_solver|].
  split.
  - rewrite Hrs. fold (fds pool1).
    assert (welcome_socket ∉ (list_to_set (fds pool1) : gset Z)).
    { by rewrite elem_of_list_to_set. }
    set_solver.
  - by rewrite Htr, <- app_assoc.
Qed.

(** A client connects on descriptor 4 and closes; the next client is given
    descriptor 4 again. *)
Lemma clean_run_and_shutdown_witness :
  ∃ pool1 os1 pool2 os2,
    main_loop Reuse.env 1024 (SelectReady {[3]} ∅) Reuse.turns 3 (main_pool 3)
      os_init = Some (Some pool1, os1)
    ∧ consistent 3 pool1
    ∧ shutdown 3 pool1 os1 = Some (pool2, os2)
    ∧ conn_head pool2 = [].
Proof.
  destruct (clean_run_and_shutdown Reuse.env 3 1024 (SelectReady {[3]} ∅)
              Reuse.turns (main_pool 3) os_init)
    as (pool1 & os1 & pool2 & os2 & Hloop & Hc & _ & Hdown & Hnil & _).
  - apply reuse_accept_fits.
  - apply main_pool_capacity. unfold fits, FD_SETSIZE. lia.
  - apply main_pool_consistent.
  - apply reuse_accept_fresh.
  - intros i _. simpl. lia.
  - unfold FD_SETSIZE. simpl. lia.
  - exists pool1, os1, pool2, os2. done.
Defined.

(** X15 (every descriptor is closed as often as it was handed out).  Under
    the conditions of X14, let no allocation fail either, and start at a
    moment when the descriptors that [accept] has returned so far, each
    counted as often as it was returned, are those of the connections and
    those closed so far.  Then, whatever [select] and [read] answer and
    however many turns the loop takes, once the clean-up at the end of
    [main] is done the descriptors closed are, counted with their number,
    the descriptors that [accept] returned and the listening socket: none
    is left open and none is closed more often than it was opened. *)
Theorem clean_run_closes_each_once env welcome_socket fuel first rest pool os :
  accept_fits env →
  within_capacity welcome_socket pool →
  consistent welcome_socket pool →
  accept_fresh env fuel first rest welcome_socket pool os →
  writes_succeed env os →
  FD_SETSIZE ≤ Z.of_nat fuel →
  (∀ i, malloc_ok env i = true) →
  accounted env os pool →
  ∃ pool1 os1 pool2 os2,
    main_loop env fuel first rest welcome_socket pool os = Some (Some pool1, os1)
    ∧ shutdown welcome_socket pool1 os1 = Some (pool2, os2)
    ∧ closes (trace os2) ≡ₚ accepted env (accepts os2) ++ [welcome_socket].
Proof.
  intros Hacc Hcap Hc Hfresh Hok Hfuel Hmem Hcount.
  destruct (main_loop_turns env welcome_socket fuel rest first pool os)
    as (pool1 & os1 & Hloop & Hc1 & _ & Hcount1); [done..|].
  specialize (Hcount1 Hmem Hcount).
  pose proof Hc1 as [[_ _ _ _ Hnr] _ _ _ _ Hlive].
  destruct (cleanup_loop_full (conn_head pool1) pool1 os1
              (Z.of_nat (length (conn_head pool1))))
    as (pool2 & os2 & Hclean & _ & _ & _ & _ & _ & (_ & _ & _ & Ha) & Htr);
    [done..|].
  exists pool1, os1. unfold shutdown. run. rewrite Hclean. unfold close.
  eexists _, _. split; [done|]. split; [done|]. simpl.
  rewrite closes_app, Htr, closes_app, closes_fmap, Ha. simpl.
  fold (fds pool1). rewrite <- Hcount1.
  by rewrite (Permutation_app_comm (closes (trace os1))).
Qed.

(** A client connects on descriptor 4 and closes; the next client is given
    descriptor 4 again, and is still connected when the interrupt comes:
    4 is closed twice, and then 3. *)
Lemma clean_run_closes_each_once_witness :
  ∃ pool1 os1 pool2 os2,
    main_loop Reuse.env 1024 (SelectReady {[3]} ∅) Reuse.turns 3 (main_pool 3)
      os_init = Some (Some pool1, os1)
    ∧ shutdown 3 pool1 os1 = Some (pool2, os2)
    ∧ closes (trace os2) ≡ₚ [4; 4; 3].
Proof.
  destruct (clean_run_closes_each_once Reuse.env 3 1024 (SelectReady {[3]} ∅)
              Reuse.turns (main_pool 3) os_init)
    as (pool1 & os1 & pool2 & os2 & Hloop & Hdown & Hperm).
  - apply reuse_accept_fits.
  - apply main_pool_capacity. unfold fits, FD_SETSIZE. lia.
  - apply main_pool_consistent.
  - apply reuse_accept_fresh.
  - intros i _. simpl. lia.
  - unfold FD_SETSIZE. simpl. lia.
  - reflexivity.
  - unfold accounted. simpl. apply Permutation_refl.
  - exists pool1, os1, pool2, os2. split; [exact Hloop|]. split; [exact Hdown|].
    rewrite Hperm.
    assert (Ha : accepts os2 = 2%nat).
    { vm_compute in Hloop. injection Hloop as <- <-.
      vm_compute in Hdown. by injection Hdown as _ <-. }
    rewrite Ha. apply Permutation_refl.
Defined.
